(** * Discogs: Hide listings from blocked sellers

    A shallow embedding of the userscript
    [discogs/Discogs: Hide listings from blocked sellers.user.js]
    and the properties of its blocklist store and row reconciler.

    JavaScript strings are sequences of UTF-16 code units; a code unit is
    modelled as an [N].  DOM attributes are finite maps from attribute names
    to strings, [localStorage] is a finite map with a quota. *)

From Stdlib Require Import NArith Ascii String.
From stdpp Require Import base option numbers list gmap strings.

Local Open Scope N_scope.

#[local] Set Warnings "-clear-no-such-hyp".

(** ** JavaScript strings *)

Abbreviation jsstring := (list N).

(** An ASCII literal as a JavaScript string. *)
Definition js (s : string) : jsstring :=
  N_of_ascii <$> list_ascii_of_string s.
Arguments js s%_string.

(** The same, with every apostrophe standing for a double quote: JSON texts
    are written this way below. *)
Definition jsq (s : string) : jsstring :=
  (λ c, if c =? 39 then 34 else c) <$> js s.
Arguments jsq s%_string.

(** [!s] is false exactly for the non-empty strings. *)
Definition truthy (s : jsstring) : bool :=
  match s with
  | [] => false
  | _ :: _ => true
  end.

(** [x || ''] on a string. *)
Definition or_empty (x : jsstring) : jsstring :=
  if truthy x then x else [].

(** White space and line terminators removed by [String.prototype.trim]. *)
Definition is_white_space (c : N) : bool :=
  bool_decide (c ∈ [9; 10; 11; 12; 13; 32; 160; 5760; 8232; 8233; 8239; 8287;
                    12288; 65279])
  || (8192 <=? c) && (c <=? 8202).

Fixpoint trim_start (s : jsstring) : jsstring :=
  match s with
  | [] => []
  | c :: s' => if is_white_space c then trim_start s' else s
  end.

Definition trim (s : jsstring) : jsstring :=
  reverse (trim_start (reverse (trim_start s))).

(** The character class [[a-z0-9]] of the regular expression in [canon]. *)
Definition is_az09 (c : N) : bool :=
  (97 <=? c) && (c <=? 122) || (48 <=? c) && (c <=? 57).

(** Lower-casing of one ASCII code unit; what [toLowerCase] does on ASCII. *)
Definition ascii_lower (c : N) : N :=
  if (65 <=? c) && (c <=? 90) then c + 32 else c.

Definition is_ascii (s : jsstring) : Prop := Forall (λ c, c < 128) s.

(** A lower-casing function that follows Unicode on ASCII, on the Latin-1
    capitals, on U+0130 (which becomes two code units) and on the Kelvin and
    Angstrom signs.  It is the instance at which the general statements
    below are exercised. *)
Definition lower_unit (c : N) : jsstring :=
  if (65 <=? c) && (c <=? 90) then [c + 32]
  else if (192 <=? c) && (c <=? 222) && negb (c =? 215) then [c + 32]
  else if c =? 304 then [105; 775]
  else if c =? 8490 then [107]
  else if c =? 8491 then [229]
  else [c].

Definition toLowerCase_sample (s : jsstring) : jsstring :=
  s ≫= lower_unit.

(** ** The script, part 1: canonicalisation *)

Section Canon.

(** [String.prototype.toLowerCase] is the engine's: it depends on the
    Unicode tables the engine ships.  The script is embedded over any such
    function. *)
Variable toLowerCase : jsstring → jsstring.

(** [function canon(s)]; [None] is [null]. *)
Definition canon (s : option jsstring) : jsstring :=
  match s with
  | None => []
  | Some s =>
      if negb (truthy s) then []
      else filter (λ c, is_az09 c) (toLowerCase s)
  end.

End Canon.

(** ** Completions

    A JavaScript call either returns or throws. *)

Inductive exn :=
| SecurityError | QuotaExceededError | SyntaxError | TypeError | URIError.

Inductive completion (A : Type) :=
| Normal (a : A)
| Throw (e : exn).
Arguments Normal {A} a.
Arguments Throw {A} e.

Definition cbind {A B} (m : completion A) (k : A → completion B)
  : completion B :=
  match m with
  | Normal a => k a
  | Throw e => Throw e
  end.

(** [Array.prototype.map] with a callback that may throw. *)
Fixpoint map_throwing {A B} (f : A → completion B) (l : list A)
  : completion (list B) :=
  match l with
  | [] => Normal []
  | x :: l' =>
      cbind (f x) (λ y, cbind (map_throwing f l') (λ ys, Normal (y :: ys)))
  end.

(** ** JSON

    [JSON.parse] on the full grammar, [JSON.stringify] on arrays of strings
    (the only value the script serialises).  A number keeps its source text:
    the script only ever asks whether a value is a string or an array. *)

#[warnings="-register-all"] Inductive json :=
| JNull
| JBool (b : bool)
| JNumber (lexeme : jsstring)
| JString (s : jsstring)
| JArray (items : list json)
| JObject (members : list (jsstring * json)).

Inductive parsed (A : Type) :=
| Ok (a : A) (rest : jsstring)
| Bad
| OutOfFuel.
Arguments Ok {A} a rest.
Arguments Bad {A}.
Arguments OutOfFuel {A}.

Definition pbind {A B} (m : parsed A) (k : A → jsstring → parsed B)
  : parsed B :=
  match m with
  | Ok a r => k a r
  | Bad => Bad
  | OutOfFuel => OutOfFuel
  end.

Definition is_json_ws (c : N) : bool :=
  (c =? 32) || (c =? 9) || (c =? 10) || (c =? 13).

Fixpoint skip_ws (s : jsstring) : jsstring :=
  match s with
  | [] => []
  | c :: s' => if is_json_ws c then skip_ws s' else s
  end.

Definition is_digit (c : N) : bool := (48 <=? c) && (c <=? 57).

Definition hex_val (c : N) : option N :=
  if is_digit c then Some (c - 48)
  else if (97 <=? c) && (c <=? 102) then Some (c - 87)
  else if (65 <=? c) && (c <=? 70) then Some (c - 55)
  else None.

Definition hex4 (h1 h2 h3 h4 : N) : option N :=
  a ← hex_val h1; b ← hex_val h2; c ← hex_val h3; d ← hex_val h4;
  Some (4096 * a + 256 * b + 16 * c + d).

(** The character after a backslash, [u] apart. *)
Definition unescape (e : N) : option N :=
  if e =? 34 then Some 34            (* quote *)
  else if e =? 92 then Some 92       (* backslash *)
  else if e =? 47 then Some 47       (* slash *)
  else if e =? 98 then Some 8        (* b: backspace *)
  else if e =? 102 then Some 12      (* f: form feed *)
  else if e =? 110 then Some 10      (* n: line feed *)
  else if e =? 114 then Some 13      (* r: carriage return *)
  else if e =? 116 then Some 9       (* t: tab *)
  else None.

Definition prepend (c : N) (o : option (jsstring * jsstring))
  : option (jsstring * jsstring) :=
  match o with
  | Some (str, rest) => Some (c :: str, rest)
  | None => None
  end.

(** The characters of a string literal, after its opening quote, up to and
    including the closing quote. *)
Fixpoint parse_string_chars (s : jsstring) : option (jsstring * jsstring) :=
  match s with
  | [] => None
  | c :: s' =>
      if c =? 34 then Some ([], s')
      else if c =? 92 then
        match s' with
        | [] => None
        | e :: s'' =>
            if e =? 117 then
              match s'' with
              | h1 :: h2 :: h3 :: h4 :: s3 =>
                  match hex4 h1 h2 h3 h4 with
                  | Some u => prepend u (parse_string_chars s3)
                  | None => None
                  end
              | _ => None
              end
            else
              match unescape e with
              | Some u => prepend u (parse_string_chars s'')
              | None => None
              end
        end
      else if c <? 32 then None
      else prepend c (parse_string_chars s')
  end.

Fixpoint span_digits (s : jsstring) : jsstring * jsstring :=
  match s with
  | [] => ([], [])
  | c :: s' =>
      if is_digit c then let '(ds, r) := span_digits s' in (c :: ds, r)
      else ([], s)
  end.

(** A number: an optional minus sign, then a single zero or a non-zero
    digit followed by digits, then an optional fraction (a dot and at least
    one digit), then an optional exponent (e or E, an optional sign, at
    least one digit). *)
Definition scan_int (s : jsstring) : option (jsstring * jsstring) :=
  match s with
  | [] => None
  | c :: s' =>
      if c =? 48 then Some ([48], s')
      else if is_digit c then
        let '(ds, r) := span_digits s' in Some (c :: ds, r)
      else None
  end.

Definition scan_frac (s : jsstring) : option (jsstring * jsstring) :=
  match s with
  | c :: s' =>
      if c =? 46 then
        match span_digits s' with
        | ([], _) => None
        | (ds, r) => Some (c :: ds, r)
        end
      else Some ([], s)
  | [] => Some ([], [])
  end.

Definition scan_exp (s : jsstring) : option (jsstring * jsstring) :=
  match s with
  | c :: s' =>
      if (c =? 101) || (c =? 69) then
        let '(sign, s1) :=
          match s' with
          | d :: s'' => if (d =? 43) || (d =? 45) then ([d], s'') else ([], s')
          | [] => ([], [])
          end in
        match span_digits s1 with
        | ([], _) => None
        | (ds, r) => Some (c :: sign ++ ds, r)
        end
      else Some ([], s)
  | [] => Some ([], [])
  end.

Definition scan_number (s : jsstring) : option (jsstring * jsstring) :=
  let '(sign, s1) :=
    match s with
    | c :: s' => if c =? 45 then ([c], s') else ([], s)
    | [] => ([], [])
    end in
  '(i, s2) ← scan_int s1;
  '(f, s3) ← scan_frac s2;
  '(e, s4) ← scan_exp s3;
  Some (sign ++ i ++ f ++ e, s4).

Fixpoint strip_prefix (p s : jsstring) : option jsstring :=
  match p, s with
  | [], _ => Some s
  | a :: p', b :: s' => if a =? b then strip_prefix p' s' else None
  | _ :: _, [] => None
  end.

Definition parse_word (w : string) (v : json) (s : jsstring) : parsed json :=
  match strip_prefix (js w) s with
  | Some r => Ok v r
  | None => Bad
  end.

(** A value, the elements of a non-empty array after its bracket, and the
    members of a non-empty object after its brace.  Every call spends one
    unit of fuel; [JSON_parse] below supplies enough. *)
Fixpoint parse_value (fuel : nat) (s : jsstring) {struct fuel} : parsed json :=
  match fuel with
  | O => OutOfFuel
  | S fuel =>
      match skip_ws s with
      | [] => Bad
      | c :: s' =>
          if c =? 34 then
            match parse_string_chars s' with
            | Some (str, r) => Ok (JString str) r
            | None => Bad
            end
          else if c =? 91 then
            match skip_ws s' with
            | d :: r =>
                if d =? 93 then Ok (JArray []) r
                else pbind (parse_elements fuel s') (λ vs r, Ok (JArray vs) r)
            | [] => Bad
            end
          else if c =? 123 then
            match skip_ws s' with
            | d :: r =>
                if d =? 125 then Ok (JObject []) r
                else pbind (parse_members fuel s') (λ ms r, Ok (JObject ms) r)
            | [] => Bad
            end
          else if c =? 116 then parse_word "true" (JBool true) (c :: s')
          else if c =? 102 then parse_word "false" (JBool false) (c :: s')
          else if c =? 110 then parse_word "null" JNull (c :: s')
          else
            match scan_number (c :: s') with
            | Some (lexeme, r) => Ok (JNumber lexeme) r
            | None => Bad
            end
      end
  end
with parse_elements (fuel : nat) (s : jsstring) {struct fuel}
  : parsed (list json) :=
  match fuel with
  | O => OutOfFuel
  | S fuel =>
      pbind (parse_value fuel s) (λ v r,
        match skip_ws r with
        | d :: r' =>
            if d =? 44 then
              pbind (parse_elements fuel r') (λ vs r'', Ok (v :: vs) r'')
            else if d =? 93 then Ok [v] r'
            else Bad
        | [] => Bad
        end)
  end
with parse_members (fuel : nat) (s : jsstring) {struct fuel}
  : parsed (list (jsstring * json)) :=
  match fuel with
  | O => OutOfFuel
  | S fuel =>
      match skip_ws s with
      | q :: s1 =>
          if q =? 34 then
            match parse_string_chars s1 with
            | Some (k, s2) =>
                match skip_ws s2 with
                | colon :: s3 =>
                    if colon =? 58 then
                      pbind (parse_value fuel s3) (λ v r,
                        match skip_ws r with
                        | d :: r' =>
                            if d =? 44 then
                              pbind (parse_members fuel r')
                                    (λ ms r'', Ok ((k, v) :: ms) r'')
                            else if d =? 125 then Ok [(k, v)] r'
                            else Bad
                        | [] => Bad
                        end)
                    else Bad
                | [] => Bad
                end
            | None => Bad
            end
          else Bad
      | [] => Bad
      end
  end.

Definition parse_fuel (s : jsstring) : nat := 2 * length s + 2.

(** [JSON.parse(text)]: one value, white space around it, nothing else. *)
Definition JSON_parse (text : jsstring) : completion json :=
  match parse_value (parse_fuel text) text with
  | Ok v r => match skip_ws r with [] => Normal v | _ :: _ => Throw SyntaxError end
  | Bad => Throw SyntaxError
  | OutOfFuel => Throw SyntaxError
  end.

Definition hex_digit (n : N) : N := if n <? 10 then 48 + n else 87 + n.

Definition unicode_escape (c : N) : jsstring :=
  [92; 117; hex_digit ((c / 4096) `mod` 16); hex_digit ((c / 256) `mod` 16);
   hex_digit ((c / 16) `mod` 16); hex_digit (c `mod` 16)].

Definition is_high_surrogate (c : N) : bool := (55296 <=? c) && (c <=? 56319).
Definition is_low_surrogate (c : N) : bool := (56320 <=? c) && (c <=? 57343).

(** [QuoteJSONString] without the surrounding quotes: the two-character
    escapes, [\uXXXX] for the other control characters and for lone
    surrogates, everything else (surrogate pairs too) as it is. *)
Fixpoint quote_chars (s : jsstring) : jsstring :=
  match s with
  | [] => []
  | c :: s' =>
      if c =? 8 then 92 :: 98 :: quote_chars s'
      else if c =? 9 then 92 :: 116 :: quote_chars s'
      else if c =? 10 then 92 :: 110 :: quote_chars s'
      else if c =? 12 then 92 :: 102 :: quote_chars s'
      else if c =? 13 then 92 :: 114 :: quote_chars s'
      else if c =? 34 then 92 :: 34 :: quote_chars s'
      else if c =? 92 then 92 :: 92 :: quote_chars s'
      else if c <? 32 then unicode_escape c ++ quote_chars s'
      else if is_high_surrogate c then
        match s' with
        | d :: s'' =>
            if is_low_surrogate d then c :: d :: quote_chars s''
            else unicode_escape c ++ quote_chars s'
        | [] => unicode_escape c
        end
      else if is_low_surrogate c then unicode_escape c ++ quote_chars s'
      else c :: quote_chars s'
  end.

Definition quote (s : jsstring) : jsstring := 34 :: quote_chars s ++ [34].

Fixpoint stringify_elements (l : list jsstring) : jsstring :=
  match l with
  | [] => []
  | [x] => quote x
  | x :: l' => quote x ++ 44 :: stringify_elements l'
  end.

(** [JSON.stringify(a)] for an array [a] of strings. *)
Definition JSON_stringify (a : list jsstring) : jsstring :=
  91 :: stringify_elements a ++ [93].

(** ** [decodeURIComponent]

    First the percent escapes are read, then the escaped bytes are decoded as
    UTF-8 and written as UTF-16.  A truncated or non-hexadecimal escape, a
    stray continuation byte, an overlong form, an encoded surrogate and a
    code point above U+10FFFF all throw [URIError]. *)

Inductive uri_item :=
| Raw (c : N)
| Pct (b : N).

Definition hex_byte (h1 h2 : N) : option N :=
  a ← hex_val h1; b ← hex_val h2; Some (16 * a + b).

Fixpoint percent_items (s : jsstring) : option (list uri_item) :=
  match s with
  | [] => Some []
  | c :: s1 =>
      if c =? 37 then
        match s1 with
        | h1 :: h2 :: s2 =>
            match hex_byte h1 h2 with
            | Some b => cons (Pct b) <$> percent_items s2
            | None => None
            end
        | _ => None
        end
      else cons (Raw c) <$> percent_items s1
  end.

Definition is_continuation (b : N) : bool := (128 <=? b) && (b <=? 191).

Definition utf16_encode (cp : N) : jsstring :=
  if cp <? 65536 then [cp]
  else [55296 + ((cp - 65536) / 1024); 56320 + ((cp - 65536) `mod` 1024)].

Fixpoint utf8_items (l : list uri_item) : option jsstring :=
  match l with
  | [] => Some []
  | Raw c :: l1 => cons c <$> utf8_items l1
  | Pct b :: l1 =>
      if b <? 128 then cons b <$> utf8_items l1
      else if b <? 192 then None
      else if b <? 224 then
        match l1 with
        | Pct b1 :: l2 =>
            let cp := (b - 192) * 64 + (b1 - 128) in
            if is_continuation b1 && (128 <=? cp)
            then cons cp <$> utf8_items l2 else None
        | _ => None
        end
      else if b <? 240 then
        match l1 with
        | Pct b1 :: Pct b2 :: l3 =>
            let cp := (b - 224) * 4096 + (b1 - 128) * 64 + (b2 - 128) in
            if is_continuation b1 && is_continuation b2 && (2048 <=? cp)
               && negb ((55296 <=? cp) && (cp <=? 57343))
            then cons cp <$> utf8_items l3 else None
        | _ => None
        end
      else if b <? 248 then
        match l1 with
        | Pct b1 :: Pct b2 :: Pct b3 :: l4 =>
            let cp := (b - 240) * 262144 + (b1 - 128) * 4096
                      + (b2 - 128) * 64 + (b3 - 128) in
            if is_continuation b1 && is_continuation b2 && is_continuation b3
               && (65536 <=? cp) && (cp <=? 1114111)
            then app (utf16_encode cp) <$> utf8_items l4 else None
        | _ => None
        end
      else None
  end.

Definition decodeURIComponent (s : jsstring) : completion jsstring :=
  match percent_items s ≫= utf8_items with
  | Some d => Normal d
  | None => Throw URIError
  end.

(** ** The regular expression [/\/seller\/([^\/?#]+)/i] and the selector
    test [href*="/seller/"] *)

Fixpoint strip_prefix_ci (p s : jsstring) : option jsstring :=
  match p, s with
  | [], _ => Some s
  | a :: p', b :: s' =>
      if a =? ascii_lower b then strip_prefix_ci p' s' else None
  | _ :: _, [] => None
  end.

Definition is_segment_char (c : N) : bool :=
  negb ((c =? 47) || (c =? 63) || (c =? 35)).

Fixpoint take_segment (s : jsstring) : jsstring :=
  match s with
  | [] => []
  | c :: s' => if is_segment_char c then c :: take_segment s' else []
  end.

(** [href.match(...)]: the first capture group of the leftmost match. *)
Fixpoint match_seller_path (s : jsstring) : option jsstring :=
  match s with
  | [] => None
  | _ :: s' =>
      match strip_prefix_ci (js "/seller/") s with
      | Some r =>
          match take_segment r with
          | [] => match_seller_path s'
          | seg => Some seg
          end
      | None => match_seller_path s'
      end
  end.

Fixpoint contains (p s : jsstring) : bool :=
  match strip_prefix p s with
  | Some _ => true
  | None => match s with [] => false | _ :: s' => contains p s' end
  end.

(** ** The page *)

(** An element below a listing row, with what the selectors of
    [extractSellerFromRow] look at. *)
Record Element := mkElement {
  tag_a : bool;                 (* an [a] element *)
  in_seller_block : bool;       (* below an element of class [seller_block] *)
  class_show_shipping : bool;   (* has class [show-shipping-methods] *)
  el_attrs : gmap string jsstring;
  textContent : jsstring
}.

(** A [tr] element of the document. *)
Record Row := mkRow {
  is_listing : bool;
    (* matches [tr.shortcut_navigable, table.mpitems tr, #pjax_container tr] *)
  attrs : gmap string jsstring;
  display : jsstring;           (* [style.display] *)
  descendants : list Element    (* in document order *)
}.

Definition BLOCKED : string := "data-blocked-by-userscript".
Definition HIDDEN : string := "data-hidden-by-userscript".
Definition PROCESSED : string := "data-userscript-processed".

Definition hasAttribute (row : Row) (k : string) : bool :=
  bool_decide (is_Some (attrs row !! k)).

Definition setAttribute (row : Row) (k : string) (v : jsstring) : Row :=
  mkRow (is_listing row) (<[k:=v]> (attrs row)) (display row)
        (descendants row).

Definition removeAttribute (row : Row) (k : string) : Row :=
  mkRow (is_listing row) (delete k (attrs row)) (display row)
        (descendants row).

Definition set_display (row : Row) (v : jsstring) : Row :=
  mkRow (is_listing row) (attrs row) v (descendants row).

(** The three row flags. *)
Definition blocked (row : Row) : bool :=
  bool_decide (attrs row !! BLOCKED = Some (js "true")).
Definition hidden (row : Row) : bool := hasAttribute row HIDDEN.
Definition processed (row : Row) : bool := hasAttribute row PROCESSED.

(** [localStorage]: reading and writing throw when storage is not
    accessible, writing throws when the quota would be exceeded. *)
Record Storage := mkStorage {
  accessible : bool;
  quota : nat;
  items : gmap jsstring jsstring
}.

Definition used (m : gmap jsstring jsstring) : nat :=
  map_fold (λ k v n, (n + length k + length v)%nat) 0%nat m.

Definition getItem (st : Storage) (k : jsstring)
  : completion (option jsstring) :=
  if accessible st then Normal (items st !! k) else Throw SecurityError.

Definition setItem (st : Storage) (k v : jsstring) : completion Storage :=
  if accessible st then
    let items' := <[k:=v]> (items st) in
    if bool_decide (used items' ≤ quota st)%nat
    then Normal (mkStorage true (quota st) items')
    else Throw QuotaExceededError
  else Throw SecurityError.

(** The label and the show/hide button; [label_count] is the number in the
    label text. *)
Record Control := mkControl {
  label_count : nat;
  btn_display : jsstring;
  btn_text : jsstring;
  btn_pressed : jsstring
}.

(** ** JavaScript [Set], as the list of its elements in insertion order *)

Definition Set_add (s : list jsstring) (x : jsstring) : list jsstring :=
  if bool_decide (x ∈ s) then s else s ++ [x].

Definition new_Set (l : list jsstring) : list jsstring :=
  foldl Set_add [] l.

Definition Set_has (s : list jsstring) (x : jsstring) : bool :=
  bool_decide (x ∈ s).

(** The script's variables and the part of the document it touches. *)
Record Page := mkPage {
  trs : list Row;               (* every [tr], in document order *)
  localStorage : Storage;
  blockedSet : list jsstring;
  currentlyShowingHidden : bool;
  control : option Control;     (* [None]: the control bar is not in the page *)
  modal_display : jsstring
}.

(** ** The script, part 2 *)

Definition DEFAULT_BLOCKLIST : list jsstring :=
  [js "KUPIKU-COM"; js "KUPIKU-US"; js "KUPIKU-EU"; js "ongaku_express";
   js "justicker"; js "magius"].

Definition STORAGE_KEY : jsstring := js "discogsBlockedSellers".

(** [typeof v === 'string' && v.trim() !== ''] *)
Definition is_nonblank_string (v : json) : bool :=
  match v with
  | JString s => truthy (trim s)
  | _ => false
  end.

(** [v.trim()]: a method of strings only. *)
Definition trim_method (v : json) : completion jsstring :=
  match v with
  | JString s => Normal (trim s)
  | _ => Throw TypeError
  end.

(** The body of the [try] block of [loadBlockedList]; [None] stands for
    [Array.from(DEFAULT_BLOCKLIST)]. *)
Definition loadBlockedList_try (st : Storage)
  : completion (option (list jsstring)) :=
  cbind (getItem st STORAGE_KEY) (λ raw,
    match raw with
    | None => Normal None
    | Some raw =>
        if negb (truthy raw) then Normal None
        else
          cbind (JSON_parse raw) (λ parsed,
            match parsed with
            | JArray items =>
                cbind (map_throwing trim_method
                         (List.filter is_nonblank_string items))
                      (λ l, Normal (Some l))
            | _ => Normal None
            end)
    end).

Definition loadBlockedList (st : Storage) : list jsstring :=
  match loadBlockedList_try st with
  | Normal (Some l) => l
  | Normal None => DEFAULT_BLOCKLIST
  | Throw _ => DEFAULT_BLOCKLIST
  end.

(** The same function with arrays as objects in a heap, [Array.from],
    [filter] and [map] allocating their result. *)
Abbreviation heap := (list (list jsstring)).

Definition alloc (h : heap) (a : list jsstring) : nat * heap :=
  (length h, h ++ [a]).

Definition Array_from (h : heap) (ref : nat) : nat * heap :=
  alloc h (default [] (h !! ref)).

Definition loadBlockedList_ref (default_ref : nat) (st : Storage) (h : heap)
  : nat * heap :=
  match loadBlockedList_try st with
  | Normal (Some l) => alloc h l
  | Normal None => Array_from h default_ref
  | Throw _ => Array_from h default_ref
  end.

(** [unique] in [saveBlockedList]. *)
Definition unique_entries (entries : list jsstring) : list jsstring :=
  new_Set (List.filter truthy ((λ x, trim (or_empty x)) <$> entries)).

Definition saveBlockedList (st : Storage) (entries : list jsstring)
  : bool * Storage :=
  let unique := unique_entries entries in
  match setItem st STORAGE_KEY (JSON_stringify unique) with
  | Normal st' => (true, st')
  | Throw _ => (false, st)
  end.

(** *** Seller extraction *)

Definition querySelector (sel : Element → bool) (row : Row) : option Element :=
  List.find sel (descendants row).

(** [a[href*="/seller/"]] *)
Definition sel_seller_anchor (e : Element) : bool :=
  tag_a e &&
  match el_attrs e !! "href"%string with
  | Some h => contains (js "/seller/") h
  | None => false
  end.

(** [.seller_block a[href*="/seller/"]] *)
Definition sel_seller_link (e : Element) : bool :=
  in_seller_block e && sel_seller_anchor e.

(** [.show-shipping-methods[data-seller-username]] *)
Definition sel_shipping_btn (e : Element) : bool :=
  class_show_shipping e &&
  bool_decide (is_Some (el_attrs e !! "data-seller-username"%string)).

(** [[data-username]] *)
Definition sel_data_username (e : Element) : bool :=
  bool_decide (is_Some (el_attrs e !! "data-username"%string)).

(** [e.textContent && e.textContent.trim()] *)
Definition trimmed_text (e : Element) : jsstring :=
  if truthy (textContent e) then trim (textContent e) else textContent e.

(** The seller named by the [href] of [e]: the match of the regular
    expression on [getAttribute('href') || ''], its group decoded.
    [Normal None] when there is no match. *)
Definition href_seller (e : Element) : completion (option jsstring) :=
  let href := default [] (el_attrs e !! "href"%string) in
  match match_seller_path href with
  | Some seg => cbind (decodeURIComponent seg) (λ d, Normal (Some d))
  | None => Normal None
  end.

(** A truthy attribute value. *)
Definition attr_seller (e : Element) (k : string) : option jsstring :=
  match el_attrs e !! k with
  | Some v => if truthy v then Some v else None
  | None => None
  end.

(** Run [next] when [m] returned nothing. *)
Definition or_else (m next : completion (option jsstring))
  : completion (option jsstring) :=
  match m with
  | Normal None => next
  | _ => m
  end.

Definition strategy1 (row : Row) : completion (option jsstring) :=
  match querySelector sel_seller_link row with
  | Some sellerLink =>
      let text := trimmed_text sellerLink in
      if truthy text then Normal (Some text) else href_seller sellerLink
  | None => Normal None
  end.

Definition strategy2 (row : Row) : completion (option jsstring) :=
  match querySelector sel_shipping_btn row with
  | Some shippingBtn => Normal (attr_seller shippingBtn "data-seller-username")
  | None => Normal None
  end.

Definition strategy3 (row : Row) : completion (option jsstring) :=
  match querySelector sel_data_username row with
  | Some mywants => Normal (attr_seller mywants "data-username")
  | None => Normal None
  end.

Definition strategy4 (row : Row) : completion (option jsstring) :=
  match querySelector sel_seller_anchor row with
  | Some anySellerAnchor =>
      or_else (href_seller anySellerAnchor)
        (let text := trimmed_text anySellerAnchor in
         Normal (if truthy text then Some text else None))
  | None => Normal None
  end.

(** [extractSellerFromRow(row)] for a row of the page; [None] is [null]. *)
Definition extractSellerFromRow (row : Row) : completion (option jsstring) :=
  or_else (strategy1 row)
    (or_else (strategy2 row)
       (or_else (strategy3 row) (strategy4 row))).

(** *** Row markers *)

Definition hideRow (row : Row) : Row :=
  setAttribute
    (setAttribute (set_display row (js "none")) BLOCKED (js "true"))
    HIDDEN (js "true").

Definition unhideRow (row : Row) : Row :=
  removeAttribute (set_display row []) HIDDEN.

(** [nodes.forEach(f)] over the rows selected by [sel], for a callback that
    changes its row and may throw: a throw ends the loop. *)
Fixpoint forEach_rows (sel : Row → bool) (f : Row → Row * completion unit)
    (rows : list Row) : list Row * completion unit :=
  match rows with
  | [] => ([], Normal ())
  | r :: rest =>
      if sel r then
        let '(r', c) := f r in
        match c with
        | Normal _ =>
            let '(rest', c') := forEach_rows sel f rest in (r' :: rest', c')
        | Throw e => (r' :: rest, Throw e)
        end
      else
        let '(rest', c') := forEach_rows sel f rest in (r :: rest', c')
  end.

(** The same for a callback that cannot throw. *)
Definition update_rows (sel : Row → bool) (f : Row → Row) (rows : list Row)
  : list Row :=
  (λ r, if sel r then f r else r) <$> rows.

Definition set_trs (pg : Page) (rows : list Row) : Page :=
  mkPage rows (localStorage pg) (blockedSet pg) (currentlyShowingHidden pg)
         (control pg) (modal_display pg).

Definition set_blockedSet (pg : Page) (bs : list jsstring) : Page :=
  mkPage (trs pg) (localStorage pg) bs (currentlyShowingHidden pg)
         (control pg) (modal_display pg).

Definition set_showing (pg : Page) (b : bool) : Page :=
  mkPage (trs pg) (localStorage pg) (blockedSet pg) b
         (control pg) (modal_display pg).

Definition set_control (pg : Page) (c : option Control) : Page :=
  mkPage (trs pg) (localStorage pg) (blockedSet pg)
         (currentlyShowingHidden pg) c (modal_display pg).

Definition set_localStorage (pg : Page) (st : Storage) : Page :=
  mkPage (trs pg) st (blockedSet pg) (currentlyShowingHidden pg)
         (control pg) (modal_display pg).

Definition set_modal_display (pg : Page) (v : jsstring) : Page :=
  mkPage (trs pg) (localStorage pg) (blockedSet pg)
         (currentlyShowingHidden pg) (control pg) v.

Definition countBlockedRows (pg : Page) : nat :=
  length (List.filter blocked (trs pg)).

Definition updateControlUI (pg : Page) : Page :=
  match control pg with
  | None => pg
  | Some c =>
      let n := countBlockedRows pg in
      let showing := currentlyShowingHidden pg in
      set_control pg (Some
        (if (n =? 0)%nat then
           mkControl n (js "none") (btn_text c) (js "false")
         else
           mkControl n []
             (if showing then js "Hide hidden" else js "Show hidden")
             (if showing then js "true" else js "false")))
  end.

(** The callback of [blockedRows.forEach] in [toggleHiddenRows]. *)
Definition toggle_row (show : bool) (r : Row) : Row :=
  if show then unhideRow r
  else setAttribute (set_display r (js "none")) HIDDEN (js "true").

Definition toggleHiddenRows (show : bool) (pg : Page) : Page :=
  let rows := update_rows blocked (toggle_row show) (trs pg) in
  updateControlUI (set_showing (set_trs pg rows) show).

(** [split(/\r?\n/)] and [split(',')] *)
Fixpoint split_lines (s : jsstring) : list jsstring :=
  match s with
  | [] => [[]]
  | c :: s' =>
      let cont rest :=
        match rest with
        | l :: ls => (c :: l) :: ls
        | [] => [[c]]
        end in
      if c =? 10 then [] :: split_lines s'
      else if c =? 13 then
        match s' with
        | d :: s'' => if d =? 10 then [] :: split_lines s''
                      else cont (split_lines s')
        | [] => cont (split_lines s')
        end
      else cont (split_lines s')
  end.

Fixpoint split_on (sep : N) (s : jsstring) : list jsstring :=
  match s with
  | [] => [[]]
  | c :: s' =>
      if c =? sep then [] :: split_on sep s'
      else
        match split_on sep s' with
        | l :: ls => (c :: l) :: ls
        | [] => [[c]]
        end
  end.

(** [flattened] in the click handler of the Save button. *)
Definition flattened_entries (value : jsstring) : list jsstring :=
  let raw := or_empty value in
  let lines := List.filter truthy (trim <$> split_lines raw) in
  lines ≫= (λ l, List.filter truthy (trim <$> split_on 44 l)).

Inductive click_result :=
| Declined                        (* the confirmation was refused *)
| SaveFailed                      (* the alert was shown *)
| Applied (c : completion unit).  (* markers reset, [processListings] run *)

(** The markers the click handler removes before it re-runs the scan. *)
Definition unblock_row (r : Row) : Row :=
  set_display (removeAttribute (removeAttribute r BLOCKED) HIDDEN) [].

Definition clear_markers (rows : list Row) : list Row :=
  update_rows processed (λ r, removeAttribute r PROCESSED)
    (update_rows blocked unblock_row rows).

Section Script.

Variable toLowerCase : jsstring → jsstring.

Definition buildBlockedSetFromSaved (st : Storage) : list jsstring :=
  let arr := loadBlockedList st in
  new_Set ((λ x, canon toLowerCase (Some x)) <$> arr).

(** The callback of [rows.forEach] in [processListings]. *)
Definition process_row (bs : list jsstring) (row : Row)
  : Row * completion unit :=
  if hasAttribute row PROCESSED then (row, Normal ())
  else
    let row := setAttribute row PROCESSED (js "true") in
    match extractSellerFromRow row with
    | Throw e => (row, Throw e)
    | Normal None => (row, Normal ())
    | Normal (Some sellerRaw) =>
        if negb (truthy sellerRaw) then (row, Normal ())
        else
          let sellerCanon := canon toLowerCase (Some sellerRaw) in
          if Set_has bs sellerCanon then (hideRow row, Normal ())
          else (row, Normal ())
    end.

Definition processListings (pg : Page) : Page * completion unit :=
  let pg := set_blockedSet pg (buildBlockedSetFromSaved (localStorage pg)) in
  let '(rows, c) :=
    forEach_rows is_listing (process_row (blockedSet pg)) (trs pg) in
  match c with
  | Normal _ => (updateControlUI (set_trs pg rows), Normal ())
  | Throw e => (set_trs pg rows, Throw e)
  end.

(** The click handler of the Save button; [value] is the text of the
    textarea, [confirm] the answer the user gives if asked. *)
Definition saveBtn_click (value : jsstring) (confirm : bool) (pg : Page)
  : Page * click_result :=
  let flattened := flattened_entries value in
  if bool_decide (flattened = []) && negb confirm then (pg, Declined)
  else
    let '(saved, st) := saveBlockedList (localStorage pg) flattened in
    if saved then
      let pg := set_localStorage pg st in
      let pg := set_trs pg (clear_markers (trs pg)) in
      let pg := set_showing pg false in
      let '(pg, c) := processListings pg in
      match c with
      | Normal _ => (set_modal_display pg (js "none"), Applied c)
      | Throw _ => (pg, Applied c)
      end
    else (pg, SaveFailed).

End Script.

(** ** Vocabulary of the statements *)

(** No white space in front. *)
Definition starts_clean (s : jsstring) : Prop :=
  match s with
  | [] => True
  | c :: _ => is_white_space c = false
  end.

(** The strings of a parsed array that are not blank, trimmed. *)
Definition nonblank_trimmed (items : list json) : list jsstring :=
  omap (λ v, match v with
             | JString s => if truthy (trim s) then Some (trim s) else None
             | _ => None
             end) items.

Definition is_array (v : json) : Prop :=
  match v with
  | JArray _ => True
  | _ => False
  end.

Definition is_string (v : json) : Prop :=
  match v with
  | JString _ => True
  | _ => False
  end.

(** Deduplication in first-seen order: the head is kept, its later copies
    are dropped. *)
Fixpoint first_seen (l : list jsstring) : list jsstring :=
  match l with
  | [] => []
  | x :: l' => x :: filter (λ y, y ≠ x) (first_seen l')
  end.

(** The scan gets as far as the row at position [i]: no listing row before
    it, not yet processed, makes the extraction throw. *)
Definition reaches (pg : Page) (i : nat) : Prop :=
  ∀ j r, (j < i)%nat → trs pg !! j = Some r →
    is_listing r = true → processed r = false →
    ∃ o, extractSellerFromRow r = Normal o.

(** Every row with the hidden marker has the blocked marker: so it is on a
    page whose markers are the script's own. *)
Definition hidden_are_blocked (rows : list Row) : Prop :=
  Forall (λ r, hidden r = true → blocked r = true) rows.

(** No marker at all. *)
Definition unmarked (r : Row) : Prop :=
  blocked r = false ∧ hidden r = false ∧ processed r = false.

(** ** Sample inputs *)

(** Storage with nothing persisted, and storage that cannot be written. *)
Definition empty_storage : Storage := mkStorage true 5000 ∅.
Definition full_storage : Storage := mkStorage true 0 ∅.

(** A persisted list that is not entirely made of strings. *)
Definition mixed_list_storage : Storage :=
  mkStorage true 5000 {[STORAGE_KEY := jsq "[1,' x ']"]}.

(** A listing row whose seller is named by a [data-username] attribute. *)
Definition seller_row (name : jsstring) : Row :=
  mkRow true ∅ []
        [mkElement false false false {["data-username"%string := name]} []].

(** A listing row whose only seller link has no text and a malformed
    escape in its address. *)
Definition malformed_row : Row :=
  mkRow true ∅ []
        [mkElement true false false {["href"%string := js "/seller/%"]} []].

Definition sample_page : Page :=
  mkPage [seller_row (js "someone"); seller_row (js "Justicker");
          mkRow true ∅ [] []]
         empty_storage [] false None [].

Definition cut_short_page : Page :=
  mkPage [malformed_row; seller_row (js "Justicker")]
         empty_storage [] false None [].

Definition blocked_page : Page :=
  mkPage [mkRow true {[BLOCKED := js "true"; HIDDEN := js "true";
                       PROCESSED := js "true"]} (js "none") [];
          seller_row (js "Justicker")]
         empty_storage [] false None [].

(** Unfolding the row operations and looking attributes up. *)
Ltac row_simpl :=
  unfold toggle_row, unblock_row, blocked, hidden, processed, hasAttribute,
    hideRow, unhideRow, setAttribute, removeAttribute, set_display,
    BLOCKED, HIDDEN, PROCESSED in *;
  simpl in *;
  repeat first
    [ rewrite lookup_insert_eq
    | rewrite lookup_delete_eq
    | rewrite lookup_insert_ne by done
    | rewrite lookup_delete_ne by done ].

(** ** The script, part 3: control bar, dialog and start-up *)

(** [createControlUI]: nothing when the bar is there already; the new label
    reads 0 and the button is shown. *)
Definition createControlUI (pg : Page) : Page :=
  match control pg with
  | Some _ => pg
  | None =>
      set_control pg (Some (mkControl 0 [] (js "Show hidden") (js "false")))
  end.

(** The click handler of the show/hide button. *)
Definition toggleBtn_click (pg : Page) : Page :=
  toggleHiddenRows (negb (currentlyShowingHidden pg)) pg.

(** [Array.prototype.join(sep)] on an array of strings. *)
Fixpoint join (sep : jsstring) (l : list jsstring) : jsstring :=
  match l with
  | [] => []
  | [x] => x
  | x :: l' => x ++ sep ++ join sep l'
  end.

(** What a textarea gives back when its [value] is read after a string was
    assigned to it: every CR LF and every other CR has become LF. *)
Fixpoint normalize_newlines (s : jsstring) : jsstring :=
  match s with
  | [] => []
  | c :: s' =>
      if c =? 13 then
        match s' with
        | d :: s'' =>
            if d =? 10 then 10 :: normalize_newlines s''
            else 10 :: normalize_newlines s'
        | [] => [10]
        end
      else c :: normalize_newlines s'
  end.

(** The page together with the text of the dialog's textarea, as reading
    [textarea.value] gives it; [None] while the dialog has not been built. *)
Record Ui := mkUi {
  ui_page : Page;
  textarea_value : option jsstring
}.

(** [openOptionsDialog]: a dialog that exists is shown again as it was left;
    a new one starts with the stored list, one entry per line. *)
Definition openOptionsDialog (ui : Ui) : Ui :=
  match textarea_value ui with
  | Some v => mkUi (set_modal_display (ui_page ui) (js "flex")) (Some v)
  | None =>
      let current := loadBlockedList (localStorage (ui_page ui)) in
      mkUi (set_modal_display (ui_page ui) (js "flex"))
           (Some (normalize_newlines (join [10] current)))
  end.

(** The click handlers of the Reset and Cancel buttons. *)
Definition resetBtn_click (ui : Ui) : Ui :=
  mkUi (ui_page ui) (Some (normalize_newlines (join [10] DEFAULT_BLOCKLIST))).

Definition cancelBtn_click (ui : Ui) : Ui :=
  mkUi (set_modal_display (ui_page ui) (js "none")) (textarea_value ui).

Section Startup.

Variable toLowerCase : jsstring → jsstring.

(** [init], without the registration of the observer. *)
Definition init (pg : Page) : Page * completion unit :=
  processListings toLowerCase (createControlUI pg).

(** The listing rows the scan blocks on a page without markers. *)
Definition seller_blocked (bs : list jsstring) (r : Row) : bool :=
  is_listing r &&
  match extractSellerFromRow r with
  | Normal (Some raw) => Set_has bs (canon toLowerCase (Some raw))
  | _ => false
  end.

End Startup.

(** ** Further vocabulary *)

(** The markers of a row as the script leaves them: a blocked row has been
    processed; a hidden row is blocked and not displayed; a blocked row that
    is not hidden has its display reset. *)
Definition script_markers (r : Row) : Prop :=
  (blocked r = true → processed r = true)
  ∧ (hidden r = true → blocked r = true ∧ display r = js "none")
  ∧ (blocked r = true → hidden r = false → display r = []).

(** The control bar, when there is one, tells the state of the rows. *)
Definition control_consistent (pg : Page) : Prop :=
  ∀ c, control pg = Some c →
    label_count c = countBlockedRows pg
    ∧ (btn_display c = js "none" ↔ countBlockedRows pg = 0%nat)
    ∧ (countBlockedRows pg ≠ 0%nat →
         btn_text c = (if currentlyShowingHidden pg
                       then js "Hide hidden" else js "Show hidden")).

(** An entry that survives a line of the textarea as it is. *)
Definition line_safe (e : jsstring) : Prop :=
  e ≠ [] ∧ trim e = e ∧ (10 ∉ e) ∧ (44 ∉ e).

(** An entry that survives the textarea as it is: no carriage return
    either. *)
Definition textarea_safe (e : jsstring) : Prop := line_safe e ∧ (13 ∉ e).

(** Upper-casing of one ASCII code unit. *)
Definition ascii_upper (c : N) : N :=
  if (97 <=? c) && (c <=? 122) then c - 32 else c.

(** ** The script, part 4: the observer *)

Inductive mutation_type := childList | attributes | characterData.

(** A [MutationRecord], with what the callback reads of it. *)
Record MutationRecord := mkMutationRecord {
  m_type : mutation_type;
  addedNodes_length : nat
}.

(** The loop over the records of one batch; [true] is the [break]. *)
Fixpoint relevant (mutations : list MutationRecord) : bool :=
  match mutations with
  | [] => false
  | m :: rest =>
      match m_type m with
      | childList =>
          if (0 <? addedNodes_length m)%nat then true else relevant rest
      | _ => relevant rest
      end
  end.

(** The callback of the observer; the state is the number of timers that
    [setTimeout] has set and that have not fired. *)
Definition observer_callback (mutations : list MutationRecord) (timers : nat)
  : nat :=
  if relevant mutations then S timers else timers.

Section Timers.

Variable toLowerCase : jsstring → jsstring.

(** [n] timers fire one after the other on a page that nothing else
    changes: each runs [processListings], and what a scan throws ends that
    scan only. *)
Fixpoint passes (n : nat) (pg : Page) : Page :=
  match n with
  | O => pg
  | S n' => passes n' (processListings toLowerCase pg).1
  end.

End Timers.

(** The number of listing rows a scan has still to look at. *)
Definition unprocessed_listings (pg : Page) : nat :=
  length (List.filter (λ r, is_listing r && negb (processed r)) (trs pg)).

(** A stored list that spells the default sellers otherwise, in another
    order and with a repetition. *)
Definition respelled_storage : Storage :=
  mkStorage true 5000
    {[STORAGE_KEY :=
        jsq "['JUSTICKER','magius','Kupiku.Com','kupiku_us','kupiku eu','Ongaku-Express','justicker']"]}.

(** A stored list whose only entry has neither letter nor digit. *)
Definition symbols_storage : Storage :=
  mkStorage true 5000 {[STORAGE_KEY := jsq "['-.-']"]}.

(** A listing row with a seller link whose address needs no decoding. *)
Definition linked_row : Row :=
  mkRow true ∅ []
        [mkElement true false false {["href"%string := js "/seller/abc"]} []].

(** * Properties *)

(** ** Strings *)

Lemma trim_start_clean s : starts_clean (trim_start s).
Proof.
  induction s as [|c s IH]; simpl; [done|].
  destruct (is_white_space c) eqn:E; [done|]. simpl. done.
Qed.

Lemma trim_start_id s : starts_clean s → trim_start s = s.
Proof. destruct s as [|c s]; simpl; [done|]. by intros ->. Qed.

Lemma trim_start_suffix s : trim_start s `suffix_of` s.
Proof.
  induction s as [|c s IH]; simpl; [done|].
  destruct (is_white_space c); [by apply suffix_cons_r | done].
Qed.

Lemma starts_clean_app_l a b : starts_clean (a ++ b) → starts_clean a.
Proof. by destruct a. Qed.

Lemma trim_clean s : starts_clean (trim s) ∧ starts_clean (reverse (trim s)).
Proof.
  unfold trim. rewrite reverse_involutive. split; [|apply trim_start_clean].
  destruct (trim_start_suffix (reverse (trim_start s))) as [k Hk].
  apply (f_equal reverse) in Hk.
  rewrite reverse_involutive, reverse_app in Hk.
  apply (starts_clean_app_l _ (reverse k)). rewrite <- Hk.
  apply trim_start_clean.
Qed.

Lemma trim_idemp s : trim (trim s) = trim s.
Proof.
  destruct (trim_clean s) as [H1 H2].
  unfold trim at 1.
  by rewrite (trim_start_id _ H1), (trim_start_id _ H2), reverse_involutive.
Qed.

Lemma truthy_nil (s : jsstring) : truthy s = false ↔ s = [].
Proof. by destruct s. Qed.

Lemma or_empty_id x : or_empty x = x.
Proof. by destruct x. Qed.

(** ** JSON *)

Lemma hex_val_hex_digit n : n < 16 → hex_val (hex_digit n) = Some n.
Proof.
  intros Hn. unfold hex_val, hex_digit, is_digit.
  destruct (n <? 10) eqn:E.
  - apply N.ltb_lt in E.
    replace ((48 <=? 48 + n) && (48 + n <=? 57)) with true
      by (symmetry; apply andb_true_iff; split; apply N.leb_le; lia).
    f_equal. lia.
  - apply N.ltb_ge in E.
    replace ((48 <=? 87 + n) && (87 + n <=? 57)) with false
      by (symmetry; apply andb_false_iff; right; apply N.leb_gt; lia).
    replace ((97 <=? 87 + n) && (87 + n <=? 102)) with true
      by (symmetry; apply andb_true_iff; split; apply N.leb_le; lia).
    f_equal. lia.
Qed.

Lemma hex4_unicode_escape c :
  c < 65536 →
  hex4 (hex_digit ((c / 4096) `mod` 16)) (hex_digit ((c / 256) `mod` 16))
       (hex_digit ((c / 16) `mod` 16)) (hex_digit (c `mod` 16)) = Some c.
Proof.
  intros Hc. unfold hex4.
  rewrite !hex_val_hex_digit by (apply N.mod_lt; lia). simpl.
  f_equal.
  assert (H1 : c / 16 / 16 = c / 256) by (by rewrite N.Div0.div_div).
  assert (H2 : c / 256 / 16 = c / 4096) by (by rewrite N.Div0.div_div).
  pose proof (N.div_mod c 16). pose proof (N.div_mod (c / 16) 16).
  pose proof (N.div_mod (c / 256) 16). pose proof (N.div_mod (c / 4096) 16).
  assert (c / 4096 < 16) by (apply N.Div0.div_lt_upper_bound; lia).
  rewrite (N.div_small (c / 4096) 16) in * by done.
  rewrite H1, H2 in *. lia.
Qed.

Lemma parse_plain c r :
  c ≠ 34 → c ≠ 92 → 32 ≤ c →
  parse_string_chars (c :: r) = prepend c (parse_string_chars r).
Proof.
  intros H1 H2 H3. simpl.
  destruct (N.eqb_spec c 34); [done|].
  destruct (N.eqb_spec c 92); [done|].
  destruct (N.ltb_spec c 32); [lia|done].
Qed.

Lemma parse_escape2 e u r :
  unescape e = Some u → e ≠ 117 →
  parse_string_chars (92 :: e :: r) = prepend u (parse_string_chars r).
Proof.
  intros Hu He. cbn -[unescape].
  destruct (N.eqb_spec e 117); [done|]. by rewrite Hu.
Qed.

Lemma parse_unicode_escape c r :
  c < 65536 →
  parse_string_chars (unicode_escape c ++ r) = prepend c (parse_string_chars r).
Proof.
  intros Hc. unfold unicode_escape. cbn -[hex4 hex_digit N.div N.modulo].
  by rewrite hex4_unicode_escape.
Qed.

(** Reading back what [quote_chars] wrote gives the string. *)
Lemma parse_quote_chars_bounded n : ∀ s rest,
  (length s ≤ n)%nat →
  parse_string_chars (quote_chars s ++ 34 :: rest) = Some (s, rest).
Proof.
  induction n as [|n IH]; intros s rest Hn.
  { destruct s; [done | simpl in Hn; lia]. }
  destruct s as [|c s]; [done|].
  assert (Hs : parse_string_chars (quote_chars s ++ 34 :: rest) = Some (s, rest))
    by (apply IH; simpl in Hn; lia).
  cbn [quote_chars].
  repeat match goal with
  | |- context [if ?x =? ?k then _ else _] =>
      destruct (N.eqb_spec x k) as [->|?];
      [ cbn [app]; erewrite parse_escape2 by (reflexivity || done);
        by rewrite Hs |]
  end.
  destruct (N.ltb_spec c 32).
  { rewrite <- app_assoc, parse_unicode_escape by lia. by rewrite Hs. }
  destruct (is_high_surrogate c) eqn:Eh.
  { unfold is_high_surrogate in Eh.
    apply andb_true_iff in Eh as [?%N.leb_le ?%N.leb_le].
    destruct s as [|d s].
    - cbn [app]. rewrite parse_unicode_escape by lia. done.
    - destruct (is_low_surrogate d) eqn:El.
      + unfold is_low_surrogate in El.
        apply andb_true_iff in El as [?%N.leb_le ?%N.leb_le].
        cbn [app]. rewrite !parse_plain by lia.
        rewrite IH by (simpl in Hn; lia). done.
      + rewrite <- app_assoc, parse_unicode_escape by lia. by rewrite Hs. }
  destruct (is_low_surrogate c) eqn:El.
  { unfold is_low_surrogate in El.
    apply andb_true_iff in El as [?%N.leb_le ?%N.leb_le].
    rewrite <- app_assoc, parse_unicode_escape by lia. by rewrite Hs. }
  cbn [app]. rewrite parse_plain by lia. by rewrite Hs.
Qed.

Lemma parse_quote_chars s rest :
  parse_string_chars (quote_chars s ++ 34 :: rest) = Some (s, rest).
Proof. by apply (parse_quote_chars_bounded (length s)). Qed.

Lemma parse_value_quote f x rest :
  (0 < f)%nat → parse_value f (quote x ++ rest) = Ok (JString x) rest.
Proof.
  destruct f as [|f]; [lia|intros _].
  unfold quote. cbn [app]. rewrite <- app_assoc. cbn.
  by rewrite parse_quote_chars.
Qed.

Lemma parse_elements_strings l : ∀ f rest,
  l ≠ [] → (length l < f)%nat →
  parse_elements f (stringify_elements l ++ 93 :: rest) = Ok (JString <$> l) rest.
Proof.
  induction l as [|x l IH]; intros f rest Hl Hf; [done|].
  destruct f as [|f]; [simpl in Hf; lia|].
  destruct l as [|y l].
  - cbn [stringify_elements parse_elements].
    rewrite parse_value_quote by (simpl in Hf; lia). reflexivity.
  - change (stringify_elements (x :: y :: l))
      with (quote x ++ 44 :: stringify_elements (y :: l)).
    rewrite <- app_assoc. cbn [parse_elements].
    rewrite parse_value_quote by (simpl in Hf; lia).
    cbn -[parse_elements stringify_elements].
    rewrite IH by (done || simpl in *; lia). reflexivity.
Qed.

Lemma stringify_elements_length l :
  (length l ≤ length (stringify_elements l))%nat.
Proof.
  induction l as [|x [|y l] IH]; [done | simpl; lia |].
  change (stringify_elements (x :: y :: l))
    with (quote x ++ 44 :: stringify_elements (y :: l)).
  rewrite length_app. simpl in *. lia.
Qed.

Lemma parse_value_array f d t :
  is_json_ws d = false → d ≠ 93 →
  parse_value (S f) (91 :: d :: t) =
  pbind (parse_elements f (d :: t)) (λ vs r, Ok (JArray vs) r).
Proof.
  intros Hd Hne. cbn. rewrite Hd.
  by destruct (N.eqb_spec d 93).
Qed.

(** What [JSON.stringify] writes for an array of strings, [JSON.parse]
    reads back as that array. *)
Lemma JSON_roundtrip (l : list jsstring) :
  JSON_parse (JSON_stringify l) = Normal (JArray (JString <$> l)).
Proof.
  unfold JSON_parse, JSON_stringify, parse_fuel.
  destruct l as [|x l]; [reflexivity|].
  set (body := stringify_elements (x :: l)).
  assert (Hhd : ∃ t, body = 34 :: t).
  { unfold body. destruct l; simpl; eauto. }
  destruct Hhd as [t Ht].
  assert (Hlen : (length (x :: l) ≤ length body)%nat)
    by apply stringify_elements_length.
  set (text := 91 :: body ++ [93]).
  assert (Hfuel : ∃ f, (2 * length text + 2)%nat = S f
                       ∧ (length (x :: l) < f)%nat).
  { exists (2 * length text + 1)%nat. split; [lia|].
    unfold text. simpl. rewrite length_app. simpl in *. lia. }
  destruct Hfuel as (f & -> & Hf). unfold text.
  rewrite Ht. cbn [app]. rewrite parse_value_array by done.
  change (34 :: t ++ [93]) with ((34 :: t) ++ [93]). rewrite <- Ht.
  unfold body. rewrite parse_elements_strings by done.
  reflexivity.
Qed.

(** *** The fuel of [JSON_parse] is enough *)

Lemma skip_ws_length s : (length (skip_ws s) ≤ length s)%nat.
Proof.
  induction s as [|c s IH]; simpl; [done|].
  destruct (is_json_ws c); simpl; lia.
Qed.

Lemma skip_ws_cons s c r :
  skip_ws s = c :: r → (length r < length s)%nat.
Proof. intros H. pose proof (skip_ws_length s) as Hl. rewrite H in Hl. simpl in Hl. lia. Qed.

Lemma prepend_Some c o str r :
  prepend c o = Some (str, r) → ∃ str', o = Some (str', r) ∧ str = c :: str'.
Proof. destruct o as [[??]|]; simpl; intros; simplify_eq; eauto. Qed.

Lemma parse_string_chars_length_bounded n : ∀ s str r,
  (length s ≤ n)%nat →
  parse_string_chars s = Some (str, r) → (length r < length s)%nat.
Proof.
  induction n as [|n IH]; intros s str r Hn H.
  { destruct s; [done | simpl in Hn; lia]. }
  destruct s as [|c s]; [done|]. simpl in Hn. simpl in H.
  repeat case_match; simplify_eq; simpl in *; try lia;
    match goal with
    | H : prepend _ _ = Some _ |- _ =>
        apply prepend_Some in H as (? & H & _); apply IH in H; simpl in *; lia
    end.
Qed.

Lemma parse_string_chars_length s str r :
  parse_string_chars s = Some (str, r) → (length r < length s)%nat.
Proof. by apply (parse_string_chars_length_bounded (length s)). Qed.

Lemma span_digits_length s ds r :
  span_digits s = (ds, r) → (length r ≤ length s)%nat.
Proof.
  revert ds r. induction s as [|c s IH]; intros ds r H; simpl in H.
  - by simplify_eq.
  - destruct (is_digit c); [|simplify_eq; done].
    destruct (span_digits s) as [ds' r'] eqn:E. simplify_eq.
    specialize (IH _ _ eq_refl). simpl. lia.
Qed.

Lemma scan_int_length s i r :
  scan_int s = Some (i, r) → (length r < length s)%nat.
Proof.
  destruct s as [|c s]; simpl; [done|].
  repeat case_match; intros; simplify_eq; simpl; try lia.
  match goal with H : span_digits _ = _ |- _ =>
    apply span_digits_length in H; lia end.
Qed.

Lemma scan_frac_length s f r :
  scan_frac s = Some (f, r) → (length r ≤ length s)%nat.
Proof.
  destruct s as [|c s]; simpl; [intros; simplify_eq; done|].
  repeat case_match; intros; simplify_eq; simpl; try lia;
  match goal with H : span_digits _ = _ |- _ =>
    apply span_digits_length in H; lia end.
Qed.

Lemma scan_exp_length s e r :
  scan_exp s = Some (e, r) → (length r ≤ length s)%nat.
Proof.
  destruct s as [|c s]; simpl; [intros; simplify_eq; done|].
  repeat case_match; intros; simplify_eq; simpl; try lia;
  match goal with H : span_digits _ = _ |- _ =>
    apply span_digits_length in H; simpl in *; lia end.
Qed.

Lemma scan_number_length s lex r :
  scan_number s = Some (lex, r) → (length r < length s)%nat.
Proof.
  unfold scan_number. intros H.
  destruct (match s with
            | [] => ([], [])
            | c :: s' => if c =? 45 then ([c], s') else ([], s)
            end) as [sign s1] eqn:E1.
  assert (length s1 ≤ length s)%nat.
  { destruct s as [|c s]; [simplify_eq/=; lia|].
    destruct (c =? 45); simplify_eq/=; lia. }
  destruct (scan_int s1) as [[i s2]|] eqn:E2; simpl in H; [|done].
  destruct (scan_frac s2) as [[f s3]|] eqn:E3; simpl in H; [|done].
  destruct (scan_exp s3) as [[e s4]|] eqn:E4; simpl in H; [|done].
  simplify_eq.
  apply scan_int_length in E2. apply scan_frac_length in E3.
  apply scan_exp_length in E4. lia.
Qed.

Lemma strip_prefix_length p : ∀ s r,
  strip_prefix p s = Some r → length s = (length p + length r)%nat.
Proof.
  induction p as [|a p IH]; intros s r H; simpl in H.
  - by simplify_eq.
  - destruct s as [|b s]; [done|]. destruct (a =? b); [|done].
    apply IH in H. simpl. lia.
Qed.

Lemma parse_word_length w v s v' r :
  w ≠ ""%string → parse_word w v s = Ok v' r → (length r < length s)%nat.
Proof.
  unfold parse_word. intros Hw H.
  destruct (strip_prefix (js w) s) eqn:E; [|done]. simplify_eq.
  apply strip_prefix_length in E. destruct w; [done|]. simpl in E. lia.
Qed.

Lemma pbind_Ok {A B} (m : parsed A) (k : A → jsstring → parsed B) b r :
  pbind m k = Ok b r → ∃ a r', m = Ok a r' ∧ k a r' = Ok b r.
Proof. destruct m; simpl; intros; simplify_eq; eauto. Qed.

(** Every successful parse consumes input. *)
Lemma parse_consumes fuel :
  (∀ s v r, parse_value fuel s = Ok v r → (length r < length s)%nat) ∧
  (∀ s vs r, parse_elements fuel s = Ok vs r → (length r < length s)%nat) ∧
  (∀ s ms r, parse_members fuel s = Ok ms r → (length r < length s)%nat).
Proof.
  induction fuel as [|fuel (IHv & IHe & IHm)]; [done|].
  split_and!; intros s ? r H; simpl in H.
  - destruct (skip_ws s) as [|c s'] eqn:Es; [done|].
    apply skip_ws_cons in Es.
    repeat case_match; simplify_eq;
      repeat match goal with
      | H : pbind _ _ = Ok _ _ |- _ => apply pbind_Ok in H as (? & ? & H & ?)
      | H : parse_string_chars _ = Some _ |- _ =>
          apply parse_string_chars_length in H
      | H : skip_ws _ = _ :: _ |- _ => apply skip_ws_cons in H
      | H : parse_elements fuel _ = Ok _ _ |- _ => apply IHe in H
      | H : parse_members fuel _ = Ok _ _ |- _ => apply IHm in H
      | H : parse_word _ _ _ = Ok _ _ |- _ =>
          apply parse_word_length in H; [|done]
      | H : scan_number _ = Some _ |- _ => apply scan_number_length in H
      end; simplify_eq; simpl in *; lia.
  - apply pbind_Ok in H as (v & r1 & Hv%IHv & H).
    destruct (skip_ws r1) as [|d r'] eqn:Es; [done|].
    apply skip_ws_cons in Es.
    repeat case_match; simplify_eq; try lia.
    apply pbind_Ok in H as (? & ? & H%IHe & ?). simplify_eq. lia.
  - destruct (skip_ws s) as [|q s1] eqn:Es; [done|].
    apply skip_ws_cons in Es.
    destruct (q =? 34); [|done].
    destruct (parse_string_chars s1) as [[k s2]|] eqn:Ek; [|done].
    apply parse_string_chars_length in Ek.
    destruct (skip_ws s2) as [|colon s3] eqn:Es2; [done|].
    apply skip_ws_cons in Es2.
    destruct (colon =? 58); [|done].
    apply pbind_Ok in H as (v & r1 & Hv%IHv & H).
    destruct (skip_ws r1) as [|d r'] eqn:Es3; [done|].
    apply skip_ws_cons in Es3.
    repeat case_match; simplify_eq; try lia.
    apply pbind_Ok in H as (? & ? & H%IHm & ?). simplify_eq. lia.
Qed.

Lemma pbind_fuel {A B} (m : parsed A) (k : A → jsstring → parsed B) :
  m ≠ OutOfFuel → (∀ a r, m = Ok a r → k a r ≠ OutOfFuel) →
  pbind m k ≠ OutOfFuel.
Proof. destruct m; simpl; eauto. Qed.

Lemma parse_fuel_enough fuel :
  (∀ s, (2 * length s < fuel)%nat → parse_value fuel s ≠ OutOfFuel) ∧
  (∀ s, (2 * length s + 1 < fuel)%nat → parse_elements fuel s ≠ OutOfFuel) ∧
  (∀ s, (2 * length s + 1 < fuel)%nat → parse_members fuel s ≠ OutOfFuel).
Proof.
  induction fuel as [|fuel (IHv & IHe & IHm)]; [split_and!; intros; lia|].
  split_and!; intros s Hf; simpl.
  - destruct (skip_ws s) as [|c s'] eqn:Es; [done|].
    apply skip_ws_cons in Es. unfold parse_word.
    repeat case_match; try done;
      apply pbind_fuel; try done; (apply IHe || apply IHm); lia.
  - apply pbind_fuel; [apply IHv; lia|].
    intros v r1 Hv. destruct (parse_consumes fuel) as (Hc & _ & _).
    apply Hc in Hv.
    destruct (skip_ws r1) as [|d r'] eqn:Es; [done|].
    apply skip_ws_cons in Es.
    repeat case_match; try done.
    apply pbind_fuel; [apply IHe; lia | done].
  - destruct (skip_ws s) as [|q s1] eqn:Es; [done|].
    apply skip_ws_cons in Es.
    destruct (q =? 34); [|done].
    destruct (parse_string_chars s1) as [[k s2]|] eqn:Ek; [|done].
    apply parse_string_chars_length in Ek.
    destruct (skip_ws s2) as [|colon s3] eqn:Es2; [done|].
    apply skip_ws_cons in Es2.
    destruct (colon =? 58); [|done].
    apply pbind_fuel; [apply IHv; lia|].
    intros v r1 Hv. destruct (parse_consumes fuel) as (Hc & _ & _).
    apply Hc in Hv.
    destruct (skip_ws r1) as [|d r'] eqn:Es3; [done|].
    apply skip_ws_cons in Es3.
    repeat case_match; try done.
    apply pbind_fuel; [apply IHm; lia | done].
Qed.

(** [JSON_parse] never stops for lack of fuel: it throws only on a text
    that is not JSON. *)
Lemma JSON_parse_fuel text :
  parse_value (parse_fuel text) text ≠ OutOfFuel.
Proof.
  destruct (parse_fuel_enough (parse_fuel text)) as (H & _ & _).
  apply H. unfold parse_fuel. lia.
Qed.

Lemma JSON_parse_Throw text e :
  JSON_parse text = Throw e →
  e = SyntaxError
  ∧ (parse_value (parse_fuel text) text = Bad
     ∨ ∃ v r c r', parse_value (parse_fuel text) text = Ok v r
                   ∧ skip_ws r = c :: r').
Proof.
  unfold JSON_parse. pose proof (JSON_parse_fuel text) as Hf.
  destruct (parse_value (parse_fuel text) text) as [v r| |]; [| |done].
  - destruct (skip_ws r) as [|c r'] eqn:Es; [done|]. intros [= <-].
    split; [done|]. right. by exists v, r, c, r'.
  - intros [= <-]. by split; [|left].
Qed.

(** ** The blocklist store *)

Lemma foldl_Set_add l : ∀ acc,
  foldl Set_add acc l = acc ++ filter (λ x, x ∉ acc) (first_seen l).
Proof.
  induction l as [|x l IH]; intros acc; simpl.
  { by rewrite app_nil_r. }
  rewrite IH. unfold Set_add. rewrite filter_cons.
  case_bool_decide as Hx.
  - rewrite decide_False by (intros H; by apply H).
    f_equal. rewrite list_filter_filter. apply list_filter_iff.
    intros y. naive_solver.
  - rewrite decide_True by done.
    rewrite <- app_assoc. simpl. do 2 f_equal.
    rewrite list_filter_filter. apply list_filter_iff.
    intros y. rewrite elem_of_app, list_elem_of_singleton. naive_solver.
Qed.

Lemma filter_all {A} (P : A → Prop) `{∀ x, Decision (P x)} (l : list A) :
  (∀ x, P x) → filter P l = l.
Proof.
  intros HP. induction l as [|x l IH]; [done|].
  rewrite filter_cons_True by done. by rewrite IH.
Qed.

(** [new Set(l)] lists [l] without its repetitions, in first-seen order. *)
Lemma new_Set_first_seen l : new_Set l = first_seen l.
Proof.
  unfold new_Set. rewrite foldl_Set_add. simpl.
  apply filter_all. intros y. apply not_elem_of_nil.
Qed.

Lemma elem_of_first_seen x l : x ∈ first_seen l ↔ x ∈ l.
Proof.
  induction l as [|y l IH]; simpl; [done|].
  rewrite !elem_of_cons, list_elem_of_filter, IH.
  destruct (decide (x = y)); naive_solver.
Qed.

Lemma NoDup_first_seen l : NoDup (first_seen l).
Proof.
  induction l as [|y l IH]; simpl; [constructor|].
  constructor; [|by apply NoDup_filter].
  rewrite list_elem_of_filter. naive_solver.
Qed.

Lemma Set_has_new_Set l x : Set_has (new_Set l) x = true ↔ x ∈ l.
Proof.
  unfold Set_has. rewrite bool_decide_eq_true, new_Set_first_seen.
  apply elem_of_first_seen.
Qed.

Lemma elem_of_List_filter {A} (f : A → bool) l x :
  x ∈ List.filter f l ↔ x ∈ l ∧ f x = true.
Proof. rewrite !list_elem_of_In. apply filter_In. Qed.

Lemma elem_of_unique_entries x entries :
  x ∈ unique_entries entries ↔ x ≠ [] ∧ ∃ e, e ∈ entries ∧ x = trim e.
Proof.
  unfold unique_entries.
  rewrite new_Set_first_seen, elem_of_first_seen, elem_of_List_filter.
  rewrite list_elem_of_fmap. setoid_rewrite or_empty_id.
  destruct x; simpl; naive_solver.
Qed.

Lemma unique_entries_trimmed x entries :
  x ∈ unique_entries entries → truthy (trim x) = true ∧ trim x = x.
Proof.
  rewrite elem_of_unique_entries. intros (Hx & e & _ & ->).
  rewrite trim_idemp. split; [|done]. by destruct (trim e).
Qed.

Lemma map_throwing_nonblank items :
  map_throwing trim_method (List.filter is_nonblank_string items)
  = Normal (nonblank_trimmed items).
Proof.
  induction items as [|v items IH]; [done|].
  simpl. unfold nonblank_trimmed in *.
  destruct v; simpl; try done.
  destruct (truthy (trim s)); simpl; [|done]. by rewrite IH.
Qed.

Lemma nonblank_trimmed_strings l :
  (∀ x, x ∈ l → truthy (trim x) = true ∧ trim x = x) →
  nonblank_trimmed (JString <$> l) = l.
Proof.
  induction l as [|x l IH]; intros H; [done|].
  unfold nonblank_trimmed in *. simpl.
  destruct (H x) as [-> ->]; [left|]. simpl. f_equal.
  apply IH. intros y Hy. apply H. by right.
Qed.

(** The four ways [loadBlockedList] ends. *)
Lemma loadBlockedList_cases st :
  match getItem st STORAGE_KEY with
  | Throw _ | Normal None => loadBlockedList st = DEFAULT_BLOCKLIST
  | Normal (Some raw) =>
      if truthy raw then
        match JSON_parse raw with
        | Normal (JArray items) => loadBlockedList st = nonblank_trimmed items
        | _ => loadBlockedList st = DEFAULT_BLOCKLIST
        end
      else loadBlockedList st = DEFAULT_BLOCKLIST
  end.
Proof.
  unfold loadBlockedList, loadBlockedList_try.
  destruct (getItem st STORAGE_KEY) as [[raw|]|]; simpl; try done.
  destruct (truthy raw); simpl; [|done].
  destruct (JSON_parse raw) as [v|]; simpl; [|done].
  destruct v; simpl; try done.
  by rewrite map_throwing_nonblank.
Qed.

Lemma saveBlockedList_true st entries st' :
  saveBlockedList st entries = (true, st') →
  getItem st' STORAGE_KEY
  = Normal (Some (JSON_stringify (unique_entries entries))).
Proof.
  unfold saveBlockedList, setItem, getItem.
  destruct (accessible st); [|done].
  case_bool_decide; [|done].
  intros [= <-]. simpl. by rewrite lookup_insert_eq.
Qed.

Lemma load_after_save st entries st' :
  saveBlockedList st entries = (true, st') →
  loadBlockedList st' = unique_entries entries.
Proof.
  intros Hs. pose proof (loadBlockedList_cases st') as H.
  rewrite (saveBlockedList_true _ _ _ Hs) in H.
  change (truthy (JSON_stringify (unique_entries entries))) with true in H.
  cbv iota in H. rewrite JSON_roundtrip in H. rewrite H.
  apply nonblank_trimmed_strings. intros x. apply unique_entries_trimmed.
Qed.

(** ** Seller extraction *)

Lemma match_seller_path_truthy s seg :
  match_seller_path s = Some seg → truthy seg = true.
Proof.
  induction s as [|c s IH]; [done|]. cbn -[strip_prefix_ci js].
  destruct (strip_prefix_ci _ _) as [r|]; [|done].
  destruct (take_segment r) eqn:E; [done|]. by intros [= <-].
Qed.

Lemma percent_items_truthy s l :
  percent_items s = Some l → truthy s = true → l ≠ [].
Proof.
  destruct s as [|c s]; [done|]. simpl.
  repeat case_match; try done; intros Hp _;
    match type of Hp with
    | cons _ <$> ?o = _ => destruct o; simplify_eq/=; done
    end.
Qed.

Lemma utf16_encode_truthy cp : truthy (utf16_encode cp) = true.
Proof. unfold utf16_encode. by destruct (cp <? 65536). Qed.

Lemma utf8_items_truthy l d :
  utf8_items l = Some d → l ≠ [] → truthy d = true.
Proof.
  destruct l as [|[c|b] l]; [done| |]; simpl.
  - destruct (utf8_items l); intros; simplify_eq/=; done.
  - repeat case_match; try done; intros Hp _;
      match type of Hp with
      | cons _ <$> ?o = _ => destruct o; simplify_eq/=; done
      | app (utf16_encode ?cp) <$> ?o = _ =>
          pose proof (utf16_encode_truthy cp);
          destruct o, (utf16_encode cp); simplify_eq/=; done
      end.
Qed.

Lemma decodeURIComponent_truthy s d :
  decodeURIComponent s = Normal d → truthy s = true → truthy d = true.
Proof.
  unfold decodeURIComponent. intros H Hs.
  destruct (percent_items s) as [l|] eqn:El; simpl in H; [|done].
  destruct (utf8_items l) as [d'|] eqn:Ed; [|done]. simplify_eq.
  eapply utf8_items_truthy; [done|]. by eapply percent_items_truthy.
Qed.

Lemma href_seller_truthy e s :
  href_seller e = Normal (Some s) → truthy s = true.
Proof.
  unfold href_seller.
  destruct (match_seller_path _) as [seg|] eqn:Em; [|done].
  destruct (decodeURIComponent seg) as [d|] eqn:Ed; simpl; [|done].
  intros [= <-]. eapply decodeURIComponent_truthy; [done|].
  by eapply match_seller_path_truthy.
Qed.

Lemma attr_seller_truthy e k s :
  attr_seller e k = Some s → truthy s = true.
Proof.
  unfold attr_seller. destruct (el_attrs e !! k) as [v|]; [|done].
  destruct (truthy v) eqn:E; [|done]. by intros [= <-].
Qed.

Lemma or_else_Some m n s :
  or_else m n = Normal (Some s) →
  m = Normal (Some s) ∨ (m = Normal None ∧ n = Normal (Some s)).
Proof. destruct m as [[?|]|]; simpl; eauto. Qed.

(** A seller that is extracted is never the empty string. *)
Lemma extractSellerFromRow_truthy row s :
  extractSellerFromRow row = Normal (Some s) → truthy s = true.
Proof.
  unfold extractSellerFromRow, strategy1, strategy2, strategy3, strategy4.
  intros H.
  repeat match goal with
  | H : or_else _ _ = Normal (Some _) |- _ =>
      apply or_else_Some in H as [H|[_ H]]
  end;
  repeat match goal with
  | H : match ?x with _ => _ end = Normal (Some _) |- _ =>
      destruct x eqn:?; try done
  end;
  simplify_eq;
  eauto using href_seller_truthy, attr_seller_truthy.
  apply or_else_Some in H as [H|[_ H]];
    [by eapply href_seller_truthy|].
  destruct (truthy (trimmed_text e)) eqn:E; by simplify_eq.
Qed.

Lemma extractSellerFromRow_descendants r r' :
  descendants r = descendants r' →
  extractSellerFromRow r = extractSellerFromRow r'.
Proof.
  intros H.
  unfold extractSellerFromRow, strategy1, strategy2, strategy3, strategy4,
    querySelector.
  by rewrite H.
Qed.

(** ** Row markers *)

Lemma mark_processed_flags r v :
  let r' := setAttribute r PROCESSED v in
  processed r' = true ∧ blocked r' = blocked r ∧ hidden r' = hidden r
  ∧ display r' = display r ∧ is_listing r' = is_listing r
  ∧ descendants r' = descendants r.
Proof. row_simpl. split_and!; first [done | by apply bool_decide_eq_true]. Qed.

Lemma hideRow_flags r :
  blocked (hideRow r) = true ∧ hidden (hideRow r) = true
  ∧ display (hideRow r) = js "none" ∧ processed (hideRow r) = processed r
  ∧ is_listing (hideRow r) = is_listing r.
Proof.
  row_simpl. split_and!; first [done | by apply bool_decide_eq_true].
Qed.

Lemma unhideRow_flags r :
  blocked (unhideRow r) = blocked r ∧ hidden (unhideRow r) = false
  ∧ display (unhideRow r) = [] ∧ processed (unhideRow r) = processed r.
Proof.
  row_simpl.
  split_and!; first [done | apply bool_decide_eq_false; by intros [? ?]].
Qed.

Lemma rehide_flags r :
  let r' := setAttribute (set_display r (js "none")) HIDDEN (js "true") in
  blocked r' = blocked r ∧ hidden r' = true ∧ display r' = js "none"
  ∧ processed r' = processed r.
Proof. row_simpl. split_and!; first [done | by apply bool_decide_eq_true]. Qed.

(** ** [forEach] *)

Lemma forEach_rows_length sel f rows :
  length (forEach_rows sel f rows).1 = length rows.
Proof.
  induction rows as [|r rows IH]; [done|]. simpl.
  destruct (sel r).
  - destruct (f r) as [r' [u|e]]; [|done].
    destruct (forEach_rows sel f rows). simpl in *. by rewrite IH.
  - destruct (forEach_rows sel f rows). simpl in *. by rewrite IH.
Qed.

(** Whatever happens, a row is left alone or is what the callback made of
    it. *)
Lemma forEach_rows_lookup sel f rows : ∀ i r,
  rows !! i = Some r →
  ∃ r', (forEach_rows sel f rows).1 !! i = Some r'
        ∧ (r' = r ∨ (sel r = true ∧ r' = (f r).1)).
Proof.
  induction rows as [|r0 rows IH]; intros i r Hi; [done|]. simpl.
  destruct i as [|i]; simpl in Hi.
  - simplify_eq. destruct (sel r) eqn:Es.
    + destruct (f r) as [r' [u|e]]; [|simpl; eauto].
      destruct (forEach_rows sel f rows). simpl. eauto.
    + destruct (forEach_rows sel f rows). simpl. eauto.
  - destruct (IH _ _ Hi) as (r' & Hr' & Hor).
    destruct (sel r0).
    + destruct (f r0) as [r0' [u|e]]; [|simpl; eauto].
      destruct (forEach_rows sel f rows). simpl in *. eauto.
    + destruct (forEach_rows sel f rows). simpl in *. eauto.
Qed.

(** The callback has run on every selected row that the loop got to. *)
Lemma forEach_rows_reached sel f rows : ∀ i r,
  rows !! i = Some r →
  (∀ j rj, (j < i)%nat → rows !! j = Some rj → sel rj = true →
     ∃ u, (f rj).2 = Normal u) →
  (forEach_rows sel f rows).1 !! i = Some (if sel r then (f r).1 else r).
Proof.
  induction rows as [|r0 rows IH]; intros i r Hi Hreach; [done|]. simpl.
  destruct i as [|i]; simpl in Hi.
  - simplify_eq. destruct (sel r) eqn:Es.
    + destruct (f r) as [r' [u|e]]; [|done].
      by destruct (forEach_rows sel f rows).
    + by destruct (forEach_rows sel f rows).
  - assert (Hrec : (forEach_rows sel f rows).1 !! i
                   = Some (if sel r then (f r).1 else r)).
    { apply IH; [done|]. intros j rj Hj Hrj. apply (Hreach (S j)); [lia|done]. }
    destruct (sel r0) eqn:Es0.
    + destruct (Hreach 0%nat r0) as [u Hu]; [lia|done|done|].
      destruct (f r0) as [r0' c]. simpl in Hu. subst c.
      by destruct (forEach_rows sel f rows).
    + by destruct (forEach_rows sel f rows).
Qed.

(** A loop that ends normally has run the callback on every selected row,
    and no call threw. *)
Lemma forEach_rows_normal sel f rows : ∀ rows' u,
  forEach_rows sel f rows = (rows', Normal u) →
  rows' = (λ r, if sel r then (f r).1 else r) <$> rows
  ∧ Forall (λ r, sel r = true → ∃ u, (f r).2 = Normal u) rows.
Proof.
  induction rows as [|r rows IH]; intros rows' u H; simpl in H.
  { by simplify_eq. }
  destruct (sel r) eqn:Es.
  - destruct (f r) as [r' [u'|e]] eqn:Ef; [|done].
    destruct (forEach_rows sel f rows) as [rest c] eqn:Er. simplify_eq.
    destruct (IH _ _ eq_refl) as [-> HF]. simpl. rewrite Es, Ef. split; [done|].
    constructor; [|done]. rewrite Ef. eauto.
  - destruct (forEach_rows sel f rows) as [rest c] eqn:Er. simplify_eq.
    destruct (IH _ _ eq_refl) as [-> HF]. simpl. rewrite Es. split; [done|].
    constructor; [|done]. by rewrite Es.
Qed.

(** A loop whose callback leaves every selected row alone changes
    nothing. *)
Lemma forEach_rows_fixed sel f rows :
  Forall (λ r, sel r = true → f r = (r, Normal ())) rows →
  forEach_rows sel f rows = (rows, Normal ()).
Proof.
  induction 1 as [|r rows Hr _ IH]; [done|]. simpl.
  destruct (sel r); [rewrite Hr by done|]; by rewrite IH.
Qed.

(** ** Canonicalisation *)

Lemma lower_unit_ascii c : c < 128 → lower_unit c = [ascii_lower c].
Proof.
  intros Hc. unfold lower_unit, ascii_lower.
  destruct ((65 <=? c) && (c <=? 90)); [done|].
  destruct (N.leb_spec 192 c); [lia|]. simpl.
  destruct (N.eqb_spec c 304); [lia|].
  destruct (N.eqb_spec c 8490); [lia|].
  destruct (N.eqb_spec c 8491); [lia|done].
Qed.

(** The sample lower-casing is as the engine's on ASCII. *)
Lemma toLowerCase_sample_ascii s :
  is_ascii s → toLowerCase_sample s = ascii_lower <$> s.
Proof.
  unfold toLowerCase_sample.
  induction 1 as [|c s Hc _ IH]; [done|].
  cbn [mbind list_bind fmap list_fmap]. rewrite lower_unit_ascii by done.
  simpl. f_equal. exact IH.
Qed.

Lemma is_az09_ascii c : is_az09 c = true → c < 128 ∧ ascii_lower c = c.
Proof.
  unfold is_az09, ascii_lower. intros H.
  apply orb_true_iff in H as [H|H];
    apply andb_true_iff in H as [H1%N.leb_le H2%N.leb_le];
    (split; [lia|]);
    destruct (N.leb_spec 65 c), (N.leb_spec c 90); simpl; (done || lia).
Qed.

Section CanonProperties.

Variable toLowerCase : jsstring → jsstring.

(** On a string of ASCII characters [toLowerCase] maps the capitals A to Z
    to the small letters and leaves the rest. *)
Hypothesis toLowerCase_ascii :
  ∀ s, is_ascii s → toLowerCase s = ascii_lower <$> s.

Lemma canon_az09 x : Forall (λ c, is_az09 c = true) (canon toLowerCase x).
Proof.
  destruct x as [s|]; simpl; [|constructor].
  destruct (truthy s); simpl; [|constructor].
  apply Forall_forall. intros c Hc.
  apply list_elem_of_filter in Hc as [Hc _]. by apply Is_true_true.
Qed.

Lemma canon_nonempty s :
  s ≠ [] → canon toLowerCase (Some s) = filter (λ c, is_az09 c) (toLowerCase s).
Proof. by destruct s. Qed.

Lemma canon_ascii s :
  is_ascii s →
  canon toLowerCase (Some s) = filter (λ c, is_az09 c) (ascii_lower <$> s).
Proof.
  intros Hs. destruct s as [|c s]; [done|].
  rewrite canon_nonempty by done. by rewrite toLowerCase_ascii.
Qed.

(** C3. [canon] is total; it gives the empty string for [null] and for the
    empty string, and for any other string the lower-cased input without the
    characters outside [a-z0-9] (so its result has only such characters, and
    on ASCII input the lower-casing is that of the letters A to Z);
    KUPIKU-EU, kupiku.eu and KupikuEU have the same canonical key. *)
Theorem canon_spec :
  canon toLowerCase None = []
  ∧ canon toLowerCase (Some []) = []
  ∧ (∀ s, s ≠ [] →
       canon toLowerCase (Some s)
       = filter (λ c, is_az09 c) (toLowerCase s))
  ∧ (∀ x, Forall (λ c, is_az09 c = true) (canon toLowerCase x))
  ∧ (∀ s, is_ascii s →
       canon toLowerCase (Some s)
       = filter (λ c, is_az09 c) (ascii_lower <$> s))
  ∧ canon toLowerCase (Some (js "KUPIKU-EU"))
    = canon toLowerCase (Some (js "kupiku.eu"))
  ∧ canon toLowerCase (Some (js "kupiku.eu"))
    = canon toLowerCase (Some (js "KupikuEU")).
Proof.
  split_and!; [done | done | apply canon_nonempty | apply canon_az09
              | apply canon_ascii | |];
    rewrite !canon_ascii by (vm_compute; repeat constructor);
    reflexivity.
Qed.

(** C4. Canonicalising a canonical key gives the key back. *)
Theorem canon_idempotent (x : option jsstring) :
  canon toLowerCase (Some (canon toLowerCase x)) = canon toLowerCase x.
Proof.
  pose proof (canon_az09 x) as Haz.
  set (y := canon toLowerCase x) in *.
  assert (Hascii : is_ascii y).
  { eapply Forall_impl; [exact Haz|]. intros c Hc.
    by apply is_az09_ascii in Hc as [? _]. }
  rewrite canon_ascii by done. clear Hascii.
  induction Haz as [|c l Hc _ IH]; [done|].
  cbn [fmap list_fmap]. destruct (is_az09_ascii c Hc) as [_ ->].
  rewrite filter_cons_True by (by apply Is_true_true). by rewrite IH.
Qed.

End CanonProperties.

Lemma canon_spec_witness :
  (∀ s, is_ascii s → toLowerCase_sample s = ascii_lower <$> s)
  ∧ canon toLowerCase_sample (Some (js "KUPIKU-EU"))
    = canon toLowerCase_sample (Some (js "kupiku.eu"))
  ∧ canon toLowerCase_sample (Some [304; 46; 8490]) = js "ik".
Proof.
  split_and!.
  - exact toLowerCase_sample_ascii.
  - exact (proj1 (proj2 (proj2 (proj2 (proj2 (proj2
             (canon_spec toLowerCase_sample toLowerCase_sample_ascii))))))).
  - rewrite (proj1 (proj2 (proj2
             (canon_spec toLowerCase_sample toLowerCase_sample_ascii))))
      by done.
    reflexivity.
Defined.

Lemma canon_idempotent_witness :
  (∀ s, is_ascii s → toLowerCase_sample s = ascii_lower <$> s)
  ∧ canon toLowerCase_sample
      (Some (canon toLowerCase_sample (Some (js "Ongaku_Express"))))
    = js "ongakuexpress".
Proof.
  split; [exact toLowerCase_sample_ascii|].
  rewrite (canon_idempotent toLowerCase_sample toLowerCase_sample_ascii).
  reflexivity.
Defined.

(** ** The control bar *)

Lemma trs_updateControlUI pg : trs (updateControlUI pg) = trs pg.
Proof. unfold updateControlUI. by destruct (control pg). Qed.

Lemma updateControlUI_idemp pg :
  updateControlUI (updateControlUI pg) = updateControlUI pg.
Proof.
  destruct pg as [rows st bs sh [c|] md]; [|done].
  unfold updateControlUI, countBlockedRows, set_control. simpl.
  by destruct (length (List.filter blocked rows) =? 0)%nat.
Qed.

(** ** The reconciliation pass *)

Section ScriptProperties.

Variable toLowerCase : jsstring → jsstring.

Hypothesis toLowerCase_ascii :
  ∀ s, is_ascii s → toLowerCase s = ascii_lower <$> s.

Lemma process_row_processed bs r :
  processed r = true → process_row toLowerCase bs r = (r, Normal ()).
Proof. unfold process_row, processed. by intros ->. Qed.

Lemma process_row_unprocessed bs r :
  processed r = false →
  process_row toLowerCase bs r =
  let r0 := setAttribute r PROCESSED (js "true") in
  match extractSellerFromRow r with
  | Throw e => (r0, Throw e)
  | Normal None => (r0, Normal ())
  | Normal (Some raw) =>
      if Set_has bs (canon toLowerCase (Some raw)) then (hideRow r0, Normal ())
      else (r0, Normal ())
  end.
Proof.
  unfold process_row, processed. intros ->.
  rewrite (extractSellerFromRow_descendants _ r) by done.
  destruct (extractSellerFromRow r) as [[raw|]|] eqn:E; try done.
  by rewrite (extractSellerFromRow_truthy _ _ E).
Qed.

(** The callback only ever adds markers, and hides. *)
Lemma process_row_monotone bs r :
  let r' := (process_row toLowerCase bs r).1 in
  (blocked r = true → blocked r' = true)
  ∧ (hidden r = true → hidden r' = true)
  ∧ processed r' = true
  ∧ (display r = js "none" → display r' = js "none")
  ∧ is_listing r' = is_listing r.
Proof.
  destruct (processed r) eqn:Ep.
  { rewrite process_row_processed by done. simpl. by rewrite Ep. }
  rewrite process_row_unprocessed by done.
  pose proof (mark_processed_flags r (js "true")) as (Hp & Hb & Hh & Hd & Hl & _).
  pose proof (hideRow_flags (setAttribute r PROCESSED (js "true")))
    as (Hb' & Hh' & Hd' & Hp' & Hl').
  cbv zeta.
  destruct (extractSellerFromRow r) as [[raw|]|]; simpl;
    [destruct (Set_has _ _); simpl|..];
    rewrite ?Hb', ?Hh', ?Hd', ?Hp', ?Hl', ?Hp, ?Hb, ?Hh, ?Hd, ?Hl; done.
Qed.

Lemma process_row_normal bs r :
  (∃ o, extractSellerFromRow r = Normal o) →
  ∃ u, (process_row toLowerCase bs r).2 = Normal u.
Proof.
  intros [o Ho]. destruct (processed r) eqn:Ep.
  { rewrite process_row_processed by done. eauto. }
  rewrite process_row_unprocessed, Ho by done. cbv zeta.
  destruct o; [destruct (Set_has _ _)|]; simpl; eauto.
Qed.

Lemma Set_has_blockedSet st k :
  Set_has (buildBlockedSetFromSaved toLowerCase st) k = true
  ↔ ∃ entry, entry ∈ loadBlockedList st ∧ k = canon toLowerCase (Some entry).
Proof.
  unfold buildBlockedSetFromSaved. rewrite Set_has_new_Set, list_elem_of_fmap.
  naive_solver.
Qed.

Lemma processListings_eq pg :
  let bs := buildBlockedSetFromSaved toLowerCase (localStorage pg) in
  let res := forEach_rows is_listing (process_row toLowerCase bs) (trs pg) in
  processListings toLowerCase pg =
  match res.2 with
  | Normal _ =>
      (updateControlUI (set_trs (set_blockedSet pg bs) res.1), Normal ())
  | Throw e => (set_trs (set_blockedSet pg bs) res.1, Throw e)
  end.
Proof.
  unfold processListings. simpl.
  by destruct (forEach_rows _ _ _) as [rows [u|e]].
Qed.

Lemma processListings_trs pg :
  trs (processListings toLowerCase pg).1 =
  (forEach_rows is_listing
     (process_row toLowerCase
        (buildBlockedSetFromSaved toLowerCase (localStorage pg)))
     (trs pg)).1.
Proof.
  rewrite processListings_eq. cbv zeta.
  destruct (forEach_rows _ _ _) as [rows [u|e]]; simpl; [|done].
  by rewrite trs_updateControlUI.
Qed.

Lemma processListings_storage pg :
  localStorage (processListings toLowerCase pg).1 = localStorage pg.
Proof.
  rewrite processListings_eq. cbv zeta.
  destruct (forEach_rows _ _ _) as [rows [u|e]]; simpl; [|done].
  unfold updateControlUI. by destruct (control _).
Qed.

(** C1. A listing row that the scan gets to and that is not yet processed
    is marked processed whatever the extraction gives; if a seller is
    extracted whose canonical key is that of an entry of the blocklist, the
    row is marked blocked and hidden and is not displayed; if no seller is
    extracted the blocked and hidden markers and the display stay as they
    were.  With justicker in the blocklist, a row of seller Justicker is
    blocked and hidden. *)
Theorem processListings_marks_rows pg i row :
  trs pg !! i = Some row →
  is_listing row = true →
  processed row = false →
  reaches pg i →
  ∃ row',
    trs (processListings toLowerCase pg).1 !! i = Some row'
    ∧ processed row' = true
    ∧ (∀ raw entry,
         extractSellerFromRow row = Normal (Some raw) →
         entry ∈ loadBlockedList (localStorage pg) →
         canon toLowerCase (Some raw) = canon toLowerCase (Some entry) →
         blocked row' = true ∧ hidden row' = true
         ∧ display row' = js "none")
    ∧ (extractSellerFromRow row = Normal None →
         blocked row' = blocked row ∧ hidden row' = hidden row
         ∧ display row' = display row)
    ∧ (extractSellerFromRow row = Normal (Some (js "Justicker")) →
         js "justicker" ∈ loadBlockedList (localStorage pg) →
         blocked row' = true ∧ hidden row' = true).
Proof.
  intros Hi Hl Hp Hreach.
  set (bs := buildBlockedSetFromSaved toLowerCase (localStorage pg)).
  exists (process_row toLowerCase bs row).1.
  assert (Hhide : ∀ raw entry,
    extractSellerFromRow row = Normal (Some raw) →
    entry ∈ loadBlockedList (localStorage pg) →
    canon toLowerCase (Some raw) = canon toLowerCase (Some entry) →
    blocked (process_row toLowerCase bs row).1 = true
    ∧ hidden (process_row toLowerCase bs row).1 = true
    ∧ display (process_row toLowerCase bs row).1 = js "none").
  { intros raw entry Hraw Hentry Hcanon.
    rewrite process_row_unprocessed, Hraw by done. cbv zeta.
    replace (Set_has bs (canon toLowerCase (Some raw))) with true
      by (symmetry; apply Set_has_blockedSet; eauto).
    simpl. pose proof (hideRow_flags (setAttribute row PROCESSED (js "true"))).
    naive_solver. }
  split_and!.
  - rewrite processListings_trs.
    rewrite (forEach_rows_reached _ _ _ i row), Hl; [done..|].
    intros j rj Hj Hrj Hlj. destruct (processed rj) eqn:Epj.
    + rewrite process_row_processed by done. eauto.
    + apply process_row_normal. by eapply Hreach.
  - apply process_row_monotone.
  - exact Hhide.
  - intros Hnone. rewrite process_row_unprocessed, Hnone by done.
    pose proof (mark_processed_flags row (js "true")). naive_solver.
  - intros Hraw Hentry.
    destruct (Hhide _ _ Hraw Hentry) as (? & ? & _); [|done].
    rewrite !canon_ascii by (done || vm_compute; repeat constructor).
    reflexivity.
Qed.


Lemma processListings_again pg pg' :
  processListings toLowerCase pg = (pg', Normal ()) →
  processListings toLowerCase pg' = (pg', Normal ()).
Proof.
  intros H1.
  assert (Hst : localStorage pg' = localStorage pg)
    by (rewrite <- (processListings_storage pg); by rewrite H1).
  rewrite processListings_eq in H1. cbv zeta in H1.
  set (bs := buildBlockedSetFromSaved toLowerCase (localStorage pg)) in *.
  destruct (forEach_rows is_listing (process_row toLowerCase bs) (trs pg))
    as [rows [[]|e]] eqn:E; simpl in H1; [|done].
  injection H1 as <-.
  apply forEach_rows_normal in E as [Hrows _].
  rewrite processListings_eq. cbv zeta. rewrite trs_updateControlUI.
  change (trs (set_trs (set_blockedSet pg bs) rows)) with rows.
  replace (localStorage (updateControlUI (set_trs (set_blockedSet pg bs) rows)))
    with (localStorage pg)
    by (unfold updateControlUI; by destruct (control _)).
  fold bs.
  rewrite (forEach_rows_fixed is_listing (process_row toLowerCase bs) rows).
  - simpl. f_equal.
    rewrite <- (updateControlUI_idemp (set_trs (set_blockedSet pg bs) rows))
      at 2.
    f_equal. unfold updateControlUI.
    by destruct (control (set_trs (set_blockedSet pg bs) rows)).
  - rewrite Hrows. apply Forall_fmap, Forall_forall. intros r _. simpl.
    pose proof (process_row_monotone bs r) as (_ & _ & Hp & _ & Hl).
    destruct (is_listing r) eqn:El; simpl; [|congruence].
    intros _. by apply process_row_processed.
Qed.


(** C10. A pass never removes a marker and never shows a row that is not
    displayed, whatever the page and the stored blocklist: a row that is
    blocked, hidden, processed or not displayed is so after the pass; the
    rows stay the same in number.  In particular a blocked row stays blocked
    and hidden over a pass run on any other stored blocklist. *)
Theorem processListings_monotone pg :
  length (trs (processListings toLowerCase pg).1) = length (trs pg)
  ∧ (∀ i row, trs pg !! i = Some row →
       ∃ row', trs (processListings toLowerCase pg).1 !! i = Some row'
         ∧ (blocked row = true → blocked row' = true)
         ∧ (hidden row = true → hidden row' = true)
         ∧ (processed row = true → processed row' = true)
         ∧ (display row = js "none" → display row' = js "none"))
  ∧ (∀ st i row, trs pg !! i = Some row →
       blocked row = true → hidden row = true →
       ∃ row',
         trs (processListings toLowerCase (set_localStorage pg st)).1 !! i
         = Some row'
         ∧ blocked row' = true ∧ hidden row' = true).
Proof.
  assert (Hmono : ∀ pg i row, trs pg !! i = Some row →
    ∃ row', trs (processListings toLowerCase pg).1 !! i = Some row'
      ∧ (blocked row = true → blocked row' = true)
      ∧ (hidden row = true → hidden row' = true)
      ∧ (processed row = true → processed row' = true)
      ∧ (display row = js "none" → display row' = js "none")).
  { clear pg. intros pg i row Hi. rewrite processListings_trs.
    destruct (forEach_rows_lookup is_listing
                (process_row toLowerCase
                   (buildBlockedSetFromSaved toLowerCase (localStorage pg)))
                _ _ _ Hi) as (r' & Hr' & [->|[_ ->]]); [by eauto 10|].
    eexists; split; [done|].
    pose proof (process_row_monotone
                  (buildBlockedSetFromSaved toLowerCase (localStorage pg)) row).
    naive_solver. }
  split_and!.
  - rewrite processListings_trs. apply forEach_rows_length.
  - apply Hmono.
  - intros st i row Hi Hb Hh.
    destruct (Hmono (set_localStorage pg st) i row Hi)
      as (r' & Hr' & Hb' & Hh' & _).
    exists r'. split_and!; [done | by apply Hb' | by apply Hh'].
Qed.

End ScriptProperties.

(** ** The show/hide toggle *)

Lemma update_rows_lookup sel f rows i :
  update_rows sel f rows !! i = (λ r, if sel r then f r else r) <$> rows !! i.
Proof. apply list_lookup_fmap. Qed.

Lemma toggle_row_flags show r :
  blocked (toggle_row show r) = blocked r
  ∧ processed (toggle_row show r) = processed r
  ∧ hidden (toggle_row show r) = negb show
  ∧ display (toggle_row show r) = (if show then [] else js "none").
Proof.
  destruct show; simpl.
  - pose proof (unhideRow_flags r). naive_solver.
  - pose proof (rehide_flags r). naive_solver.
Qed.

Lemma toggle_row_idemp show r :
  toggle_row show (toggle_row show r) = toggle_row show r.
Proof.
  destruct r as [l a d ds]. destruct show; row_simpl; f_equal.
  - apply delete_delete_eq.
  - apply insert_insert_eq.
Qed.

Lemma trs_toggleHiddenRows show pg :
  trs (toggleHiddenRows show pg)
  = update_rows blocked (toggle_row show) (trs pg).
Proof. unfold toggleHiddenRows. by rewrite trs_updateControlUI. Qed.

Lemma update_rows_toggle_idemp show rows :
  update_rows blocked (toggle_row show)
    (update_rows blocked (toggle_row show) rows)
  = update_rows blocked (toggle_row show) rows.
Proof.
  unfold update_rows. rewrite <- list_fmap_compose.
  apply list_fmap_ext. intros _ r _. simpl.
  destruct (blocked r) eqn:Eb; simpl; [|by rewrite Eb].
  destruct (toggle_row_flags show r) as (-> & _). rewrite Eb.
  apply toggle_row_idemp.
Qed.

(** C8. [toggleHiddenRows(show)] gives every blocked row the hidden marker
    exactly when [show] is false (and the matching display), leaves every
    other row as it is, keeps the blocked and processed markers of all rows,
    and done twice with the same argument is as done once; showing and then
    hiding leaves every blocked row hidden and blocked. *)
Theorem toggleHiddenRows_spec show pg :
  (∀ i r, trs pg !! i = Some r →
     ∃ r', trs (toggleHiddenRows show pg) !! i = Some r'
       ∧ blocked r' = blocked r
       ∧ processed r' = processed r
       ∧ (if blocked r
          then hidden r' = negb show
               ∧ display r' = (if show then [] else js "none")
          else r' = r))
  ∧ toggleHiddenRows show (toggleHiddenRows show pg)
    = toggleHiddenRows show pg
  ∧ (∀ i r, trs pg !! i = Some r → blocked r = true →
       ∃ r', trs (toggleHiddenRows false (toggleHiddenRows true pg)) !! i
             = Some r'
         ∧ hidden r' = true ∧ blocked r' = true).
Proof.
  assert (Hrow : ∀ show pg i r, trs pg !! i = Some r →
     ∃ r', trs (toggleHiddenRows show pg) !! i = Some r'
       ∧ blocked r' = blocked r
       ∧ processed r' = processed r
       ∧ (if blocked r
          then hidden r' = negb show
               ∧ display r' = (if show then [] else js "none")
          else r' = r)).
  { clear. intros show pg i r Hi.
    rewrite trs_toggleHiddenRows, update_rows_lookup, Hi. simpl.
    eexists; split; [done|].
    destruct (blocked r) eqn:Eb; simpl; [|by rewrite Eb].
    destruct (toggle_row_flags show r) as (-> & -> & -> & ->).
    by rewrite Eb. }
  split_and!.
  - apply Hrow.
  - unfold toggleHiddenRows at 1.
    rewrite trs_toggleHiddenRows, update_rows_toggle_idemp.
    unfold toggleHiddenRows.
    set (rows := update_rows blocked (toggle_row show) (trs pg)).
    rewrite <- (updateControlUI_idemp (set_showing (set_trs pg rows) show))
      at 2.
    f_equal. unfold updateControlUI.
    by destruct (control (set_showing (set_trs pg rows) show)).
  - intros i r Hi Hb.
    destruct (Hrow true pg i r Hi) as (r1 & Hr1 & Hb1 & _).
    destruct (Hrow false _ i r1 Hr1) as (r2 & Hr2 & Hb2 & _ & Hh2).
    rewrite Hb1, Hb in *. exists r2. naive_solver.
Qed.

Lemma toggleHiddenRows_witness :
  let row := mkRow true {[BLOCKED := js "true"; HIDDEN := js "true"]}
                   (js "none") [] in
  let pg := mkPage [row] (mkStorage true 100 ∅) [] false None [] in
  ∃ r', trs (toggleHiddenRows true pg) !! 0%nat = Some r'
        ∧ blocked r' = true ∧ hidden r' = false ∧ display r' = [].
Proof.
  intros row pg.
  destruct (proj1 (toggleHiddenRows_spec true pg) 0%nat row eq_refl)
    as (r' & Hr' & Hb & _ & Hh & Hd).
  exists r'. split_and!; [exact Hr' | exact Hb | exact Hh | exact Hd].
Defined.

(** ** The Save button *)

Lemma clear_markers_lookup rows i :
  clear_markers rows !! i =
  (λ r, let r1 := if blocked r then unblock_row r else r in
        if processed r1 then removeAttribute r1 PROCESSED else r1)
  <$> rows !! i.
Proof.
  unfold clear_markers. rewrite !update_rows_lookup.
  by destruct (rows !! i).
Qed.

Lemma clear_row_flags r :
  (hidden r = true → blocked r = true) →
  let r1 := if blocked r then unblock_row r else r in
  let r2 := if processed r1 then removeAttribute r1 PROCESSED else r1 in
  unmarked r2 ∧ display r2 = (if blocked r then [] else display r).
Proof.
  intros Hinv. unfold unmarked. cbv zeta.
  assert (Hrm : ∀ r0, blocked (removeAttribute r0 PROCESSED) = blocked r0
                      ∧ hidden (removeAttribute r0 PROCESSED) = hidden r0
                      ∧ processed (removeAttribute r0 PROCESSED) = false
                      ∧ display (removeAttribute r0 PROCESSED) = display r0).
  { intros r0. row_simpl.
    split_and!;
      first [done | apply bool_decide_eq_false; by intros [??]]. }
  assert (Hun : blocked (unblock_row r) = false
                ∧ hidden (unblock_row r) = false
                ∧ display (unblock_row r) = []).
  { row_simpl. split_and!; [| |done];
      apply bool_decide_eq_false; first [done | by intros [??]]. }
  destruct Hun as (Hb1 & Hh1 & Hd1).
  destruct (blocked r) eqn:Eb; cbv iota.
  - destruct (processed (unblock_row r)) eqn:Ep; cbv iota.
    + destruct (Hrm (unblock_row r)) as (-> & -> & -> & ->). auto.
    + auto.
  - assert (Hh : hidden r = false).
    { destruct (hidden r); [|done]. by specialize (Hinv eq_refl). }
    destruct (processed r) eqn:Ep; cbv iota.
    + destruct (Hrm r) as (-> & -> & -> & ->). auto.
    + auto.
Qed.

Section SaveHandler.

Variable toLowerCase : jsstring → jsstring.

(** C9. When the Save button is clicked and the save goes ahead (the list is
    not empty, or the user confirms): if the blocklist is persisted, every row
    loses its blocked, hidden and processed markers, the rows that were
    blocked are displayed again, and [processListings] then runs on that
    page, with the new stored blocklist and its canonical set; if
    persistence fails the page is left exactly as it was, blocklist
    included. *)
Theorem saveBtn_click_spec value confirm pg :
  let flattened := flattened_entries value in
  flattened ≠ [] ∨ confirm = true →
  hidden_are_blocked (trs pg) →
  match saveBlockedList (localStorage pg) flattened with
  | (true, st') =>
      let cleared :=
        set_showing
          (set_trs (set_localStorage pg st') (clear_markers (trs pg)))
          false in
      Forall unmarked (trs cleared)
      ∧ (∀ i r, trs pg !! i = Some r →
           ∃ r', trs cleared !! i = Some r'
                 ∧ display r' = (if blocked r then [] else display r))
      ∧ loadBlockedList st' = unique_entries flattened
      ∧ (saveBtn_click toLowerCase value confirm pg).2
        = Applied (processListings toLowerCase cleared).2
      ∧ trs (saveBtn_click toLowerCase value confirm pg).1
        = trs (processListings toLowerCase cleared).1
      ∧ localStorage (saveBtn_click toLowerCase value confirm pg).1 = st'
      ∧ blockedSet (saveBtn_click toLowerCase value confirm pg).1
        = new_Set ((λ x, canon toLowerCase (Some x))
                   <$> unique_entries flattened)
  | (false, _) =>
      saveBtn_click toLowerCase value confirm pg = (pg, SaveFailed)
  end.
Proof.
  intros flattened Hgo Hinv.
  assert (Hnot : bool_decide (flattened = []) && negb confirm = false).
  { destruct Hgo as [Hne| ->]; [|by rewrite andb_false_r].
    by rewrite bool_decide_eq_false_2. }
  unfold saveBtn_click. fold flattened. rewrite Hnot.
  destruct (saveBlockedList (localStorage pg) flattened) as [[|] st'] eqn:Es;
    [|done].
  cbv zeta.
  set (cleared := set_showing _ false).
  assert (Hload : loadBlockedList st' = unique_entries flattened)
    by (by eapply load_after_save).
  assert (Hst : localStorage cleared = st') by done.
  pose proof (processListings_storage toLowerCase cleared) as Hst'.
  pose proof (processListings_eq toLowerCase cleared) as Heq.
  cbv zeta in Heq.
  destruct (processListings toLowerCase cleared) as [pg' c] eqn:Ep.
  simpl in Hst'.
  assert (Hbs : blockedSet pg'
                = buildBlockedSetFromSaved toLowerCase (localStorage cleared)).
  { destruct (forEach_rows _ _ _) as [rows [u|e]]; simpl in Heq;
      injection Heq as -> _; [|done].
    unfold updateControlUI. by destruct (control _). }
  split_and!.
  - apply Forall_forall. intros r' Hr'.
    apply list_elem_of_lookup in Hr' as [i Hi].
    change (trs cleared) with (clear_markers (trs pg)) in Hi.
    rewrite clear_markers_lookup in Hi.
    destruct (trs pg !! i) as [r|] eqn:Er; [|done]. simpl in Hi.
    injection Hi as <-. apply clear_row_flags.
    eapply (proj1 (Forall_forall _ _) Hinv), list_elem_of_lookup_2, Er.
  - intros i r Hi.
    change (trs cleared) with (clear_markers (trs pg)).
    rewrite clear_markers_lookup, Hi. simpl. eexists; split; [done|].
    apply clear_row_flags.
    eapply (proj1 (Forall_forall _ _) Hinv), list_elem_of_lookup_2, Hi.
  - exact Hload.
  - by destruct c.
  - by destruct c.
  - destruct c; simpl; by rewrite Hst'.
  - unfold buildBlockedSetFromSaved in Hbs. rewrite Hst, Hload in Hbs.
    by destruct c.
Qed.

End SaveHandler.

(** ** The blocklist store: what [load] and [save] do *)

Lemma List_filter_truthy (l : list jsstring) :
  List.filter truthy l = filter (λ x, x ≠ []) l.
Proof.
  induction l as [|x l IH]; [done|]. simpl. rewrite filter_cons, IH.
  by destruct x.
Qed.

Lemma alloc_spec (h : heap) a :
  (alloc h a).1 = length h
  ∧ (alloc h a).2 !! length h = Some a
  ∧ (∀ i b, h !! i = Some b → (alloc h a).2 !! i = Some b).
Proof.
  unfold alloc. cbn [fst snd]. split_and!; [done| |].
  - rewrite lookup_app_r by lia. by rewrite Nat.sub_diag.
  - intros i b Hi. by apply lookup_app_l_Some.
Qed.

(** C2, as the code has it.  [loadBlockedList] gives the built-in defaults
    when storage cannot be read, when nothing or the empty string is
    persisted, when the persisted text is not JSON and when it is JSON but
    not an array.  When it is an array the result is made of its string
    elements that are not blank, trimmed, in order: elements that are not
    strings are left out and the defaults are not used.  No persisted value
    makes it throw (every completion of its [try] block ends in a returned
    list).  The array it returns is a new object, never the array of the
    defaults itself, and allocating it leaves every other array as it was. *)
Theorem loadBlockedList_spec st :
  ((∀ raw, getItem st STORAGE_KEY = Normal (Some raw) →
      raw = []
      ∨ (∃ e, JSON_parse raw = Throw e)
      ∨ (∃ v, JSON_parse raw = Normal v ∧ ¬ is_array v)) →
   loadBlockedList st = DEFAULT_BLOCKLIST)
  ∧ (∀ raw items,
       getItem st STORAGE_KEY = Normal (Some raw) → raw ≠ [] →
       JSON_parse raw = Normal (JArray items) →
       loadBlockedList st = nonblank_trimmed items)
  ∧ loadBlockedList st
    = match loadBlockedList_try st with
      | Normal (Some l) => l
      | Normal None | Throw _ => DEFAULT_BLOCKLIST
      end
  ∧ (∀ (h : heap) d,
       h !! d = Some DEFAULT_BLOCKLIST →
       (loadBlockedList_ref d st h).1 = length h
       ∧ (loadBlockedList_ref d st h).1 ≠ d
       ∧ (loadBlockedList_ref d st h).2 !! (loadBlockedList_ref d st h).1
         = Some (loadBlockedList st)
       ∧ (∀ i a, h !! i = Some a →
            (loadBlockedList_ref d st h).2 !! i = Some a)).
Proof.
  pose proof (loadBlockedList_cases st) as Hc.
  split_and!.
  - intros H. destruct (getItem st STORAGE_KEY) as [[raw|]|]; [|done..].
    destruct (H raw eq_refl) as [->|[[e He]|(v & Hv & Hn)]]; [done| |].
    + destruct (truthy raw); [|done]. by rewrite He in Hc.
    + destruct (truthy raw); [|done]. rewrite Hv in Hc. by destruct v.
  - intros raw items Hraw Hne Hp. rewrite Hraw, Hp in Hc.
    by destruct raw.
  - done.
  - intros h d Hd. unfold loadBlockedList_ref, loadBlockedList, Array_from.
    rewrite Hd. simpl.
    assert (Hlt : (d < length h)%nat) by (by eapply lookup_lt_Some).
    destruct (loadBlockedList_try st) as [[l|]|e];
      match goal with
      | |- context [alloc h ?a] =>
          destruct (alloc_spec h a) as (-> & ? & ?)
      end; split_and!; (done || lia).
Qed.

Lemma loadBlockedList_spec_witness :
  getItem mixed_list_storage STORAGE_KEY = Normal (Some (jsq "[1,' x ']"))
  ∧ JSON_parse (jsq "[1,' x ']")
    = Normal (JArray [JNumber (js "1"); JString (js " x ")])
  ∧ loadBlockedList mixed_list_storage
    = nonblank_trimmed [JNumber (js "1"); JString (js " x ")].
Proof.
  split_and!; [reflexivity | reflexivity |].
  apply (proj1 (proj2 (loadBlockedList_spec mixed_list_storage))
           (jsq "[1,' x ']")); [reflexivity | discriminate | reflexivity].
Defined.

(** C2 as it is written fails: a persisted list that is not entirely made
    of strings does not give the defaults. *)
Lemma loadBlockedList_mixed_list :
  getItem mixed_list_storage STORAGE_KEY = Normal (Some (jsq "[1,' x ']"))
  ∧ JSON_parse (jsq "[1,' x ']")
    = Normal (JArray [JNumber (js "1"); JString (js " x ")])
  ∧ ¬ Forall is_string [JNumber (js "1"); JString (js " x ")]
  ∧ loadBlockedList mixed_list_storage = [js "x"]
  ∧ loadBlockedList mixed_list_storage ≠ DEFAULT_BLOCKLIST.
Proof.
  split_and!; [reflexivity | reflexivity | | reflexivity | discriminate].
  intros H. by inversion H.
Qed.

(** C5. [saveBlockedList] trims every entry, drops the empty ones, drops
    the repetitions of a trimmed entry (equal as strings) keeping the first
    and the order, writes that list as JSON under the storage key, and
    returns true when the write went through and false, leaving storage as it
    was, when it threw; KUPIKU-EU and kupiku-eu are both kept. *)
Theorem saveBlockedList_spec st entries :
  let unique := unique_entries entries in
  unique = first_seen (filter (λ x, x ≠ []) (trim <$> entries))
  ∧ NoDup unique
  ∧ (∀ x, x ∈ unique ↔ x ≠ [] ∧ ∃ e, e ∈ entries ∧ x = trim e)
  ∧ match setItem st STORAGE_KEY (JSON_stringify unique) with
    | Normal st' =>
        saveBlockedList st entries = (true, st')
        ∧ items st' !! STORAGE_KEY = Some (JSON_stringify unique)
        ∧ (∀ k, k ≠ STORAGE_KEY → items st' !! k = items st !! k)
    | Throw _ => saveBlockedList st entries = (false, st)
    end
  ∧ unique_entries [js "KUPIKU-EU"; js "kupiku-eu"]
    = [js "KUPIKU-EU"; js "kupiku-eu"].
Proof.
  split_and!.
  - unfold unique_entries.
    rewrite new_Set_first_seen, List_filter_truthy.
    assert (Hm : (λ x, trim (or_empty x)) <$> entries = trim <$> entries)
      by (apply list_fmap_ext; intros ? x ?; by rewrite or_empty_id).
    by rewrite Hm.
  - unfold unique_entries. rewrite new_Set_first_seen.
    apply NoDup_first_seen.
  - intros x. apply elem_of_unique_entries.
  - unfold saveBlockedList.
    destruct (setItem st STORAGE_KEY _) as [st'|e] eqn:E; [|done].
    split; [done|]. unfold setItem in E.
    destruct (accessible st); [|done].
    case_bool_decide; [|done]. injection E as <-. simpl.
    split; [apply lookup_insert_eq|].
    intros k Hk. by apply lookup_insert_ne.
  - reflexivity.
Qed.

Lemma saveBlockedList_spec_witness :
  saveBlockedList full_storage [js " a "; js "a"; js ""] = (false, full_storage)
  ∧ unique_entries [js " a "; js "a"; js ""] = [js "a"].
Proof.
  split; [|reflexivity].
  pose proof (saveBlockedList_spec full_storage [js " a "; js "a"; js ""])
    as (_ & _ & _ & H & _).
  exact H.
Defined.

Lemma unique_entries_first_seen entries :
  unique_entries entries
  = first_seen (filter (λ x, x ≠ []) (trim <$> entries)).
Proof.
  unfold unique_entries.
  rewrite new_Set_first_seen, List_filter_truthy.
  assert (Hm : (λ x, trim (or_empty x)) <$> entries = trim <$> entries)
    by (apply list_fmap_ext; intros ? x ?; by rewrite or_empty_id).
  by rewrite Hm.
Qed.

(** C6. After a save that succeeded, [load] gives the trimmed entries
    without the empty ones and the repetitions, in first-seen order; so after
    saving the empty list it gives the empty list, which is not the list of
    defaults that it gives when nothing is persisted. *)
Theorem save_then_load st entries st' :
  saveBlockedList st entries = (true, st') →
  loadBlockedList st' = first_seen (filter (λ x, x ≠ []) (trim <$> entries))
  ∧ (entries = [] →
       loadBlockedList st' = [] ∧ loadBlockedList st' ≠ DEFAULT_BLOCKLIST)
  ∧ (items st !! STORAGE_KEY = None →
       loadBlockedList st = DEFAULT_BLOCKLIST).
Proof.
  intros Hs. pose proof (load_after_save _ _ _ Hs) as Hl.
  rewrite unique_entries_first_seen in Hl. split_and!.
  - exact Hl.
  - intros ->. by rewrite Hl.
  - intros Hnone. pose proof (loadBlockedList_cases st) as Hc.
    unfold getItem in Hc. rewrite Hnone in Hc.
    by destruct (accessible st).
Qed.

Lemma sample_entries_saved :
  saveBlockedList empty_storage [js " a "; js "a"; []; js "b"; js "a "]
  = (true, mkStorage true 5000 {[STORAGE_KEY := jsq "['a','b']"]}).
Proof. vm_compute. reflexivity. Qed.

Lemma sample_entries_first_seen :
  first_seen (filter (λ x, x ≠ [])
                (trim <$> [js " a "; js "a"; []; js "b"; js "a "]))
  = [js "a"; js "b"].
Proof. vm_compute. reflexivity. Qed.

Lemma save_then_load_witness :
  saveBlockedList empty_storage [js " a "; js "a"; []; js "b"; js "a "]
  = (true, mkStorage true 5000 {[STORAGE_KEY := jsq "['a','b']"]})
  ∧ loadBlockedList (mkStorage true 5000 {[STORAGE_KEY := jsq "['a','b']"]})
    = [js "a"; js "b"]
  ∧ saveBlockedList empty_storage []
    = (true, mkStorage true 5000 {[STORAGE_KEY := js "[]"]})
  ∧ loadBlockedList (mkStorage true 5000 {[STORAGE_KEY := js "[]"]}) = []
  ∧ loadBlockedList empty_storage = DEFAULT_BLOCKLIST.
Proof.
  assert (Hs : saveBlockedList empty_storage []
               = (true, mkStorage true 5000 {[STORAGE_KEY := js "[]"]}))
    by reflexivity.
  destruct (save_then_load _ _ _ Hs) as (_ & H2 & H3).
  split_and!; [exact sample_entries_saved | | exact Hs
              | exact (proj1 (H2 eq_refl)) | exact (H3 eq_refl)].
  exact (eq_trans (proj1 (save_then_load _ _ _ sample_entries_saved))
           sample_entries_first_seen).
Defined.

(** ** The markers are the script's own *)

Lemma process_row_invariant toLowerCase bs r :
  (hidden r = true → blocked r = true) →
  hidden (process_row toLowerCase bs r).1 = true →
  blocked (process_row toLowerCase bs r).1 = true.
Proof.
  intros Hinv. destruct (processed r) eqn:Ep.
  { by rewrite process_row_processed. }
  rewrite process_row_unprocessed by done. cbv zeta.
  pose proof (mark_processed_flags r (js "true")) as (_ & Hb & Hh & _).
  pose proof (hideRow_flags (setAttribute r PROCESSED (js "true")))
    as (Hb' & _).
  destruct (extractSellerFromRow r) as [[raw|]|]; simpl;
    [destruct (Set_has _ _); simpl|..];
    rewrite ?Hb', ?Hb, ?Hh; done.
Qed.

(** Every operation of the script keeps the hidden marker on blocked rows
    only; a page without markers starts that way. *)
Lemma hidden_are_blocked_kept toLowerCase pg :
  hidden_are_blocked (trs pg) →
  hidden_are_blocked (trs (processListings toLowerCase pg).1)
  ∧ (∀ show, hidden_are_blocked (trs (toggleHiddenRows show pg)))
  ∧ hidden_are_blocked (clear_markers (trs pg)).
Proof.
  unfold hidden_are_blocked. rewrite !Forall_forall. intros Hinv.
  split_and!.
  - intros r' [i Hi]%list_elem_of_lookup.
    rewrite processListings_trs in Hi.
    pose proof (forEach_rows_length is_listing
      (process_row toLowerCase
         (buildBlockedSetFromSaved toLowerCase (localStorage pg))) (trs pg))
      as Hlen.
    destruct (trs pg !! i) as [r|] eqn:Er.
    + destruct (forEach_rows_lookup is_listing
        (process_row toLowerCase
           (buildBlockedSetFromSaved toLowerCase (localStorage pg)))
        _ _ _ Er) as (r1 & Hr1 & Hor).
      rewrite Hr1 in Hi. injection Hi as ->.
      assert (Hr : hidden r = true → blocked r = true)
        by (eapply Hinv, list_elem_of_lookup_2, Er).
      destruct Hor as [->|[_ ->]]; [done|].
      by apply process_row_invariant.
    + apply lookup_lt_Some in Hi. apply lookup_ge_None in Er. lia.
  - intros show. apply Forall_forall.
    intros r' [i Hi]%list_elem_of_lookup.
    rewrite trs_toggleHiddenRows, update_rows_lookup in Hi.
    destruct (trs pg !! i) as [r|] eqn:Er; [|done]. simpl in Hi.
    injection Hi as <-.
    assert (Hr : hidden r = true → blocked r = true)
      by (eapply Hinv, list_elem_of_lookup_2, Er).
    destruct (blocked r) eqn:Eb; simpl; [|by intros ?%Hr].
    destruct (toggle_row_flags show r) as (-> & _). by rewrite Eb.
  - intros r' [i Hi]%list_elem_of_lookup.
    rewrite clear_markers_lookup in Hi.
    destruct (trs pg !! i) as [r|] eqn:Er; [|done]. simpl in Hi.
    injection Hi as <-.
    assert (Hr : hidden r = true → blocked r = true)
      by (eapply Hinv, list_elem_of_lookup_2, Er).
    destruct (clear_row_flags r Hr) as ((_ & Hh & _) & _).
    by rewrite Hh.
Qed.

(** ** The statements at sample inputs *)

Lemma sample_page_reaches : reaches sample_page 1.
Proof.
  intros j r Hj Hr _ _. destruct j as [|j]; [|lia].
  injection Hr as <-. by eexists.
Defined.

Lemma processListings_marks_rows_witness :
  (∀ s, is_ascii s → toLowerCase_sample s = ascii_lower <$> s)
  ∧ reaches sample_page 1
  ∧ ∃ row',
      trs (processListings toLowerCase_sample sample_page).1 !! 1%nat
      = Some row'
      ∧ processed row' = true ∧ blocked row' = true ∧ hidden row' = true.
Proof.
  split_and!; [exact toLowerCase_sample_ascii | exact sample_page_reaches |].
  destruct (processListings_marks_rows toLowerCase_sample
              toLowerCase_sample_ascii sample_page 1
              (seller_row (js "Justicker")) eq_refl eq_refl eq_refl
              sample_page_reaches) as (row' & Hr & Hp & _ & _ & Hj).
  exists row'.
  destruct Hj as [Hb Hh]; [reflexivity | |].
  - change (js "justicker" ∈ DEFAULT_BLOCKLIST). unfold DEFAULT_BLOCKLIST.
    do 4 apply list_elem_of_further. apply list_elem_of_here.
  - split_and!; [exact Hr | exact Hp | exact Hb | exact Hh].
Defined.


(** A seller link with a malformed escape makes the scan throw: its row is
    marked processed, the rows after it are not visited, and a later scan
    goes on from the next row. *)
Lemma processListings_cut_short :
  (processListings toLowerCase_sample cut_short_page).2 = Throw URIError
  ∧ (λ r, (processed r, blocked r))
    <$> trs (processListings toLowerCase_sample cut_short_page).1
    = [(true, false); (false, false)]
  ∧ (λ r, (processed r, blocked r))
    <$> trs (processListings toLowerCase_sample
               (processListings toLowerCase_sample cut_short_page).1).1
    = [(true, false); (true, true)].
Proof. split_and!; vm_compute; reflexivity. Qed.


Lemma processListings_monotone_witness :
  ∃ row',
    trs (processListings toLowerCase_sample blocked_page).1 !! 0%nat
    = Some row'
    ∧ blocked row' = true ∧ hidden row' = true ∧ processed row' = true
    ∧ display row' = js "none".
Proof.
  destruct (proj1 (proj2 (processListings_monotone toLowerCase_sample
                            blocked_page)) 0%nat _ eq_refl)
    as (row' & Hr & Hb & Hh & Hp & Hd).
  exists row'.
  split_and!; [exact Hr | exact (Hb eq_refl) | exact (Hh eq_refl)
              | exact (Hp eq_refl) | exact (Hd eq_refl)].
Defined.

Lemma blocked_page_invariant : hidden_are_blocked (trs blocked_page).
Proof. repeat (constructor; [vm_compute; auto|]). constructor. Defined.

Lemma flattened_sample :
  flattened_entries (js "someone, x") = [js "someone"; js "x"].
Proof. vm_compute. reflexivity. Qed.

Lemma sample_save_goes : flattened_entries (js "someone, x") ≠ [].
Proof. rewrite flattened_sample. discriminate. Defined.

Lemma saveBtn_click_spec_witness :
  flattened_entries (js "someone, x") ≠ []
  ∧ hidden_are_blocked (trs blocked_page)
  ∧ (saveBtn_click toLowerCase_sample (js "someone, x") false blocked_page).2
    = Applied (Normal ())
  ∧ saveBtn_click toLowerCase_sample (js "someone, x") false
      (set_localStorage blocked_page full_storage)
    = (set_localStorage blocked_page full_storage, SaveFailed).
Proof.
  split_and!; [exact sample_save_goes | exact blocked_page_invariant | |].
  - pose proof (saveBtn_click_spec toLowerCase_sample (js "someone, x") false
                  blocked_page (or_introl sample_save_goes)
                  blocked_page_invariant) as H.
    destruct (saveBlockedList (localStorage blocked_page)
                (flattened_entries (js "someone, x"))) as [[|] st'] eqn:Es;
      [|vm_compute in Es; discriminate Es].
    destruct H as (_ & _ & _ & -> & _).
    vm_compute in Es. injection Es as <-. vm_compute. reflexivity.
  - pose proof (saveBtn_click_spec toLowerCase_sample (js "someone, x") false
             (set_localStorage blocked_page full_storage)
             (or_introl sample_save_goes) blocked_page_invariant) as H.
    destruct (saveBlockedList (localStorage (set_localStorage blocked_page full_storage))
                (flattened_entries (js "someone, x"))) as [[|] st'] eqn:Es;
      [vm_compute in Es; discriminate Es|].
    exact H.
Defined.

(** * Further properties *)

(** ** Splitting and joining the text of the dialog *)

Lemma elem_of_trim_start c s : c ∈ trim_start s → c ∈ s.
Proof.
  destruct (trim_start_suffix s) as [k Hk]. intros H.
  rewrite Hk. apply elem_of_app. by right.
Qed.

Lemma elem_of_trim c s : c ∈ trim s → c ∈ s.
Proof.
  unfold trim. rewrite elem_of_reverse. intros H%elem_of_trim_start.
  rewrite elem_of_reverse in H. by apply elem_of_trim_start.
Qed.

Lemma trim_start_white s :
  Forall (λ c, is_white_space c = true) s → trim_start s = [].
Proof. induction 1 as [|c s Hc _ IH]; [done|]. simpl. by rewrite Hc. Qed.

Lemma trim_white s : Forall (λ c, is_white_space c = true) s → trim s = [].
Proof. intros H. unfold trim. by rewrite (trim_start_white _ H). Qed.

Lemma trim_fixed_last e c :
  trim e = e → last e = Some c → is_white_space c = false.
Proof.
  intros He Hl. destruct (trim_clean e) as [_ H]. rewrite He in H.
  apply last_Some in Hl as [e' ->]. by rewrite reverse_snoc in H.
Qed.

Lemma split_on_pieces sep s :
  Forall (λ p, (sep ∉ p) ∧ ∀ c, c ∈ p → c ∈ s) (split_on sep s).
Proof.
  induction s as [|c s IH]; simpl.
  { constructor; [|constructor]. split; [apply not_elem_of_nil | done]. }
  assert (IH' : Forall (λ p, (sep ∉ p) ∧ ∀ d, d ∈ p → d ∈ c :: s)
                  (split_on sep s)).
  { eapply Forall_impl; [exact IH|]. intros p [? Hp]. split; [done|].
    intros d Hd. right. by apply Hp. }
  destruct (N.eqb_spec c sep) as [->|Hne].
  - constructor; [|done]. split; [apply not_elem_of_nil|].
    intros d Hd. by apply elem_of_nil in Hd.
  - destruct (split_on sep s) as [|l ls].
    + constructor; [|constructor]. split.
      * rewrite list_elem_of_singleton. congruence.
      * intros d Hd. apply list_elem_of_singleton in Hd as ->. left.
    + inversion IH' as [|? ? [Hl Hin] Hls]; subst.
      constructor; [|done]. split.
      * rewrite not_elem_of_cons. split; [congruence | done].
      * intros d [->|Hd]%elem_of_cons; [left | by apply Hin].
Qed.

Lemma split_on_single sep e : sep ∉ e → split_on sep e = [e].
Proof.
  induction e as [|c e IH]; [done|]. rewrite not_elem_of_cons.
  intros [Hc He]. simpl. destruct (N.eqb_spec c sep); [congruence|].
  by rewrite IH.
Qed.

Lemma split_lines_pieces s :
  Forall (λ p, ∀ c, c ∈ p → c ∈ s) (split_lines s).
Proof.
  assert (Hw : ∀ (c : N) (s : jsstring) (l : list jsstring),
    Forall (λ p, ∀ d, d ∈ p → d ∈ s) l →
    Forall (λ p, ∀ d, d ∈ p → d ∈ c :: s) l).
  { intros c s0 l H. eapply Forall_impl; [exact H|].
    intros p Hp d Hd. right. by apply Hp. }
  assert (Hcont : ∀ (c : N) (s : jsstring) (l : list jsstring),
    Forall (λ p, ∀ d, d ∈ p → d ∈ s) l →
    Forall (λ p, ∀ d, d ∈ p → d ∈ c :: s)
      match l with
      | l0 :: ls => (c :: l0) :: ls
      | [] => [[c]]
      end).
  { intros c s0 [|l0 ls] H.
    - constructor; [|constructor]. intros d Hd.
      apply list_elem_of_singleton in Hd as ->. left.
    - inversion H as [|? ? Hl0 Hls]; subst. constructor; [|by apply Hw].
      intros d [->|Hd]%elem_of_cons; [left | right; by apply Hl0]. }
  assert (Hnil : ∀ s0 : jsstring, ∀ d : N, d ∈ [] → d ∈ s0).
  { intros s0 d Hd. by apply elem_of_nil in Hd. }
  induction s as [s IH] using (induction_ltof1 _ (@length N)).
  unfold ltof in IH. destruct s as [|c s].
  { constructor; [apply Hnil | constructor]. }
  simpl.
  destruct (c =? 10).
  { constructor; [apply Hnil|]. apply Hw, IH. simpl. lia. }
  destruct (c =? 13); [|apply Hcont, IH; simpl; lia].
  destruct s as [|d s']; [apply Hcont, IH; simpl; lia|].
  destruct (d =? 10); [|apply Hcont, IH; simpl; lia].
  constructor; [apply Hnil|]. apply Hw, Hw, IH. simpl. lia.
Qed.

Lemma split_lines_single e : 10 ∉ e → split_lines e = [e].
Proof.
  induction e as [|c e IH]; [done|]. rewrite not_elem_of_cons.
  intros [Hc He]. simpl. destruct (N.eqb_spec c 10); [congruence|].
  rewrite IH by done.
  destruct (c =? 13); [|done]. destruct e as [|d e']; [done|].
  apply not_elem_of_cons in He as [Hd _].
  by destruct (N.eqb_spec d 10); [congruence|].
Qed.

Lemma split_lines_line e rest :
  10 ∉ e → last e ≠ Some 13 →
  split_lines (e ++ 10 :: rest) = e :: split_lines rest.
Proof.
  induction e as [|c e IH]; [done|]. rewrite not_elem_of_cons.
  intros [Hc He] Hlast.
  assert (IH' : e ≠ [] → split_lines (e ++ 10 :: rest) = e :: split_lines rest).
  { intros Hne. apply IH; [done|]. by destruct e. }
  cbn [app split_lines]. destruct (N.eqb_spec c 10); [congruence|].
  destruct (N.eqb_spec c 13) as [->|Hcr].
  - destruct e as [|d e']; [done|].
    apply not_elem_of_cons in He as [Hd _]. cbn [app].
    destruct (N.eqb_spec d 10); [congruence|].
    change (d :: e' ++ 10 :: rest) with ((d :: e') ++ 10 :: rest).
    by rewrite IH'.
  - destruct e as [|d e'].
    + simpl. done.
    + by rewrite IH'.
Qed.

Lemma line_safe_last e : line_safe e → last e ≠ Some 13.
Proof.
  intros (_ & Ht & _) Hl. by pose proof (trim_fixed_last _ _ Ht Hl).
Qed.

Lemma split_lines_join l :
  Forall line_safe l → l ≠ [] → split_lines (join [10] l) = l.
Proof.
  induction 1 as [|e l He Hl IH]; [done|]. intros _.
  destruct l as [|e' l].
  - simpl. apply split_lines_single. apply He.
  - change (join [10] (e :: e' :: l)) with (e ++ 10 :: join [10] (e' :: l)).
    rewrite split_lines_line; [by rewrite IH | apply He | by apply line_safe_last].
Qed.

Lemma filter_trim_safe l :
  Forall line_safe l → List.filter truthy (trim <$> l) = l.
Proof.
  induction 1 as [|e l (Hne & Ht & _) _ IH]; [done|].
  rewrite fmap_cons. cbn [List.filter]. rewrite Ht.
  destruct e as [|c e]; [done|]. cbn [truthy]. by rewrite IH.
Qed.

Lemma bind_nil {A B} (f : A → list B) (l : list A) :
  (∀ x, x ∈ l → f x = []) → l ≫= f = [].
Proof.
  induction l as [|x l IH]; intros H; [done|].
  cbn [mbind list_bind]. rewrite (H x) by left.
  apply IH. intros y Hy. apply H. by right.
Qed.

Lemma flattened_entries_safe value :
  Forall line_safe (flattened_entries value).
Proof.
  unfold flattened_entries. rewrite or_empty_id.
  apply Forall_forall. intros x Hx.
  apply list_elem_of_bind in Hx as (ln & Hx & Hln).
  apply elem_of_List_filter in Hx as [Hx Htx].
  apply list_elem_of_fmap in Hx as (q & -> & Hq).
  apply elem_of_List_filter in Hln as [Hln _].
  apply list_elem_of_fmap in Hln as (p & -> & Hp).
  pose proof (split_on_pieces 44 (trim p)) as Hpieces.
  rewrite Forall_forall in Hpieces. destruct (Hpieces q Hq) as [Hcomma Hin].
  unfold line_safe. split_and!.
  - by destruct (trim q).
  - apply trim_idemp.
  - intros H10%elem_of_trim%Hin%elem_of_trim.
    assert (Hlines : ∀ s, Forall (λ p, 10 ∉ p) (split_lines s)).
    { clear. intros s.
      induction s as [s IH] using (induction_ltof1 _ (@length N)).
      unfold ltof in IH. destruct s as [|c s].
      { constructor; [apply not_elem_of_nil | constructor]. }
      simpl.
      assert (Hcont : ∀ l : list jsstring, c ≠ 10 →
        Forall (λ p, 10 ∉ p) l →
        Forall (λ p, 10 ∉ p)
          match l with l0 :: ls => (c :: l0) :: ls | [] => [[c]] end).
      { intros [|l0 ls] Hc H.
        - constructor; [|constructor].
          rewrite list_elem_of_singleton. congruence.
        - inversion H; subst. constructor; [|done].
          rewrite not_elem_of_cons. split; [congruence|done]. }
      destruct (N.eqb_spec c 10).
      { constructor; [apply not_elem_of_nil|]. apply IH. simpl. lia. }
      destruct (c =? 13); [|apply Hcont; [done|]; apply IH; simpl; lia].
      destruct s as [|d s'];
        [apply Hcont; [done|]; apply IH; simpl; lia|].
      destruct (N.eqb_spec d 10);
        [|apply Hcont; [done|]; apply IH; simpl; lia].
      constructor; [apply not_elem_of_nil|]. apply IH. simpl. lia. }
    specialize (Hlines value). rewrite Forall_forall in Hlines.
    by apply (Hlines p Hp).
  - intros H44%elem_of_trim. by apply Hcomma.
Qed.

Lemma flattened_join l :
  Forall line_safe l → flattened_entries (join [10] l) = l.
Proof.
  intros Hl. unfold flattened_entries. rewrite or_empty_id.
  destruct l as [|e l]; [reflexivity|].
  rewrite split_lines_join, filter_trim_safe by done.
  induction Hl as [|x xs (Hne & Ht & _ & H44) _ IH]; [done|].
  cbn [mbind list_bind]. rewrite split_on_single by done.
  simpl. rewrite Ht, IH. by destruct x.
Qed.

(** X1. What the Save handler reads from the textarea is made of entries
    that are not empty, are trimmed, and hold neither a comma nor a line
    feed; written back one entry per line and read again, it is the same
    list. *)
Theorem flattened_entries_line_safe value :
  Forall line_safe (flattened_entries value)
  ∧ flattened_entries (join [10] (flattened_entries value))
    = flattened_entries value.
Proof.
  split; [apply flattened_entries_safe|].
  apply flattened_join, flattened_entries_safe.
Qed.

Lemma normalize_newlines_id s : 13 ∉ s → normalize_newlines s = s.
Proof.
  induction s as [|c s IH]; [done|]. intros H.
  apply not_elem_of_cons in H as [Hc Hs]. simpl.
  destruct (N.eqb_spec c 13) as [->|_]; [done|]. by rewrite IH.
Qed.

Lemma normalize_newlines_no_cr s : 13 ∉ normalize_newlines s.
Proof.
  induction s as [s IH] using (induction_ltof1 _ (@length N)).
  unfold ltof in IH. destruct s as [|c s]; [apply not_elem_of_nil|].
  simpl. destruct (N.eqb_spec c 13) as [->|Hc].
  - destruct s as [|d s].
    { apply not_elem_of_cons. split; [done | apply not_elem_of_nil]. }
    destruct (d =? 10); apply not_elem_of_cons; (split; [done|]);
      apply IH; simpl; lia.
  - apply not_elem_of_cons. split; [congruence|]. apply IH. simpl. lia.
Qed.

Lemma elem_of_join c sep l :
  c ∈ join sep l → c ∈ sep ∨ ∃ e, e ∈ l ∧ c ∈ e.
Proof.
  induction l as [|x l IH]; [by intros ?%elem_of_nil|].
  destruct l as [|y l].
  - intros Hc. right. exists x. split; [left | done].
  - change (join sep (x :: y :: l)) with (x ++ sep ++ join sep (y :: l)).
    rewrite !elem_of_app. intros [Hc|[Hc|Hc]].
    + right. exists x. split; [left | done].
    + by left.
    + destruct (IH Hc) as [?|(e & He & Hce)]; [by left|].
      right. exists e. split; [by right | done].
Qed.

Lemma flattened_entries_chars value e c :
  e ∈ flattened_entries value → c ∈ e → c ∈ value.
Proof.
  unfold flattened_entries. rewrite or_empty_id. intros He Hc.
  apply list_elem_of_bind in He as (ln & He & Hln).
  apply elem_of_List_filter in He as [He _].
  apply list_elem_of_fmap in He as (q & -> & Hq).
  apply elem_of_List_filter in Hln as [Hln _].
  apply list_elem_of_fmap in Hln as (p & -> & Hp).
  pose proof (split_on_pieces 44 (trim p)) as Hpieces.
  pose proof (split_lines_pieces value) as Hlines.
  rewrite Forall_forall in Hpieces, Hlines.
  apply (Hlines p Hp), elem_of_trim.
  apply (proj2 (Hpieces q Hq)). by apply elem_of_trim.
Qed.

Lemma flattened_normalized_join l :
  Forall textarea_safe l →
  flattened_entries (normalize_newlines (join [10] l)) = l.
Proof.
  intros Hl. rewrite normalize_newlines_id.
  - apply flattened_join. eapply Forall_impl; [exact Hl|]. by intros e [? _].
  - intros [Hc|(e & He & Hce)]%elem_of_join.
    + by apply list_elem_of_singleton in Hc.
    + rewrite Forall_forall in Hl. by destruct (Hl e He).
Qed.

(** X2. A list of entries, written one per line into the textarea, is read
    back as it is exactly when its entries are not empty, trimmed and free
    of commas, line feeds and carriage returns. *)
Theorem flattened_entries_join l :
  Forall textarea_safe l
  ↔ flattened_entries (normalize_newlines (join [10] l)) = l.
Proof.
  split; [apply flattened_normalized_join|].
  intros H. apply Forall_forall. intros e He. rewrite <- H in He. split.
  - pose proof (flattened_entries_safe (normalize_newlines (join [10] l)))
      as Hs.
    rewrite Forall_forall in Hs. by apply Hs.
  - intros Hc. apply (normalize_newlines_no_cr (join [10] l)).
    by eapply flattened_entries_chars.
Qed.

Lemma elem_of_trim_start_keep c s :
  c ∈ s → is_white_space c = false → c ∈ trim_start s.
Proof.
  induction s as [|d s IH]; [done|]. intros [->|Hc]%elem_of_cons Hw; simpl.
  - rewrite Hw. left.
  - destruct (is_white_space d); [by apply IH | by right].
Qed.

Lemma elem_of_trim_keep c s :
  c ∈ s → is_white_space c = false → c ∈ trim s.
Proof.
  intros Hc Hw. unfold trim. rewrite elem_of_reverse.
  apply elem_of_trim_start_keep; [|done]. rewrite elem_of_reverse.
  by apply elem_of_trim_start_keep.
Qed.

Lemma split_on_covers sep c s :
  c ∈ s → c ≠ sep → ∃ p, p ∈ split_on sep s ∧ c ∈ p.
Proof.
  induction s as [|d s IH]; [by intros ?%elem_of_nil|].
  intros Hc Hne. simpl.
  assert (Hhead : ∀ l : list jsstring, ∃ p,
    p ∈ match l with l0 :: ls => (d :: l0) :: ls | [] => [[d]] end
    ∧ d ∈ p).
  { intros [|l0 ls]; eexists; (split; [left|left]). }
  assert (Htail : c ∈ s → ∃ p,
    p ∈ match split_on sep s with l0 :: ls => (d :: l0) :: ls | [] => [[d]] end
    ∧ c ∈ p).
  { intros Hs. destruct (IH Hs Hne) as (p & Hp & Hcp).
    destruct (split_on sep s) as [|l0 ls]; [by apply elem_of_nil in Hp|].
    apply elem_of_cons in Hp as [->|Hp].
    - exists (d :: l0). split; [left | by right].
    - exists p. split; [by right | done]. }
  apply elem_of_cons in Hc as [->|Hc].
  - destruct (N.eqb_spec d sep); [done|]. apply Hhead.
  - destruct (N.eqb_spec d sep).
    + destruct (IH Hc Hne) as (p & Hp & Hcp). exists p. split; [by right|done].
    + by apply Htail.
Qed.

Lemma split_lines_covers c s :
  c ∈ s → c ≠ 10 → c ≠ 13 → ∃ p, p ∈ split_lines s ∧ c ∈ p.
Proof.
  intros Hc H10 H13. revert Hc.
  induction s as [s IH] using (induction_ltof1 _ (@length N)).
  unfold ltof in IH. destruct s as [|d s]; [by intros ?%elem_of_nil|].
  assert (Hcont : c ∈ d :: s → ∃ p,
    p ∈ match split_lines s with l0 :: ls => (d :: l0) :: ls | [] => [[d]] end
    ∧ c ∈ p).
  { intros [->|Hs]%elem_of_cons.
    - destruct (split_lines s); eexists; (split; [left|left]).
    - destruct (IH s) as (p & Hp & Hcp); [simpl; lia | done |].
      destruct (split_lines s) as [|l0 ls]; [by apply elem_of_nil in Hp|].
      apply elem_of_cons in Hp as [->|Hp].
      + exists (d :: l0). split; [left | by right].
      + exists p. split; [by right | done]. }
  intros Hc. simpl.
  destruct (N.eqb_spec d 10) as [->|Hd10].
  { apply elem_of_cons in Hc as [?|Hc]; [done|].
    destruct (IH s) as (p & Hp & Hcp); [simpl; lia | done |].
    exists p. split; [by right | done]. }
  destruct (N.eqb_spec d 13) as [->|Hd13]; [|by apply Hcont].
  destruct s as [|e s']; [by apply Hcont|].
  destruct (N.eqb_spec e 10) as [->|He10]; [|by apply Hcont].
  apply elem_of_cons in Hc as [?|Hc]; [done|].
  apply elem_of_cons in Hc as [?|Hc]; [done|].
  destruct (IH s') as (p & Hp & Hcp); [simpl; lia | done |].
  exists p. split; [by right | done].
Qed.

(** The textarea gives no entry exactly when it holds nothing but white
    space and commas. *)
Lemma flattened_entries_nil value :
  flattened_entries value = []
  ↔ Forall (λ c, is_white_space c = true ∨ c = 44) value.
Proof.
  unfold flattened_entries. rewrite or_empty_id. split.
  - intros Hnil. apply Forall_forall. intros c Hc.
    destruct (is_white_space c) eqn:Hw; [by left|]. right.
    destruct (N.eq_dec c 44) as [|H44]; [done|]. exfalso.
    assert (H10 : c ≠ 10) by (by intros ->).
    assert (H13 : c ≠ 13) by (by intros ->).
    destruct (split_lines_covers c value Hc H10 H13) as (p & Hp & Hcp).
    destruct (split_on_covers 44 c (trim p)) as (q & Hq & Hcq);
      [by apply elem_of_trim_keep | done |].
    assert (Hin : trim q ∈ (@nil jsstring)); [|by apply elem_of_nil in Hin].
    rewrite <- Hnil. apply list_elem_of_bind. exists (trim p). split.
    + apply elem_of_List_filter. split.
      * apply list_elem_of_fmap. by exists q.
      * pose proof (elem_of_trim_keep _ _ Hcq Hw) as Hk.
        destruct (trim q); [by apply elem_of_nil in Hk | done].
    + apply elem_of_List_filter. split.
      * apply list_elem_of_fmap. by exists p.
      * pose proof (elem_of_trim_keep _ _ Hcp Hw) as Hk.
        destruct (trim p); [by apply elem_of_nil in Hk | done].
  - intros Hall. rewrite Forall_forall in Hall.
    apply bind_nil. intros ln Hln.
    apply elem_of_List_filter in Hln as [Hln _].
    apply list_elem_of_fmap in Hln as (p & -> & Hp).
    pose proof (split_lines_pieces value) as Hpieces.
    rewrite Forall_forall in Hpieces. specialize (Hpieces p Hp).
    assert (Hq : ∀ q, q ∈ split_on 44 (trim p) → trim q = []).
    { intros q Hq. apply trim_white, Forall_forall. intros c Hc.
      pose proof (split_on_pieces 44 (trim p)) as Hs.
      rewrite Forall_forall in Hs. destruct (Hs q Hq) as [H44 Hin].
      assert (Hcv : c ∈ value) by (by apply Hpieces, elem_of_trim, Hin).
      destruct (Hall c Hcv) as [Hw| ->]; [done|]. by destruct H44. }
    induction (split_on 44 (trim p)) as [|q qs IH]; [done|].
    rewrite fmap_cons. cbn [List.filter]. rewrite (Hq q) by left.
    cbn [truthy]. apply IH. intros q' Hq'. apply Hq. by right.
Qed.

(** ** The blocklist store, further *)

Lemma first_seen_NoDup l : NoDup l → first_seen l = l.
Proof.
  induction 1 as [|x l Hx _ IH]; [done|]. simpl. rewrite IH. f_equal.
  clear IH. induction l as [|y l IH]; [done|].
  apply not_elem_of_cons in Hx as [Hxy Hx].
  rewrite filter_cons_True by congruence. by rewrite IH.
Qed.

Lemma unique_entries_idemp entries :
  unique_entries (unique_entries entries) = unique_entries entries.
Proof.
  set (u := unique_entries entries).
  assert (Hu : ∀ x, x ∈ u → truthy (trim x) = true ∧ trim x = x)
    by (intros x; apply unique_entries_trimmed).
  assert (Hnd : NoDup u).
  { unfold u, unique_entries. rewrite new_Set_first_seen.
    apply NoDup_first_seen. }
  unfold unique_entries at 1. rewrite new_Set_first_seen.
  assert (Hm : List.filter truthy ((λ x, trim (or_empty x)) <$> u) = u).
  { clear Hnd. induction u as [|x u IH]; [done|].
    rewrite fmap_cons. cbn [List.filter]. rewrite (or_empty_id x).
    destruct (Hu x) as [Ht Hx]; [left|]. rewrite Hx in Ht |- *. rewrite Ht.
    f_equal. apply IH. intros y Hy. apply Hu. by right. }
  rewrite Hm. by apply first_seen_NoDup.
Qed.

Lemma loadBlockedList_clean st :
  Forall (λ e, e ≠ [] ∧ trim e = e) (loadBlockedList st).
Proof.
  assert (Hdef : Forall (λ e, e ≠ [] ∧ trim e = e) DEFAULT_BLOCKLIST).
  { unfold DEFAULT_BLOCKLIST.
    repeat (constructor; [split; [discriminate | reflexivity]|]).
    constructor. }
  pose proof (loadBlockedList_cases st) as Hc.
  destruct (getItem st STORAGE_KEY) as [[raw|]|]; [|by rewrite Hc..].
  destruct (truthy raw); [|by rewrite Hc].
  destruct (JSON_parse raw) as [v|]; [|by rewrite Hc].
  destruct v; try (by rewrite Hc). rewrite Hc.
  unfold nonblank_trimmed. apply Forall_forall. intros e He.
  apply list_elem_of_omap in He as (v & _ & Hv).
  destruct v as [| | |s| |]; try done.
  destruct (truthy (trim s)) eqn:Et; [|done]. injection Hv as <-.
  split; [by destruct (trim s) | apply trim_idemp].
Qed.

Lemma unique_entries_clean l :
  Forall (λ e, e ≠ [] ∧ trim e = e) l → unique_entries l = first_seen l.
Proof.
  intros Hl. unfold unique_entries. rewrite new_Set_first_seen. f_equal.
  induction Hl as [|x l [Hne Ht] _ IH]; [done|].
  rewrite fmap_cons. cbn [List.filter]. rewrite (or_empty_id x), Ht, IH.
  by destruct x.
Qed.

(** X3. Whatever is persisted, the list [loadBlockedList] returns has no
    empty entry and no entry with white space at either end; so saving it
    would drop its repetitions and nothing else. *)
Theorem loadBlockedList_entries_clean st :
  Forall (λ e, e ≠ [] ∧ trim e = e) (loadBlockedList st)
  ∧ unique_entries (loadBlockedList st) = first_seen (loadBlockedList st).
Proof.
  split; [apply loadBlockedList_clean|].
  apply unique_entries_clean, loadBlockedList_clean.
Qed.

(** X4. Saving again what [loadBlockedList] returns after a save that
    succeeded succeeds and changes nothing in storage; the list that
    [saveBlockedList] writes is left as it is by a second normalisation. *)
Theorem save_loaded_is_noop st entries st' :
  saveBlockedList st entries = (true, st') →
  saveBlockedList st' (loadBlockedList st') = (true, st')
  ∧ unique_entries (unique_entries entries) = unique_entries entries.
Proof.
  intros Hs. split; [|apply unique_entries_idemp].
  rewrite (load_after_save _ _ _ Hs).
  unfold saveBlockedList in *. rewrite unique_entries_idemp.
  unfold setItem in *.
  destruct (accessible st); [|done].
  case_bool_decide as Hq; [|done]. injection Hs as <-. simpl.
  rewrite insert_insert_eq. by rewrite bool_decide_eq_true_2.
Qed.

(** ** The dialog *)

Lemma DEFAULT_BLOCKLIST_line_safe : Forall line_safe DEFAULT_BLOCKLIST.
Proof.
  apply Forall_forall. intros e He. unfold DEFAULT_BLOCKLIST in He.
  rewrite !elem_of_cons, elem_of_nil in He.
  destruct He as [->|[->|[->|[->|[->|[->|[]]]]]]];
    (split_and!; [discriminate | reflexivity | |]);
    intros H; apply list_elem_of_In in H; vm_compute in H;
    intuition discriminate.
Qed.

Lemma DEFAULT_BLOCKLIST_textarea_safe : Forall textarea_safe DEFAULT_BLOCKLIST.
Proof.
  pose proof DEFAULT_BLOCKLIST_line_safe as Hs.
  rewrite Forall_forall in Hs. apply Forall_forall. intros e He.
  split; [by apply Hs|]. unfold DEFAULT_BLOCKLIST in He.
  repeat (apply elem_of_cons in He as [->|He];
          [apply (bool_decide_unpack _); by vm_compute|]).
  by apply elem_of_nil in He.
Qed.

(** X5. The first opening of the dialog fills the textarea with the stored
    list, one entry per line; when no stored entry holds a comma, a line
    feed or a carriage return, the Save handler reads back the stored list.
    After Reset it reads back the default list.  Opening the dialog again
    after Cancel shows the text as it was left, whatever storage holds by
    then. *)
Theorem openOptionsDialog_roundtrip ui :
  (textarea_value ui = None →
   Forall (λ e, (10 ∉ e) ∧ (13 ∉ e) ∧ (44 ∉ e))
     (loadBlockedList (localStorage (ui_page ui))) →
   ∃ v, textarea_value (openOptionsDialog ui) = Some v
        ∧ flattened_entries v = loadBlockedList (localStorage (ui_page ui)))
  ∧ (∃ v, textarea_value (resetBtn_click ui) = Some v
          ∧ flattened_entries v = DEFAULT_BLOCKLIST)
  ∧ (∀ v st, textarea_value ui = Some v →
       textarea_value
         (openOptionsDialog
            (mkUi (set_localStorage (ui_page (cancelBtn_click ui)) st)
                  (textarea_value (cancelBtn_click ui))))
       = Some v).
Proof.
  split_and!.
  - intros Hnone Hsafe. unfold openOptionsDialog. rewrite Hnone.
    eexists; split; [done|]. apply flattened_normalized_join.
    pose proof (loadBlockedList_clean (localStorage (ui_page ui)))
      as Hclean.
    rewrite Forall_forall in Hclean, Hsafe. apply Forall_forall.
    intros e He. destruct (Hclean e He), (Hsafe e He) as (? & ? & ?).
    by split_and!.
  - eexists; split; [done|]. apply flattened_normalized_join.
    apply DEFAULT_BLOCKLIST_textarea_safe.
  - intros v st Hv. unfold openOptionsDialog, cancelBtn_click. simpl.
    by rewrite Hv.
Qed.

(** ** Canonical keys *)

Lemma ascii_lower_upper c : ascii_lower (ascii_upper c) = ascii_lower c.
Proof.
  unfold ascii_lower, ascii_upper.
  destruct (N.leb_spec 97 c), (N.leb_spec c 122); simpl;
    repeat (match goal with
            | |- context [?a <=? ?b] => destruct (N.leb_spec a b)
            end; simpl); lia.
Qed.

Lemma ascii_upper_bound c : c < 128 → ascii_upper c < 128.
Proof.
  unfold ascii_upper.
  destruct (N.leb_spec 97 c), (N.leb_spec c 122); simpl; lia.
Qed.

Section CanonInsensitive.

Variable toLowerCase : jsstring → jsstring.

Hypothesis toLowerCase_ascii :
  ∀ s, is_ascii s → toLowerCase s = ascii_lower <$> s.

(** X6. On ASCII names the canonical key ignores case and everything that
    is not a letter or a digit: the key of a concatenation is the
    concatenation of the keys, a character that is neither letter nor digit
    (a dot, a hyphen, an underscore) can be put in or left out anywhere, and
    a letter can be replaced by its capital. *)
Theorem canon_ignores_case_and_separators s1 s2 :
  is_ascii s1 → is_ascii s2 →
  canon toLowerCase (Some (s1 ++ s2))
  = canon toLowerCase (Some s1) ++ canon toLowerCase (Some s2)
  ∧ (∀ c, c < 128 → is_az09 (ascii_lower c) = false →
       canon toLowerCase (Some (s1 ++ c :: s2))
       = canon toLowerCase (Some (s1 ++ s2)))
  ∧ (∀ c, c < 128 →
       canon toLowerCase (Some (s1 ++ ascii_upper c :: s2))
       = canon toLowerCase (Some (s1 ++ c :: s2))).
Proof.
  intros H1 H2.
  assert (Happ : ∀ a b, is_ascii a → is_ascii b →
    canon toLowerCase (Some (a ++ b))
    = canon toLowerCase (Some a) ++ canon toLowerCase (Some b)).
  { intros a b Ha Hb.
    rewrite !(canon_ascii toLowerCase toLowerCase_ascii)
      by (done || by apply Forall_app).
    by rewrite fmap_app, filter_app. }
  split_and!.
  - by apply Happ.
  - intros c Hc Hno.
    rewrite !Happ by (done || by constructor). f_equal.
    rewrite !(canon_ascii toLowerCase toLowerCase_ascii)
      by (done || by constructor).
    rewrite fmap_cons, filter_cons_False; [done|].
    rewrite Hno. by intros [].
  - intros c Hc.
    assert (Hu : ascii_upper c < 128) by (by apply ascii_upper_bound).
    rewrite !Happ by (done || by constructor). f_equal.
    rewrite !(canon_ascii toLowerCase toLowerCase_ascii)
      by (done || by constructor).
    by rewrite !fmap_cons, ascii_lower_upper.
Qed.

End CanonInsensitive.

(** ** Seller extraction, further *)

Lemma decodeURIComponent_throws s e :
  decodeURIComponent s = Throw e → e = URIError.
Proof.
  unfold decodeURIComponent.
  destruct (percent_items s ≫= utf8_items); by intros [= <-].
Qed.

Lemma href_seller_throws a e :
  href_seller a = Throw e →
  e = URIError
  ∧ ∃ seg, match_seller_path (default [] (el_attrs a !! "href"%string))
           = Some seg
           ∧ decodeURIComponent seg = Throw URIError.
Proof.
  unfold href_seller.
  destruct (match_seller_path _) as [seg|]; [|done].
  destruct (decodeURIComponent seg) as [d|e'] eqn:Ed; simpl; [done|].
  intros [= <-]. pose proof (decodeURIComponent_throws _ _ Ed) as ->.
  eauto.
Qed.

Lemma or_else_Throw m n e :
  or_else m n = Throw e → m = Throw e ∨ (m = Normal None ∧ n = Throw e).
Proof. destruct m as [[?|]|]; simpl; eauto; done. Qed.

(** An extraction that throws throws [URIError], from the address of a
    seller link of the row. *)
Lemma extractSellerFromRow_throws row e :
  extractSellerFromRow row = Throw e →
  e = URIError
  ∧ ∃ a seg, a ∈ descendants row ∧ sel_seller_anchor a = true
      ∧ match_seller_path (default [] (el_attrs a !! "href"%string))
        = Some seg
      ∧ decodeURIComponent seg = Throw URIError.
Proof.
  unfold extractSellerFromRow, strategy1, strategy2, strategy3, strategy4,
    querySelector.
  intros H.
  repeat match goal with
  | H : or_else _ _ = Throw _ |- _ => apply or_else_Throw in H as [H|[_ H]]
  end;
  repeat match goal with
  | H : match ?x with _ => _ end = Throw _ |- _ =>
      destruct x eqn:?; try done
  end;
  repeat match goal with
  | H : List.find _ _ = Some _ |- _ =>
      apply find_some in H as [?%list_elem_of_In ?]
  | H : sel_seller_link _ = true |- _ =>
      apply andb_true_iff in H as [_ H]
  | H : href_seller _ = Throw _ |- _ =>
      apply href_seller_throws in H as (-> & seg & ? & ?)
  end; eauto 10.
  apply or_else_Throw in H as [H|[_ H]]; [|done].
  apply href_seller_throws in H as (-> & seg & ? & ?). eauto 10.
Qed.

Lemma strip_prefix_ci_suffix p : ∀ s r,
  strip_prefix_ci p s = Some r → r `suffix_of` s.
Proof.
  induction p as [|a p IH]; intros s r H; simpl in H.
  - by simplify_eq.
  - destruct s as [|b s]; [done|]. destruct (a =? ascii_lower b); [|done].
    apply suffix_cons_r. by apply IH.
Qed.

Lemma elem_of_take_segment c s : c ∈ take_segment s → c ∈ s.
Proof.
  induction s as [|d s IH]; [done|]. simpl.
  destruct (is_segment_char d); [|by intros ?%elem_of_nil].
  intros [->|H]%elem_of_cons; [left | right; by apply IH].
Qed.

Lemma elem_of_match_seller_path c s seg :
  match_seller_path s = Some seg → c ∈ seg → c ∈ s.
Proof.
  induction s as [|d s IH]; [done|]. cbn -[strip_prefix_ci js].
  intros H Hc.
  assert (Hrec : match_seller_path s = Some seg → c ∈ d :: s)
    by (intros H'; right; by apply IH).
  destruct (strip_prefix_ci (js "/seller/") (d :: s)) as [r|] eqn:Er;
    [|by apply Hrec].
  destruct (take_segment r) as [|x seg'] eqn:Es; [by apply Hrec|].
  injection H as <-. rewrite <- Es in Hc.
  apply elem_of_take_segment in Hc.
  destruct (strip_prefix_ci_suffix _ _ _ Er) as [k ->].
  apply elem_of_app. by right.
Qed.

Lemma decodeURIComponent_plain s : 37 ∉ s → decodeURIComponent s = Normal s.
Proof.
  intros Hs. unfold decodeURIComponent.
  assert (Hp : percent_items s = Some (Raw <$> s)).
  { induction s as [|c s IH]; [done|].
    apply not_elem_of_cons in Hs as [Hc Hs]. simpl.
    destruct (N.eqb_spec c 37); [congruence|]. by rewrite IH. }
  rewrite Hp. simpl.
  assert (Hu : utf8_items (Raw <$> s) = Some s).
  { clear. induction s as [|c s IH]; [done|].
    rewrite fmap_cons. cbn [utf8_items]. by rewrite IH. }
  by rewrite Hu.
Qed.

(** X7. [extractSellerFromRow] returns [null] or a non-empty string; when
    it throws it throws [URIError], and then a seller link of the row has an
    address whose seller segment cannot be decoded. *)
Theorem extractSellerFromRow_outcomes row :
  match extractSellerFromRow row with
  | Normal (Some s) => s ≠ []
  | Normal None => True
  | Throw e =>
      e = URIError
      ∧ ∃ a seg, a ∈ descendants row ∧ sel_seller_anchor a = true
          ∧ match_seller_path (default [] (el_attrs a !! "href"%string))
            = Some seg
          ∧ decodeURIComponent seg = Throw URIError
  end.
Proof.
  destruct (extractSellerFromRow row) as [[s|]|e] eqn:E; [|done|].
  - apply extractSellerFromRow_truthy in E. by destruct s.
  - by apply extractSellerFromRow_throws.
Qed.

(** X8. A row none of whose link addresses holds a percent sign never makes
    the extraction throw. *)
Theorem extractSellerFromRow_plain_hrefs row :
  Forall (λ a, 37 ∉ default [] (el_attrs a !! "href"%string))
    (descendants row) →
  ∃ o, extractSellerFromRow row = Normal o.
Proof.
  intros Hplain.
  destruct (extractSellerFromRow row) as [o|e] eqn:E; [by eauto|].
  apply extractSellerFromRow_throws in E
    as (_ & a & seg & Ha & _ & Hseg & Hdec).
  rewrite Forall_forall in Hplain. specialize (Hplain a Ha).
  rewrite decodeURIComponent_plain in Hdec; [done|].
  intros Hc. apply Hplain. by eapply elem_of_match_seller_path.
Qed.

(** ** The reconciliation pass, further *)

Lemma forEach_rows_Forall2 sel f rows :
  Forall2 (λ r r', r' = r ∨ (sel r = true ∧ r' = (f r).1))
    rows (forEach_rows sel f rows).1.
Proof.
  induction rows as [|r rows IH]; [constructor|]. simpl.
  destruct (sel r) eqn:Es.
  - destruct (f r) as [r' [u|e]] eqn:Ef.
    + destruct (forEach_rows sel f rows). simpl in *.
      constructor; [|done]. right. by rewrite Ef.
    + simpl. constructor; [right; by rewrite Ef|].
      apply Forall2_same_length_lookup. split; [done|].
      intros i x y Hx Hy. left. congruence.
  - destruct (forEach_rows sel f rows). simpl in *.
    constructor; [by left | done].
Qed.

Lemma forEach_rows_completes sel f rows :
  Forall (λ r, sel r = true → ∃ u, (f r).2 = Normal u) rows →
  (forEach_rows sel f rows).2 = Normal ().
Proof.
  induction 1 as [|r rows Hr _ IH]; [done|]. simpl.
  destruct (sel r).
  - destruct Hr as [u Hu]; [done|]. destruct (f r) as [r' c].
    simpl in Hu. subst c. by destruct (forEach_rows sel f rows).
  - by destruct (forEach_rows sel f rows).
Qed.

Lemma forEach_rows_throw sel f rows : ∀ i r e,
  rows !! i = Some r → sel r = true → (f r).2 = Throw e →
  (∀ j rj, (j < i)%nat → rows !! j = Some rj → sel rj = true →
     ∃ u, (f rj).2 = Normal u) →
  (forEach_rows sel f rows).2 = Throw e
  ∧ (forEach_rows sel f rows).1 !! i = Some (f r).1
  ∧ ∀ j, (i < j)%nat → (forEach_rows sel f rows).1 !! j = rows !! j.
Proof.
  induction rows as [|r0 rows IH]; intros i r e Hi Hs He Hreach; [done|].
  destruct i as [|i]; simpl in Hi.
  - simplify_eq. simpl. rewrite Hs. destruct (f r) as [r' c].
    simpl in He. subst c. simpl. split_and!; [done..|].
    intros [|j] Hj; [lia|done].
  - destruct (IH i r e Hi Hs He) as (H1 & H2 & H3).
    { intros j rj Hj. apply (Hreach (S j)). lia. }
    simpl. destruct (sel r0) eqn:Es0.
    + destruct (Hreach 0%nat r0) as [u Hu]; [lia|done|done|].
      destruct (f r0) as [r0' c]. simpl in Hu. subst c.
      destruct (forEach_rows sel f rows). simpl in *.
      split_and!; [done..|]. intros [|j] Hj; [lia|]. apply H3. lia.
    + destruct (forEach_rows sel f rows). simpl in *.
      split_and!; [done..|]. intros [|j] Hj; [lia|]. apply H3. lia.
Qed.

Lemma count_blocked_le l l' :
  Forall2 (λ r r', blocked r = true → blocked r' = true) l l' →
  (length (List.filter blocked l) ≤ length (List.filter blocked l'))%nat.
Proof.
  induction 1 as [|r r' l l' Hr _ IH]; [done|]. simpl.
  destruct (blocked r); [rewrite Hr by done|destruct (blocked r')];
    simpl; lia.
Qed.

Lemma count_blocked_fmap (g : Row → Row) l :
  (∀ r, blocked (g r) = blocked r) →
  length (List.filter blocked (g <$> l)) = length (List.filter blocked l).
Proof.
  intros Hg. induction l as [|r l IH]; [done|].
  rewrite fmap_cons. simpl. rewrite Hg. destruct (blocked r); simpl; lia.
Qed.

Lemma count_toggle show rows :
  length (List.filter blocked (update_rows blocked (toggle_row show) rows))
  = length (List.filter blocked rows).
Proof.
  apply count_blocked_fmap. intros r.
  destruct (blocked r) eqn:Eb; [|done].
  by destruct (toggle_row_flags show r) as (-> & _).
Qed.

Lemma updateControlUI_consistent pg : control_consistent (updateControlUI pg).
Proof.
  unfold control_consistent, updateControlUI.
  destruct (control pg) as [c0|] eqn:Ec; [|by rewrite Ec].
  intros c [= <-].
  change (countBlockedRows (set_control pg _)) with (countBlockedRows pg).
  change (currentlyShowingHidden (set_control pg _))
    with (currentlyShowingHidden pg).
  destruct (Nat.eqb_spec (countBlockedRows pg) 0) as [H0|H0]; simpl.
  - by rewrite H0.
  - split_and!; [done | by split | done].
Qed.

Section PassFurther.

Variable toLowerCase : jsstring → jsstring.

Lemma process_row_frame bs r :
  let r' := (process_row toLowerCase bs r).1 in
  descendants r' = descendants r
  ∧ (∀ k, k ≠ BLOCKED → k ≠ HIDDEN → k ≠ PROCESSED →
       attrs r' !! k = attrs r !! k)
  ∧ (display r' = display r ∨ display r' = js "none").
Proof.
  destruct (processed r) eqn:Ep.
  { rewrite process_row_processed by done. simpl. eauto. }
  rewrite process_row_unprocessed by done. cbv zeta.
  destruct (extractSellerFromRow r) as [[raw|]|]; simpl;
    [destruct (Set_has _ _); simpl|..];
    (split_and!; [done| |by eauto]);
    intros k ???; unfold hideRow, setAttribute, set_display; simpl;
    by rewrite ?lookup_insert_ne by done.
Qed.

Lemma process_row_completion bs r :
  (∃ u, (process_row toLowerCase bs r).2 = Normal u)
  ↔ processed r = true ∨ ∃ o, extractSellerFromRow r = Normal o.
Proof.
  split.
  - intros [u Hu]. destruct (processed r) eqn:Ep; [by left|]. right.
    rewrite process_row_unprocessed in Hu by done. cbv zeta in Hu.
    destruct (extractSellerFromRow r) as [o|e]; [by eauto|done].
  - intros [Hp|Ho]; [|by apply process_row_normal].
    rewrite process_row_processed by done. eauto.
Qed.

(** X9. When the seller of a listing row is extracted and its canonical key
    is the key of no stored entry, the pass gives the row the processed
    marker and changes nothing else of it. *)
Theorem processListings_unmatched pg i row raw :
  trs pg !! i = Some row →
  is_listing row = true →
  processed row = false →
  reaches pg i →
  extractSellerFromRow row = Normal (Some raw) →
  (∀ entry, entry ∈ loadBlockedList (localStorage pg) →
     canon toLowerCase (Some raw) ≠ canon toLowerCase (Some entry)) →
  trs (processListings toLowerCase pg).1 !! i
  = Some (setAttribute row PROCESSED (js "true")).
Proof.
  intros Hi Hl Hp Hreach Hraw Hno.
  rewrite processListings_trs.
  rewrite (forEach_rows_reached _ _ _ i row), Hl; [|done|].
  - rewrite process_row_unprocessed, Hraw by done. cbv zeta.
    destruct (Set_has _ _) eqn:Eh; [|done].
    apply Set_has_blockedSet in Eh as (entry & He & Hk).
    by destruct (Hno entry He).
  - intros j rj Hj Hrj Hlj. apply process_row_completion.
    destruct (processed rj) eqn:Epj; [by left|right]. by eapply Hreach.
Qed.

(** X10. A pass leaves storage as it is, every row that is not a listing
    row as it is, and of a listing row it changes nothing but the three
    markers and the display, which it can only set to none: the elements
    below the row and every other attribute stay. *)
Theorem processListings_frame pg :
  localStorage (processListings toLowerCase pg).1 = localStorage pg
  ∧ currentlyShowingHidden (processListings toLowerCase pg).1
    = currentlyShowingHidden pg
  ∧ (∀ i r, trs pg !! i = Some r → is_listing r = false →
       trs (processListings toLowerCase pg).1 !! i = Some r)
  ∧ (∀ i r, trs pg !! i = Some r →
       ∃ r', trs (processListings toLowerCase pg).1 !! i = Some r'
         ∧ is_listing r' = is_listing r
         ∧ descendants r' = descendants r
         ∧ (∀ k, k ≠ BLOCKED → k ≠ HIDDEN → k ≠ PROCESSED →
              attrs r' !! k = attrs r !! k)
         ∧ (display r' = display r ∨ display r' = js "none")).
Proof.
  split_and!.
  - apply processListings_storage.
  - rewrite processListings_eq. cbv zeta.
    destruct (forEach_rows _ _ _) as [rows [u|e]]; simpl; [|done].
    unfold updateControlUI. by destruct (control _).
  - intros i r Hi Hl. rewrite processListings_trs.
    destruct (forEach_rows_lookup is_listing
                (process_row toLowerCase
                   (buildBlockedSetFromSaved toLowerCase (localStorage pg)))
                _ _ _ Hi) as (r' & Hr' & [->|[Hs _]]); [done|congruence].
  - intros i r Hi. rewrite processListings_trs.
    destruct (forEach_rows_lookup is_listing
                (process_row toLowerCase
                   (buildBlockedSetFromSaved toLowerCase (localStorage pg)))
                _ _ _ Hi) as (r' & Hr' & [->|[_ ->]]).
    + exists r. split_and!; eauto.
    + eexists. split; [done|].
      pose proof (process_row_monotone toLowerCase
        (buildBlockedSetFromSaved toLowerCase (localStorage pg)) r)
        as (_ & _ & _ & _ & Hl).
      pose proof (process_row_frame
        (buildBlockedSetFromSaved toLowerCase (localStorage pg)) r)
        as (Hd & Ha & Hdisp).
      by split_and!.
Qed.

(** X11. A pass returns exactly when the extraction returns on every listing
    row that is not yet processed; then every listing row is processed
    afterwards.  A pass that throws throws [URIError]. *)
Theorem processListings_completion pg :
  ((processListings toLowerCase pg).2 = Normal ()
   ↔ Forall (λ r, is_listing r = true → processed r = false →
                  ∃ o, extractSellerFromRow r = Normal o) (trs pg))
  ∧ ((processListings toLowerCase pg).2 = Normal () →
     Forall (λ r, is_listing r = true → processed r = true)
       (trs (processListings toLowerCase pg).1))
  ∧ (∀ e, (processListings toLowerCase pg).2 = Throw e → e = URIError).
Proof.
  set (bs := buildBlockedSetFromSaved toLowerCase (localStorage pg)).
  assert (Hres : (processListings toLowerCase pg).2
                 = (forEach_rows is_listing (process_row toLowerCase bs)
                      (trs pg)).2).
  { rewrite processListings_eq. cbv zeta. fold bs.
    by destruct (forEach_rows _ _ _) as [rows [[]|e]]. }
  split_and!.
  - rewrite Hres. clear Hres. split.
    + intros Hn.
      destruct (forEach_rows is_listing (process_row toLowerCase bs) (trs pg))
        as [rows c] eqn:E. simpl in Hn. subst c.
      apply forEach_rows_normal in E as [_ HF].
      eapply Forall_impl; [exact HF|]. intros r Hr Hl Hp.
      apply process_row_completion in Hr as [Hr|Hr]; [congruence|done|done].
    + intros HF. apply forEach_rows_completes.
      eapply Forall_impl; [exact HF|]. intros r Hr Hl.
      apply process_row_completion.
      destruct (processed r) eqn:Ep; [by left | right; by apply Hr].
  - intros Hn. rewrite Hres in Hn. clear Hres.
    rewrite processListings_trs. fold bs.
    destruct (forEach_rows is_listing (process_row toLowerCase bs) (trs pg))
      as [rows c] eqn:E. simpl in *. subst c.
    apply forEach_rows_normal in E as [-> _].
    apply Forall_fmap, Forall_forall. intros r _. simpl.
    pose proof (process_row_monotone toLowerCase bs r) as (_ & _ & Hp & _ & Hl).
    destruct (is_listing r) eqn:El; simpl; [done|congruence].
  - intros e He. rewrite Hres in He.
    assert (Hex : ∃ r, (process_row toLowerCase bs r).2 = Throw e).
    { clear Hres. induction (trs pg) as [|r rows IH]; [done|].
      simpl in He. destruct (is_listing r).
      - destruct (process_row toLowerCase bs r) as [r' [u|e']] eqn:Er.
        + destruct (forEach_rows _ _ rows). by apply IH.
        + simpl in He. injection He as ->. exists r. by rewrite Er.
      - destruct (forEach_rows _ _ rows). by apply IH. }
    destruct Hex as [r Hr]. destruct (processed r) eqn:Ep.
    { by rewrite process_row_processed in Hr. }
    rewrite process_row_unprocessed in Hr by done. cbv zeta in Hr.
    destruct (extractSellerFromRow r) as [[raw|]|e'] eqn:Ex; simpl in Hr;
      [by destruct (Set_has _ _) | done |].
    injection Hr as ->. by apply extractSellerFromRow_throws in Ex as [-> _].
Qed.

(** X12. When the extraction throws on a listing row that the scan gets to,
    the pass ends with that exception: the row has been marked processed (so
    that no later pass looks at it again), the rows after it are as they
    were, and the control bar is not updated. *)
Theorem processListings_throwing_row pg i row e :
  trs pg !! i = Some row →
  is_listing row = true →
  processed row = false →
  reaches pg i →
  extractSellerFromRow row = Throw e →
  (processListings toLowerCase pg).2 = Throw e
  ∧ trs (processListings toLowerCase pg).1 !! i
    = Some (setAttribute row PROCESSED (js "true"))
  ∧ (∀ j, (i < j)%nat →
       trs (processListings toLowerCase pg).1 !! j = trs pg !! j)
  ∧ control (processListings toLowerCase pg).1 = control pg.
Proof.
  intros Hi Hl Hp Hreach Hex.
  set (bs := buildBlockedSetFromSaved toLowerCase (localStorage pg)).
  assert (Hrow : process_row toLowerCase bs row
                 = (setAttribute row PROCESSED (js "true"), Throw e)).
  { by rewrite process_row_unprocessed, Hex. }
  destruct (forEach_rows_throw is_listing (process_row toLowerCase bs)
              (trs pg) i row e Hi Hl) as (H1 & H2 & H3).
  { by rewrite Hrow. }
  { intros j rj Hj Hrj Hlj. apply process_row_completion.
    destruct (processed rj) eqn:Epj; [by left|right]. by eapply Hreach. }
  rewrite Hrow in H2.
  rewrite processListings_trs. fold bs.
  rewrite processListings_eq. cbv zeta. fold bs.
  destruct (forEach_rows is_listing (process_row toLowerCase bs) (trs pg))
    as [rows c]. simpl in *. subst c. by split_and!.
Qed.

(** X13. A pass never lowers the number of blocked rows, and the toggle
    leaves it as it is. *)
Theorem countBlockedRows_monotone pg show :
  (countBlockedRows pg
   ≤ countBlockedRows (processListings toLowerCase pg).1)%nat
  ∧ countBlockedRows (toggleHiddenRows show pg) = countBlockedRows pg.
Proof.
  unfold countBlockedRows. split.
  - rewrite processListings_trs. apply count_blocked_le.
    eapply Forall2_impl; [apply forEach_rows_Forall2|].
    intros r r' [->|[_ ->]]; [done|]. simpl.
    apply process_row_monotone.
  - rewrite trs_toggleHiddenRows. apply count_toggle.
Qed.

(** X14. After a toggle, and after a pass that returns, the control bar (when
    the page has one) tells the rows' state: the label has the number of
    blocked rows, the button is hidden when that number is zero and only
    then, and otherwise its text follows the show/hide state.  [init] puts
    the bar in the page, so after an [init] that returns it is there and
    tells the rows' state. *)
Theorem control_tells_rows pg show :
  control_consistent (toggleHiddenRows show pg)
  ∧ ((processListings toLowerCase pg).2 = Normal () →
     control_consistent (processListings toLowerCase pg).1)
  ∧ ((init toLowerCase pg).2 = Normal () →
     is_Some (control (init toLowerCase pg).1)
     ∧ control_consistent (init toLowerCase pg).1).
Proof.
  assert (Hpass : ∀ pg, (processListings toLowerCase pg).2 = Normal () →
    control_consistent (processListings toLowerCase pg).1
    ∧ (is_Some (control pg) →
       is_Some (control (processListings toLowerCase pg).1))).
  { clear. intros pg. rewrite processListings_eq. cbv zeta.
    destruct (forEach_rows _ _ _) as [rows [[]|e]]; simpl; [|done].
    intros _. split; [apply updateControlUI_consistent|].
    unfold updateControlUI. simpl. by destruct (control pg). }
  split_and!.
  - apply updateControlUI_consistent.
  - apply Hpass.
  - intros Hn. unfold init in *. destruct (Hpass _ Hn) as [Hc Hs].
    split; [|done]. apply Hs. unfold createControlUI.
    by destruct (control pg) eqn:Ec; simpl; rewrite ?Ec.
Qed.

End PassFurther.

(** ** Markers, toggles and the canonical set *)

Lemma Forall2_transfer {A} (R : A → A → Prop) (P : A → Prop) l l' :
  Forall2 R l l' → Forall P l → (∀ x y, R x y → P x → P y) → Forall P l'.
Proof.
  intros H2 HP HR. revert HP.
  induction H2; inversion_clear 1; constructor; eauto.
Qed.

Lemma forEach_rows_Forall (P : Row → Prop) sel f rows :
  Forall P rows → (∀ r, sel r = true → P r → P (f r).1) →
  Forall P (forEach_rows sel f rows).1.
Proof.
  intros HP Hf.
  apply (Forall2_transfer _ P _ _ (forEach_rows_Forall2 sel f rows) HP).
  intros x y [->|[Hs ->]] Hx; [done | by apply Hf].
Qed.

Lemma update_rows_Forall (P : Row → Prop) sel f rows :
  Forall P rows → (∀ r, sel r = true → P r → P (f r)) →
  Forall P (update_rows sel f rows).
Proof.
  intros HP Hf. unfold update_rows. apply Forall_fmap.
  eapply Forall_impl; [exact HP|]. intros r Hr. simpl.
  destruct (sel r) eqn:Es; [by apply Hf | done].
Qed.

Lemma forEach_rows_ext sel f g rows :
  (∀ r, f r = g r) → forEach_rows sel f rows = forEach_rows sel g rows.
Proof.
  intros Hfg. induction rows as [|r rows IH]; [done|].
  simpl. by rewrite Hfg, IH.
Qed.

Lemma toggle_row_last b1 b2 r :
  toggle_row b2 (toggle_row b1 r) = toggle_row b2 r.
Proof.
  destruct r as [l a d ds], b1, b2;
    unfold toggle_row, unhideRow, setAttribute, removeAttribute, set_display;
    simpl; f_equal.
  - apply delete_delete_eq.
  - apply insert_delete_eq.
  - apply delete_insert_eq.
  - apply insert_insert_eq.
Qed.

Lemma update_rows_toggle_last b1 b2 rows :
  update_rows blocked (toggle_row b2) (update_rows blocked (toggle_row b1) rows)
  = update_rows blocked (toggle_row b2) rows.
Proof.
  unfold update_rows. rewrite <- list_fmap_compose.
  apply list_fmap_ext. intros i r _. simpl.
  destruct (blocked r) eqn:Eb; [|by rewrite Eb].
  destruct (toggle_row_flags b1 r) as (-> & _). rewrite Eb.
  apply toggle_row_last.
Qed.

Lemma showing_toggleHiddenRows show pg :
  currentlyShowingHidden (toggleHiddenRows show pg) = show.
Proof.
  unfold toggleHiddenRows, updateControlUI. simpl.
  by destruct (control pg).
Qed.

Lemma toggleHiddenRows_last b1 b2 pg :
  toggleHiddenRows b2 (toggleHiddenRows b1 pg) = toggleHiddenRows b2 pg.
Proof.
  unfold toggleHiddenRows at 1 3. rewrite trs_toggleHiddenRows.
  rewrite update_rows_toggle_last.
  unfold toggleHiddenRows, updateControlUI, countBlockedRows, set_showing,
    set_trs, set_control. simpl.
  destruct (control pg) as [c|] eqn:Ec; simpl; rewrite ?Ec, ?count_toggle;
    [|done].
  by destruct (length (List.filter blocked (trs pg)) =? 0)%nat.
Qed.

(** X15. Of two toggles in a row only the second counts, for the rows, the
    script's state and the control bar alike.  So a click on the show/hide
    button flips the state, and two clicks are one toggle to the state the
    page was in. *)
Theorem toggleHiddenRows_last_wins b1 b2 pg :
  toggleHiddenRows b2 (toggleHiddenRows b1 pg) = toggleHiddenRows b2 pg
  ∧ currentlyShowingHidden (toggleBtn_click pg)
    = negb (currentlyShowingHidden pg)
  ∧ toggleBtn_click (toggleBtn_click pg)
    = toggleHiddenRows (currentlyShowingHidden pg) pg.
Proof.
  split_and!.
  - apply toggleHiddenRows_last.
  - apply showing_toggleHiddenRows.
  - unfold toggleBtn_click. rewrite showing_toggleHiddenRows, negb_involutive.
    apply toggleHiddenRows_last.
Qed.

Lemma toggle_row_script show r :
  blocked r = true → script_markers r → script_markers (toggle_row show r).
Proof.
  intros Hb (Hp & _ & _).
  destruct (toggle_row_flags show r) as (Eb & Ep & Eh & Ed).
  unfold script_markers. rewrite Eb, Ep, Eh, Ed.
  destruct show; simpl; naive_solver.
Qed.

Lemma clear_markers_unblocked rows :
  Forall (λ r, blocked r = false) (clear_markers rows).
Proof.
  unfold clear_markers.
  apply update_rows_Forall.
  - unfold update_rows. apply Forall_fmap, Forall_forall. intros r _. simpl.
    destruct (blocked r) eqn:Eb; [|done].
    row_simpl. by apply bool_decide_eq_false.
  - intros r _ Hb. by row_simpl.
Qed.

Section MarkersKept.

Variable toLowerCase : jsstring → jsstring.

Lemma process_row_script bs r :
  script_markers r → script_markers (process_row toLowerCase bs r).1.
Proof.
  intros (Hp & Hh & Hd). destruct (processed r) eqn:Ep.
  { by rewrite process_row_processed. }
  assert (Eb : blocked r = false).
  { destruct (blocked r); [|done]. specialize (Hp eq_refl). congruence. }
  assert (Eh : hidden r = false).
  { destruct (hidden r); [|done]. destruct (Hh eq_refl). congruence. }
  rewrite process_row_unprocessed by done. cbv zeta.
  pose proof (mark_processed_flags r (js "true")) as (Fp & Fb & Fh & Fd & _).
  pose proof (hideRow_flags (setAttribute r PROCESSED (js "true")))
    as (Gb & Gh & Gd & Gp & _).
  assert (Hplain : script_markers (setAttribute r PROCESSED (js "true"))).
  { unfold script_markers. rewrite Fb, Fh, Eb, Eh. by split_and!. }
  assert (Hhide :
    script_markers (hideRow (setAttribute r PROCESSED (js "true")))).
  { unfold script_markers. rewrite Gb, Gh, Gd, Gp, Fp. by split_and!. }
  destruct (extractSellerFromRow r) as [[raw|]|e]; simpl; [|done..].
  by destruct (Set_has _ _).
Qed.

Lemma process_row_blocks bs r :
  blocked r = false →
  blocked (process_row toLowerCase bs r).1 = true →
  hidden (process_row toLowerCase bs r).1 = true
  ∧ display (process_row toLowerCase bs r).1 = js "none"
  ∧ seller_blocked toLowerCase bs (setAttribute r PROCESSED (js "true"))
    = is_listing r.
Proof.
  intros Eb. destruct (processed r) eqn:Ep.
  { rewrite process_row_processed by done. simpl. congruence. }
  rewrite process_row_unprocessed by done. cbv zeta.
  pose proof (mark_processed_flags r (js "true")) as (Fp & Fb & _).
  pose proof (hideRow_flags (setAttribute r PROCESSED (js "true")))
    as (Gb & Gh & Gd & Gp & _).
  unfold seller_blocked.
  change (extractSellerFromRow (setAttribute r PROCESSED (js "true")))
    with (extractSellerFromRow r).
  destruct (extractSellerFromRow r) as [[raw|]|e]; simpl;
    [|congruence..].
  destruct (Set_has _ _); simpl; [|congruence].
  intros _. split_and!; [done..|]. by rewrite andb_true_r.
Qed.

(** X16. The rows keep the shape the script gives them: a blocked row has
    been processed, a hidden row is blocked and not displayed, and a blocked
    row that is not hidden has its display reset.  A pass, a toggle and a
    click on Save all keep it. *)
Theorem script_markers_kept pg show value confirm :
  Forall script_markers (trs pg) →
  Forall script_markers (trs (processListings toLowerCase pg).1)
  ∧ Forall script_markers (trs (toggleHiddenRows show pg))
  ∧ Forall script_markers
      (trs (saveBtn_click toLowerCase value confirm pg).1).
Proof.
  intros Hpg.
  assert (Hpass : ∀ pg, Forall script_markers (trs pg) →
    Forall script_markers (trs (processListings toLowerCase pg).1)).
  { clear. intros pg Hpg. rewrite processListings_trs.
    apply forEach_rows_Forall; [done|].
    intros r _. apply process_row_script. }
  split_and!.
  - by apply Hpass.
  - rewrite trs_toggleHiddenRows. apply update_rows_Forall; [done|].
    intros r. apply toggle_row_script.
  - unfold saveBtn_click.
    destruct (bool_decide _ && negb confirm); [done|].
    destruct (saveBlockedList _ _) as [[] st]; [|done].
    set (pg1 := set_showing _ false).
    assert (H1 : Forall script_markers (trs pg1)).
    { simpl. apply Forall_forall. intros r Hr.
      apply list_elem_of_lookup in Hr as [i Hi].
      rewrite clear_markers_lookup in Hi.
      destruct (trs pg !! i) as [r0|] eqn:E0; [|done].
      simpl in Hi. injection Hi as <-.
      assert (H0 : script_markers r0).
      { eapply Forall_lookup_1; [exact Hpg | exact E0]. }
      destruct (clear_row_flags r0) as [(Ub & Uh & _) _].
      { intros Hh. by apply H0. }
      unfold script_markers. cbv zeta in Ub, Uh. rewrite Ub, Uh.
      by split_and!. }
    apply Hpass in H1.
    destruct (processListings toLowerCase pg1) as [pg2 [u|e]]; simpl in *;
      done.
Qed.

Lemma processListings_result pg :
  (processListings toLowerCase pg).2
  = (forEach_rows is_listing
       (process_row toLowerCase
          (buildBlockedSetFromSaved toLowerCase (localStorage pg)))
       (trs pg)).2.
Proof.
  rewrite processListings_eq. cbv zeta.
  by destruct (forEach_rows _ _ _) as [rows [[]|e]].
Qed.

End MarkersKept.

(** ** What a scan depends on *)

Lemma forEach_rows_app sel f l1 l2 :
  (forEach_rows sel f l1).2 = Normal () →
  forEach_rows sel f (l1 ++ l2)
  = ((forEach_rows sel f l1).1 ++ (forEach_rows sel f l2).1,
     (forEach_rows sel f l2).2).
Proof.
  induction l1 as [|r l1 IH]; simpl.
  { intros _. by destruct (forEach_rows sel f l2). }
  destruct (sel r).
  - destruct (f r) as [r' [u|e]]; [|done].
    destruct (forEach_rows sel f l1) as [rows1 c1]. simpl. intros ->.
    rewrite IH by done. done.
  - destruct (forEach_rows sel f l1) as [rows1 c1]. simpl. intros ->.
    rewrite IH by done. done.
Qed.


Section ScanDepends.

Variable toLowerCase : jsstring → jsstring.

(** X17. The rows a scan produces, and whether it returns, depend on the
    rows and on the set of canonical keys of the stored list alone: not on
    the spelling, the order or the repetitions of the entries, and not on
    the show/hide state. *)
Theorem processListings_reads_keys pg1 pg2 :
  trs pg1 = trs pg2 →
  (∀ k, k ∈ (λ x, canon toLowerCase (Some x))
              <$> loadBlockedList (localStorage pg1)
        ↔ k ∈ (λ x, canon toLowerCase (Some x))
              <$> loadBlockedList (localStorage pg2)) →
  trs (processListings toLowerCase pg1).1
  = trs (processListings toLowerCase pg2).1
  ∧ (processListings toLowerCase pg1).2
    = (processListings toLowerCase pg2).2.
Proof.
  intros Hrows Hkeys.
  rewrite !processListings_trs, !processListings_result, Hrows.
  assert (Hhas : ∀ k,
    Set_has (buildBlockedSetFromSaved toLowerCase (localStorage pg1)) k
    = Set_has (buildBlockedSetFromSaved toLowerCase (localStorage pg2)) k).
  { intros k. unfold buildBlockedSetFromSaved.
    apply eq_true_iff_eq. rewrite !Set_has_new_Set. apply Hkeys. }
  rewrite (forEach_rows_ext is_listing
    (process_row toLowerCase
       (buildBlockedSetFromSaved toLowerCase (localStorage pg1)))
    (process_row toLowerCase
       (buildBlockedSetFromSaved toLowerCase (localStorage pg2)))); [done|].
  intros r. unfold process_row.
  destruct (hasAttribute r PROCESSED); [done|].
  destruct (extractSellerFromRow _) as [[raw|]|e]; [|done..].
  by rewrite Hhas.
Qed.


(** X19. When rows are added at the end of a page that a scan has gone
    through, the next scan leaves the old rows as they are and does to the
    new rows what a scan of the new rows alone does. *)
Theorem processListings_new_rows pg pg' new :
  processListings toLowerCase pg = (pg', Normal ()) →
  trs (processListings toLowerCase (set_trs pg' (trs pg' ++ new))).1
  = trs pg' ++ trs (processListings toLowerCase (set_trs pg new)).1
  ∧ (processListings toLowerCase (set_trs pg' (trs pg' ++ new))).2
    = (processListings toLowerCase (set_trs pg new)).2.
Proof.
  intros Hp.
  assert (Hst : localStorage pg' = localStorage pg).
  { rewrite <- (processListings_storage toLowerCase pg). by rewrite Hp. }
  pose proof (processListings_again toLowerCase pg pg' Hp) as Hagain.
  assert (Hfix :
    forEach_rows is_listing
      (process_row toLowerCase
         (buildBlockedSetFromSaved toLowerCase (localStorage pg))) (trs pg')
    = (trs pg', Normal ())).
  { pose proof (processListings_trs toLowerCase pg') as Ht.
    pose proof (processListings_result toLowerCase pg') as Hr.
    rewrite Hagain, Hst in Ht, Hr. simpl in Ht, Hr.
    destruct (forEach_rows _ _ (trs pg')) as [rows c]. simpl in *.
    by subst. }
  rewrite !processListings_trs, !processListings_result. simpl.
  rewrite Hst, forEach_rows_app by (by rewrite Hfix).
  by rewrite Hfix.
Qed.

End ScanDepends.

(** ** The Save button, further *)

Section SaveFurther.

Variable toLowerCase : jsstring → jsstring.

Lemma processListings_showing pg :
  currentlyShowingHidden (processListings toLowerCase pg).1
  = currentlyShowingHidden pg.
Proof.
  rewrite processListings_eq. cbv zeta.
  destruct (forEach_rows _ _ _) as [rows [u|e]]; simpl; [|done].
  unfold updateControlUI. by destruct (control _).
Qed.

Lemma processListings_modal pg :
  modal_display (processListings toLowerCase pg).1 = modal_display pg.
Proof.
  rewrite processListings_eq. cbv zeta.
  destruct (forEach_rows _ _ _) as [rows [u|e]]; simpl; [|done].
  unfold updateControlUI. by destruct (control _).
Qed.

Lemma processListings_control pg :
  (processListings toLowerCase pg).2 = Normal () →
  control_consistent (processListings toLowerCase pg).1.
Proof.
  rewrite processListings_eq. cbv zeta.
  destruct (forEach_rows _ _ _) as [rows [[]|e]]; simpl; [|done].
  intros _. apply updateControlUI_consistent.
Qed.

Lemma processListings_all_processed pg :
  (processListings toLowerCase pg).2 = Normal () →
  Forall (λ r, is_listing r = true → processed r = true)
    (trs (processListings toLowerCase pg).1).
Proof.
  rewrite processListings_result, processListings_trs.
  set (bs := buildBlockedSetFromSaved toLowerCase (localStorage pg)).
  destruct (forEach_rows is_listing (process_row toLowerCase bs) (trs pg))
    as [rows c] eqn:E. simpl. intros ->.
  apply forEach_rows_normal in E as [-> _].
  apply Forall_fmap, Forall_forall. intros r _. simpl.
  pose proof (process_row_monotone toLowerCase bs r) as (_ & _ & Hp & _ & Hl).
  destruct (is_listing r) eqn:El; simpl; [done|congruence].
Qed.

Lemma processListings_blocked_hidden pg :
  Forall (λ r, blocked r = true → hidden r = true ∧ display r = js "none")
    (trs pg) →
  Forall (λ r, blocked r = true → hidden r = true ∧ display r = js "none")
    (trs (processListings toLowerCase pg).1).
Proof.
  intros Hpg. rewrite processListings_trs.
  apply forEach_rows_Forall; [done|].
  intros r _ Hr. destruct (blocked r) eqn:Eb.
  - intros _. destruct Hr as [Hh Hd]; [done|].
    pose proof (process_row_monotone toLowerCase
      (buildBlockedSetFromSaved toLowerCase (localStorage pg)) r)
      as (_ & Mh & _ & Md & _).
    auto.
  - intros Hb. by apply process_row_blocks in Hb as (? & ? & _).
Qed.

Lemma processListings_empty_set pg :
  loadBlockedList (localStorage pg) = [] →
  Forall (λ r, blocked r = false) (trs pg) →
  Forall (λ r, blocked r = false) (trs (processListings toLowerCase pg).1).
Proof.
  intros Hl Hpg. rewrite processListings_trs.
  apply forEach_rows_Forall; [done|].
  intros r _ Hr. unfold buildBlockedSetFromSaved. rewrite Hl.
  destruct (processed r) eqn:Ep.
  { by rewrite process_row_processed. }
  rewrite process_row_unprocessed by done. cbv zeta.
  pose proof (mark_processed_flags r (js "true")) as (_ & Fb & _).
  destruct (extractSellerFromRow r) as [[raw|]|e]; simpl; congruence.
Qed.

(** The three ways the click on Save ends. *)
Lemma saveBtn_click_cases value confirm pg :
  (flattened_entries value = [] ∧ confirm = false
   ∧ saveBtn_click toLowerCase value confirm pg = (pg, Declined))
  ∨ (∃ st, saveBlockedList (localStorage pg) (flattened_entries value)
           = (false, st)
      ∧ saveBtn_click toLowerCase value confirm pg = (pg, SaveFailed))
  ∨ (∃ st', saveBlockedList (localStorage pg) (flattened_entries value)
            = (true, st')
      ∧ saveBtn_click toLowerCase value confirm pg
        = match (processListings toLowerCase
                   (set_showing
                      (set_trs (set_localStorage pg st')
                         (clear_markers (trs pg))) false)).2 with
          | Normal _ =>
              (set_modal_display
                 (processListings toLowerCase
                    (set_showing
                       (set_trs (set_localStorage pg st')
                          (clear_markers (trs pg))) false)).1 (js "none"),
               Applied (Normal ()))
          | Throw e =>
              ((processListings toLowerCase
                  (set_showing
                     (set_trs (set_localStorage pg st')
                        (clear_markers (trs pg))) false)).1,
               Applied (Throw e))
          end).
Proof.
  unfold saveBtn_click.
  destruct (bool_decide (flattened_entries value = [])) eqn:Ef;
    destruct confirm; simpl.
  2:{ left. by apply bool_decide_eq_true in Ef. }
  all: right;
    destruct (saveBlockedList _ _) as [[] st]; [right|left; by eauto];
    exists st; (split; [done|]);
    by destruct (processListings _ _) as [pg2 [[]|e]].
Qed.

(** X20. After a click on Save that went through, with a scan that
    returned: the show/hide state is hide, the dialog is closed, the list
    that [loadBlockedList] returns is the one [saveBlockedList] made of the
    textarea's entries, every blocked row is hidden and not displayed, every
    listing row is processed, and the control bar tells the rows' state. *)
Theorem saveBtn_click_applied value confirm pg pg' :
  saveBtn_click toLowerCase value confirm pg = (pg', Applied (Normal ())) →
  currentlyShowingHidden pg' = false
  ∧ modal_display pg' = js "none"
  ∧ loadBlockedList (localStorage pg')
    = unique_entries (flattened_entries value)
  ∧ Forall (λ r, blocked r = true → hidden r = true ∧ display r = js "none")
      (trs pg')
  ∧ Forall (λ r, is_listing r = true → processed r = true) (trs pg')
  ∧ control_consistent pg'.
Proof.
  intros Hc.
  destruct (saveBtn_click_cases value confirm pg)
    as [(_ & _ & H)|[(st & _ & H)|(st' & Hs & H)]];
    rewrite H in Hc; [done..|].
  set (pg1 := set_showing _ false) in Hc.
  destruct (processListings toLowerCase pg1).2 as [[]|e] eqn:E2; [|done].
  injection Hc as <-. simpl.
  split_and!.
  - by rewrite processListings_showing.
  - done.
  - rewrite processListings_storage. simpl. by apply load_after_save in Hs.
  - apply processListings_blocked_hidden. simpl.
    eapply Forall_impl; [apply clear_markers_unblocked|].
    intros r Hr. simpl in Hr. congruence.
  - by apply processListings_all_processed.
  - by apply processListings_control.
Qed.

(** X21. When the textarea holds nothing but white space and commas, the
    click on Save asks, and a refusal changes nothing.  After the consent,
    if the write goes through, the stored list is empty and no row is
    blocked, whatever the scan meets. *)
Theorem saveBtn_click_blank value pg :
  Forall (λ c, is_white_space c = true ∨ c = 44) value →
  saveBtn_click toLowerCase value false pg = (pg, Declined)
  ∧ (∀ st', saveBlockedList (localStorage pg) [] = (true, st') →
       loadBlockedList
         (localStorage (saveBtn_click toLowerCase value true pg).1) = []
       ∧ countBlockedRows (saveBtn_click toLowerCase value true pg).1
         = 0%nat
       ∧ Forall (λ r, blocked r = false)
           (trs (saveBtn_click toLowerCase value true pg).1)).
Proof.
  intros Hblank%flattened_entries_nil. split.
  - unfold saveBtn_click. rewrite Hblank. by rewrite bool_decide_eq_true_2.
  - intros st' Hs.
    destruct (saveBtn_click_cases value true pg)
      as [(_ & ? & _)|[(st & Hf & _)|(st1 & Hs1 & H)]];
      [done | rewrite Hblank in Hf; congruence |].
    rewrite Hblank, Hs in Hs1. injection Hs1 as <-.
    rewrite H. clear H.
    set (pg1 := set_showing _ false).
    assert (Hload : loadBlockedList (localStorage pg1) = []).
    { simpl. by apply load_after_save in Hs. }
    assert (Hrows : Forall (λ r, blocked r = false)
                      (trs (processListings toLowerCase pg1).1)).
    { apply processListings_empty_set; [done|].
      simpl. apply clear_markers_unblocked. }
    assert (Hcount : countBlockedRows (processListings toLowerCase pg1).1
                     = 0%nat).
    { unfold countBlockedRows.
      induction Hrows as [|r rows Hr _ IH]; [done|].
      simpl. by rewrite Hr. }
    pose proof (processListings_storage toLowerCase pg1) as Hst.
    destruct (processListings toLowerCase pg1).2 as [[]|e]; simpl;
      rewrite ?Hst; by split_and!.
Qed.

End SaveFurther.

(** ** Scans that the observer starts *)

Lemma count_unprocessed_zero rows :
  length (List.filter (λ r, is_listing r && negb (processed r)) rows) = 0%nat →
  Forall (λ r, is_listing r = true → processed r = true) rows.
Proof.
  induction rows as [|r rows IH]; [constructor|]. simpl.
  destruct (is_listing r) eqn:El, (processed r) eqn:Ep; simpl; try done;
    intros H; constructor; auto; congruence.
Qed.

Section Observer.

Variable toLowerCase : jsstring → jsstring.

Lemma forEach_unprocessed_le bs rows :
  (length (List.filter (λ r, is_listing r && negb (processed r))
            (forEach_rows is_listing (process_row toLowerCase bs) rows).1)
   ≤ length (List.filter (λ r, is_listing r && negb (processed r)) rows))%nat.
Proof.
  pose proof (forEach_rows_Forall2 is_listing (process_row toLowerCase bs)
                rows) as H2.
  induction H2 as [|r r' l l' Hr _ IH]; [done|]. simpl.
  destruct Hr as [->|[_ ->]].
  { destruct (is_listing r && negb (processed r)); simpl; lia. }
  pose proof (process_row_monotone toLowerCase bs r) as (_ & _ & Hp & _ & _).
  simpl in Hp. rewrite Hp, andb_false_r.
  destruct (is_listing r && negb (processed r)); simpl; lia.
Qed.

Lemma forEach_unprocessed_lt bs rows :
  length (List.filter (λ r, is_listing r && negb (processed r)) rows) ≠ 0%nat →
  (length (List.filter (λ r, is_listing r && negb (processed r))
            (forEach_rows is_listing (process_row toLowerCase bs) rows).1)
   < length (List.filter (λ r, is_listing r && negb (processed r)) rows))%nat.
Proof.
  induction rows as [|r rows IH]; [done|]. simpl.
  pose proof (forEach_unprocessed_le bs rows) as Hle.
  destruct (is_listing r) eqn:El; simpl.
  - pose proof (process_row_monotone toLowerCase bs r) as (_ & _ & Hp & _ & Hl).
    destruct (processed r) eqn:Ep; simpl.
    + rewrite process_row_processed by done. intros H0.
      destruct (forEach_rows _ _ rows) as [rows' c]. simpl in *.
      rewrite El, Ep. simpl. by apply IH.
    + intros _.
      destruct (process_row toLowerCase bs r) as [r' [u|e]]; simpl in *.
      * destruct (forEach_rows _ _ rows) as [rows' c]. simpl in *.
        rewrite Hp, andb_false_r. lia.
      * rewrite Hp, andb_false_r. lia.
  - intros H0. destruct (forEach_rows _ _ rows) as [rows' c]. simpl in *.
    rewrite El. simpl. by apply IH.
Qed.

Lemma unprocessed_listings_pass pg :
  (unprocessed_listings (processListings toLowerCase pg).1
   ≤ unprocessed_listings pg - 1)%nat.
Proof.
  unfold unprocessed_listings. rewrite processListings_trs.
  set (bs := buildBlockedSetFromSaved toLowerCase (localStorage pg)).
  pose proof (forEach_unprocessed_le bs (trs pg)).
  pose proof (forEach_unprocessed_lt bs (trs pg)).
  lia.
Qed.

Lemma unprocessed_listings_passes n : ∀ pg,
  (unprocessed_listings (passes toLowerCase n pg)
   ≤ unprocessed_listings pg - n)%nat.
Proof.
  induction n as [|n IH]; intros pg; simpl; [lia|].
  pose proof (IH (processListings toLowerCase pg).1).
  pose proof (unprocessed_listings_pass pg). lia.
Qed.

(** X22. A link that cannot be decoded stops one scan, not the script: every
    scan that throws leaves one listing row less to look at.  Once as many
    scans have run as the page had unprocessed listing rows, every later
    scan returns and changes no row. *)
Theorem passes_settle pg n :
  (unprocessed_listings pg ≤ n)%nat →
  (unprocessed_listings (processListings toLowerCase pg).1
   ≤ unprocessed_listings pg - 1)%nat
  ∧ (processListings toLowerCase (passes toLowerCase n pg)).2 = Normal ()
  ∧ trs (processListings toLowerCase (passes toLowerCase n pg)).1
    = trs (passes toLowerCase n pg).
Proof.
  intros Hn. split; [apply unprocessed_listings_pass|].
  pose proof (unprocessed_listings_passes n pg) as H0.
  assert (Hz : unprocessed_listings (passes toLowerCase n pg) = 0%nat) by lia.
  apply count_unprocessed_zero in Hz.
  rewrite processListings_result, processListings_trs.
  rewrite forEach_rows_fixed; [done|].
  eapply Forall_impl; [exact Hz|]. intros r Hr Hl.
  apply process_row_processed. by apply Hr.
Qed.

End Observer.

Lemma relevant_spec mutations :
  relevant mutations = true
  ↔ ∃ m, m ∈ mutations ∧ m_type m = childList
         ∧ (0 < addedNodes_length m)%nat.
Proof.
  induction mutations as [|m ms IH]; simpl.
  { split; [done|]. intros (m & Hm & _). by apply elem_of_nil in Hm. }
  assert (Hrest : relevant ms = true →
    ∃ m0, m0 ∈ m :: ms ∧ m_type m0 = childList
          ∧ (0 < addedNodes_length m0)%nat).
  { intros (m0 & ? & ?)%IH. exists m0. split; [by right|done]. }
  destruct (m_type m) eqn:Et;
    [destruct (Nat.ltb_spec 0 (addedNodes_length m)) as [Hlt|Hge]|..].
  - split; [|done]. intros _. exists m. split; [by left|done].
  - split; [done|]. intros (m0 & [->|Hin]%elem_of_cons & Ht & Hlt).
    + lia.
    + apply IH. eauto.
  - split; [done|]. intros (m0 & [->|Hin]%elem_of_cons & Ht & Hlt).
    + congruence.
    + apply IH. eauto.
  - split; [done|]. intros (m0 & [->|Hin]%elem_of_cons & Ht & Hlt).
    + congruence.
    + apply IH. eauto.
Qed.

(** X23. A batch of mutation records sets a timer when one of its records
    is of type [childList] and adds a node, and only then; every such batch
    sets a timer of its own and none is taken back, so a burst of batches
    leaves as many scans waiting as it has batches that add nodes. *)
Theorem observer_callback_counts batches timers :
  foldl (λ t b, observer_callback b t) timers batches
  = (timers + length (List.filter relevant batches))%nat
  ∧ (∀ mutations,
       observer_callback mutations timers = S timers
       ↔ ∃ m, m ∈ mutations ∧ m_type m = childList
              ∧ (0 < addedNodes_length m)%nat).
Proof.
  split.
  - revert timers. induction batches as [|b bs IH]; intros timers; simpl.
    { lia. }
    rewrite IH. unfold observer_callback.
    destruct (relevant b); simpl; lia.
  - intros mutations. rewrite <- relevant_spec. unfold observer_callback.
    destruct (relevant mutations); split; try done; lia.
Qed.

(** ** Names without letters or digits, and the way back from a toggle *)

Section SymbolNames.

Variable toLowerCase : jsstring → jsstring.

Hypothesis toLowerCase_ascii :
  ∀ s, is_ascii s → toLowerCase s = ascii_lower <$> s.

Lemma canon_symbols s :
  is_ascii s →
  Forall (λ c, is_az09 (ascii_lower c) = false) s →
  canon toLowerCase (Some s) = [].
Proof.
  intros Ha Hs. rewrite (canon_ascii toLowerCase toLowerCase_ascii) by done.
  clear Ha. induction Hs as [|c s Hc _ IH]; [done|].
  rewrite fmap_cons, filter_cons_False; [done|].
  rewrite Hc. by intros [].
Qed.

(** X24. Names without any letter or digit all have the empty key.  So when
    the stored list has such an entry, the set holds the key of every seller
    name that is made of such characters only: an entry of dots and hyphens
    blocks every seller whose ASCII name has no letter and no digit. *)
Theorem buildBlockedSetFromSaved_symbol_names st entry raw :
  entry ∈ loadBlockedList st →
  is_ascii entry → Forall (λ c, is_az09 (ascii_lower c) = false) entry →
  is_ascii raw → Forall (λ c, is_az09 (ascii_lower c) = false) raw →
  canon toLowerCase (Some raw) = []
  ∧ Set_has (buildBlockedSetFromSaved toLowerCase st)
      (canon toLowerCase (Some raw)) = true.
Proof.
  intros Hin Ha Hs Hra Hrs.
  split; [by apply canon_symbols|].
  apply Set_has_blockedSet. exists entry. split; [done|].
  by rewrite !canon_symbols.
Qed.

End SymbolNames.

Lemma toggle_row_hide_fixed r :
  attrs r !! HIDDEN = Some (js "true") → display r = js "none" →
  toggle_row false r = r.
Proof.
  destruct r as [l a d ds]. simpl. intros Ha ->.
  unfold toggle_row, setAttribute, set_display. simpl.
  by rewrite insert_id.
Qed.

(** X25. On a page whose blocked rows are all hidden the way the script
    hides them, showing the hidden rows and hiding them again gives every
    row back as it was, attribute for attribute. *)
Theorem toggleHiddenRows_show_then_hide pg :
  Forall (λ r, blocked r = true →
               attrs r !! HIDDEN = Some (js "true") ∧ display r = js "none")
    (trs pg) →
  trs (toggleHiddenRows false (toggleHiddenRows true pg)) = trs pg.
Proof.
  intros Hpg. rewrite toggleHiddenRows_last, trs_toggleHiddenRows.
  unfold update_rows. induction Hpg as [|r rows Hr _ IH]; [done|].
  rewrite fmap_cons, IH. f_equal.
  destruct (blocked r); [|done].
  destruct Hr as [Ha Hd]; [done|]. by apply toggle_row_hide_fixed.
Qed.

(** ** The further properties at sample inputs *)

Lemma reaches_first pg : reaches pg 0.
Proof. intros j r Hj. lia. Qed.

Lemma sample_save_written :
  saveBlockedList empty_storage [js " a "; js "a"]
  = (true, (saveBlockedList empty_storage [js " a "; js "a"]).2).
Proof. vm_compute. reflexivity. Qed.

Lemma is_ascii_samples :
  is_ascii (js "KUPIKU") ∧ is_ascii (js "EU")
  ∧ is_ascii (js "-.-") ∧ is_ascii (js "_._").
Proof. unfold is_ascii. split_and!; repeat constructor. Qed.

Lemma symbols_samples :
  Forall (λ c, is_az09 (ascii_lower c) = false) (js "-.-")
  ∧ Forall (λ c, is_az09 (ascii_lower c) = false) (js "_._").
Proof. split; repeat constructor. Qed.

Lemma symbols_listed : js "-.-" ∈ loadBlockedList symbols_storage.
Proof.
  assert (loadBlockedList symbols_storage = [js "-.-"]) as ->
    by (vm_compute; reflexivity).
  apply list_elem_of_here.
Qed.

Lemma linked_row_plain :
  Forall (λ a, 37 ∉ default [] (el_attrs a !! "href"%string))
    (descendants linked_row).
Proof.
  constructor; [|constructor].
  assert (default [] (el_attrs (mkElement true false false
            {["href"%string := js "/seller/abc"]} []) !! "href"%string)
          = js "/seller/abc") as -> by (vm_compute; reflexivity).
  intros H. vm_compute in H.
  repeat (apply elem_of_cons in H as [H|H]; [discriminate H|]).
  by apply elem_of_nil in H.
Qed.

Lemma someone_not_listed entry :
  entry ∈ loadBlockedList (localStorage sample_page) →
  canon toLowerCase_sample (Some (js "someone"))
  ≠ canon toLowerCase_sample (Some entry).
Proof.
  assert (loadBlockedList (localStorage sample_page) = DEFAULT_BLOCKLIST)
    as -> by (vm_compute; reflexivity).
  unfold DEFAULT_BLOCKLIST. intros Hin.
  repeat (apply elem_of_cons in Hin as [->|Hin];
          [intros H; vm_compute in H; discriminate H|]).
  by apply elem_of_nil in Hin.
Qed.

Lemma malformed_row_throws :
  extractSellerFromRow malformed_row = Throw URIError.
Proof. vm_compute. reflexivity. Qed.

Lemma blocked_page_script_markers : Forall script_markers (trs blocked_page).
Proof.
  unfold blocked_page. simpl.
  constructor; [|constructor; [|constructor]].
  - unfold script_markers. split_and!.
    + intros _. vm_compute. reflexivity.
    + intros _. split; vm_compute; reflexivity.
    + intros _ H. vm_compute in H. discriminate H.
  - unfold script_markers. split_and!.
    + intros H. vm_compute in H. discriminate H.
    + intros H. vm_compute in H. discriminate H.
    + intros H. vm_compute in H. discriminate H.
Qed.

Lemma blocked_page_hidden_rows :
  Forall (λ r, blocked r = true →
               attrs r !! HIDDEN = Some (js "true") ∧ display r = js "none")
    (trs blocked_page).
Proof.
  unfold blocked_page. simpl.
  constructor; [|constructor; [|constructor]].
  - intros _. split; vm_compute; reflexivity.
  - intros H. vm_compute in H. discriminate H.
Qed.


Lemma respelled_same_keys k :
  k ∈ (λ x, canon toLowerCase_sample (Some x))
        <$> loadBlockedList (localStorage sample_page)
  ↔ k ∈ (λ x, canon toLowerCase_sample (Some x))
        <$> loadBlockedList
              (localStorage (set_localStorage sample_page respelled_storage)).
Proof.
  set (l1 := _ <$> loadBlockedList (localStorage sample_page)).
  set (l2 := _ <$> loadBlockedList (localStorage (set_localStorage _ _))).
  assert (H12 : Forall (λ x, x ∈ l2) l1)
    by (apply (bool_decide_unpack _); by vm_compute).
  assert (H21 : Forall (λ x, x ∈ l1) l2)
    by (apply (bool_decide_unpack _); by vm_compute).
  rewrite Forall_forall in H12, H21. split; auto.
Qed.

Lemma sample_page_scanned :
  processListings toLowerCase_sample sample_page
  = ((processListings toLowerCase_sample sample_page).1, Normal ()).
Proof. vm_compute. reflexivity. Qed.

Lemma sample_click_applied :
  saveBtn_click toLowerCase_sample (js "someone, x") false blocked_page
  = ((saveBtn_click toLowerCase_sample (js "someone, x") false
        blocked_page).1, Applied (Normal ())).
Proof. vm_compute. reflexivity. Qed.

Lemma blank_sample :
  Forall (λ c, is_white_space c = true ∨ c = 44) (js " , ").
Proof.
  constructor; [by left|]. constructor; [by right|].
  constructor; [by left|]. constructor.
Qed.

Lemma cut_short_unprocessed : (unprocessed_listings cut_short_page ≤ 2)%nat.
Proof.
  assert (unprocessed_listings cut_short_page = 2%nat) as ->
    by (vm_compute; reflexivity).
  lia.
Qed.

Lemma save_loaded_is_noop_witness :
  saveBlockedList empty_storage [js " a "; js "a"]
  = (true, (saveBlockedList empty_storage [js " a "; js "a"]).2)
  ∧ saveBlockedList (saveBlockedList empty_storage [js " a "; js "a"]).2
      (loadBlockedList (saveBlockedList empty_storage [js " a "; js "a"]).2)
    = (true, (saveBlockedList empty_storage [js " a "; js "a"]).2).
Proof.
  split; [exact sample_save_written|].
  exact (proj1 (save_loaded_is_noop _ _ _ sample_save_written)).
Defined.

Lemma canon_ignores_case_and_separators_witness :
  (∀ s, is_ascii s → toLowerCase_sample s = ascii_lower <$> s)
  ∧ is_ascii (js "KUPIKU") ∧ is_ascii (js "EU")
  ∧ canon toLowerCase_sample (Some (js "KUPIKU" ++ 45 :: js "EU"))
    = canon toLowerCase_sample (Some (js "KUPIKU" ++ js "EU")).
Proof.
  split_and!; [exact toLowerCase_sample_ascii
              | exact (proj1 is_ascii_samples)
              | exact (proj1 (proj2 is_ascii_samples)) |].
  exact (proj1 (proj2 (canon_ignores_case_and_separators toLowerCase_sample
           toLowerCase_sample_ascii (js "KUPIKU") (js "EU")
           (proj1 is_ascii_samples) (proj1 (proj2 is_ascii_samples))))
         45 eq_refl eq_refl).
Defined.

Lemma extractSellerFromRow_plain_hrefs_witness :
  Forall (λ a, 37 ∉ default [] (el_attrs a !! "href"%string))
    (descendants linked_row)
  ∧ ∃ o, extractSellerFromRow linked_row = Normal o.
Proof.
  split; [exact linked_row_plain|].
  exact (extractSellerFromRow_plain_hrefs linked_row linked_row_plain).
Defined.

Lemma processListings_unmatched_witness :
  reaches sample_page 0
  ∧ (∀ entry, entry ∈ loadBlockedList (localStorage sample_page) →
       canon toLowerCase_sample (Some (js "someone"))
       ≠ canon toLowerCase_sample (Some entry))
  ∧ trs (processListings toLowerCase_sample sample_page).1 !! 0%nat
    = Some (setAttribute (seller_row (js "someone")) PROCESSED (js "true")).
Proof.
  split_and!; [exact (reaches_first sample_page) | exact someone_not_listed |].
  exact (processListings_unmatched toLowerCase_sample sample_page 0
           (seller_row (js "someone")) (js "someone") eq_refl eq_refl eq_refl
           (reaches_first sample_page) eq_refl someone_not_listed).
Defined.

Lemma processListings_throwing_row_witness :
  reaches cut_short_page 0
  ∧ extractSellerFromRow malformed_row = Throw URIError
  ∧ (processListings toLowerCase_sample cut_short_page).2 = Throw URIError
  ∧ trs (processListings toLowerCase_sample cut_short_page).1 !! 0%nat
    = Some (setAttribute malformed_row PROCESSED (js "true")).
Proof.
  pose proof (processListings_throwing_row toLowerCase_sample cut_short_page
                0 malformed_row URIError eq_refl eq_refl eq_refl
                (reaches_first cut_short_page) malformed_row_throws)
    as (H1 & H2 & _).
  split_and!; [exact (reaches_first cut_short_page)
              | exact malformed_row_throws | exact H1 | exact H2].
Defined.

Lemma script_markers_kept_witness :
  Forall script_markers (trs blocked_page)
  ∧ Forall script_markers
      (trs (saveBtn_click toLowerCase_sample (js "someone, x") false
              blocked_page).1).
Proof.
  split; [exact blocked_page_script_markers|].
  exact (proj2 (proj2 (script_markers_kept toLowerCase_sample blocked_page
                         true (js "someone, x") false
                         blocked_page_script_markers))).
Defined.

Lemma processListings_reads_keys_witness :
  (∀ k,
     k ∈ (λ x, canon toLowerCase_sample (Some x))
           <$> loadBlockedList (localStorage sample_page)
     ↔ k ∈ (λ x, canon toLowerCase_sample (Some x))
           <$> loadBlockedList
                 (localStorage
                    (set_localStorage sample_page respelled_storage)))
  ∧ trs (processListings toLowerCase_sample sample_page).1
    = trs (processListings toLowerCase_sample
             (set_localStorage sample_page respelled_storage)).1.
Proof.
  split; [exact respelled_same_keys|].
  exact (proj1 (processListings_reads_keys toLowerCase_sample sample_page
                  (set_localStorage sample_page respelled_storage)
                  eq_refl respelled_same_keys)).
Defined.


Lemma processListings_new_rows_witness :
  processListings toLowerCase_sample sample_page
  = ((processListings toLowerCase_sample sample_page).1, Normal ())
  ∧ trs (processListings toLowerCase_sample
           (set_trs (processListings toLowerCase_sample sample_page).1
              (trs (processListings toLowerCase_sample sample_page).1
               ++ [seller_row (js "magius")]))).1
    = trs (processListings toLowerCase_sample sample_page).1
      ++ trs (processListings toLowerCase_sample
                (set_trs sample_page [seller_row (js "magius")])).1.
Proof.
  split; [exact sample_page_scanned|].
  exact (proj1 (processListings_new_rows toLowerCase_sample sample_page _
                  [seller_row (js "magius")] sample_page_scanned)).
Defined.

Lemma saveBtn_click_applied_witness :
  saveBtn_click toLowerCase_sample (js "someone, x") false blocked_page
  = ((saveBtn_click toLowerCase_sample (js "someone, x") false
        blocked_page).1, Applied (Normal ()))
  ∧ currentlyShowingHidden
      (saveBtn_click toLowerCase_sample (js "someone, x") false
         blocked_page).1 = false
  ∧ modal_display
      (saveBtn_click toLowerCase_sample (js "someone, x") false
         blocked_page).1 = js "none".
Proof.
  pose proof (saveBtn_click_applied toLowerCase_sample (js "someone, x")
                false blocked_page _ sample_click_applied) as (H1 & H2 & _).
  split_and!; [exact sample_click_applied | exact H1 | exact H2].
Defined.

Lemma saveBtn_click_blank_witness :
  Forall (λ c, is_white_space c = true ∨ c = 44) (js " , ")
  ∧ saveBtn_click toLowerCase_sample (js " , ") false blocked_page
    = (blocked_page, Declined).
Proof.
  split; [exact blank_sample|].
  exact (proj1 (saveBtn_click_blank toLowerCase_sample (js " , ")
                  blocked_page blank_sample)).
Defined.

Lemma passes_settle_witness :
  (unprocessed_listings cut_short_page ≤ 2)%nat
  ∧ (processListings toLowerCase_sample
       (passes toLowerCase_sample 2 cut_short_page)).2 = Normal ().
Proof.
  split; [exact cut_short_unprocessed|].
  exact (proj1 (proj2 (passes_settle toLowerCase_sample cut_short_page 2
                         cut_short_unprocessed))).
Defined.

Lemma buildBlockedSetFromSaved_symbol_names_witness :
  (∀ s, is_ascii s → toLowerCase_sample s = ascii_lower <$> s)
  ∧ js "-.-" ∈ loadBlockedList symbols_storage
  ∧ Set_has (buildBlockedSetFromSaved toLowerCase_sample symbols_storage)
      (canon toLowerCase_sample (Some (js "_._"))) = true.
Proof.
  split_and!; [exact toLowerCase_sample_ascii | exact symbols_listed |].
  exact (proj2 (buildBlockedSetFromSaved_symbol_names toLowerCase_sample
                  toLowerCase_sample_ascii symbols_storage (js "-.-")
                  (js "_._") symbols_listed
                  (proj1 (proj2 (proj2 is_ascii_samples)))
                  (proj1 symbols_samples)
                  (proj2 (proj2 (proj2 is_ascii_samples)))
                  (proj2 symbols_samples))).
Defined.

Lemma toggleHiddenRows_show_then_hide_witness :
  Forall (λ r, blocked r = true →
               attrs r !! HIDDEN = Some (js "true") ∧ display r = js "none")
    (trs blocked_page)
  ∧ trs (toggleHiddenRows false (toggleHiddenRows true blocked_page))
    = trs blocked_page.
Proof.
  split; [exact blocked_page_hidden_rows|].
  exact (toggleHiddenRows_show_then_hide blocked_page blocked_page_hidden_rows).
Defined.
